(** * Mecanum robot simulator: drive kinematics, pose integration, range sensors

    Shallow embedding of [scripts/robot.py] (class [Robot]).

    Numbers: the Python floats of the source are read as real numbers, so
    [math.sqrt], [math.cos], [math.sin] are the real functions and [/] is the
    real division.  What Python adds on top of that is kept: a division by
    zero, a square root of a negative number and an index out of range raise,
    and a raised exception aborts the call (type [py]).  The [while True]
    loop of [bresenham_line] is run on fuel; [OutOfFuel] is the outcome of a
    run that was given too little.

    Objects: the lists bound in the class body ([_phi_tof], [_t_tof],
    [_v_face], [_pos_tof], [_far_tof]) are one object each, shared by every
    instance; they live in [RobotClass].  What [__init__] and the methods bind
    on [self] lives in [Robot]. *)

From Stdlib Require Import Reals Lra Lia ZArith Bool String List.
Import ListNotations.
Open Scope R_scope.

(** ** Python outcomes *)

Inductive exn : Type :=
| ZeroDivisionError
| ValueError
| IndexError.

Inductive py (A : Type) : Type :=
| Ok (a : A)
| Raise (e : exn)
| OutOfFuel.

Arguments Ok {A} a.
Arguments Raise {A} e.
Arguments OutOfFuel {A}.

Definition bind {A B : Type} (c : py A) (k : A -> py B) : py B :=
  match c with
  | Ok a => k a
  | Raise e => Raise e
  | OutOfFuel => OutOfFuel
  end.

Notation "x <- c ;; k" := (bind c (fun x => k))
  (at level 61, c at next level, right associativity).
Notation "' p <- c ;; k" := (bind c (fun x => let 'p := x in k))
  (at level 61, p pattern, c at next level, right associativity).

(** [a / b] on floats. *)
Definition pydiv (a b : R) : py R :=
  if Req_dec_T b 0 then Raise ZeroDivisionError else Ok (a / b).

(** [math.sqrt]. *)
Definition pysqrt (x : R) : py R :=
  if Rlt_dec x 0 then Raise ValueError else Ok (sqrt x).

(** [l[i]] for [i] taken from a [range]. *)
Definition getitem {A : Type} (l : list A) (i : nat) : py A :=
  match nth_error l i with
  | Some a => Ok a
  | None => Raise IndexError
  end.

(** [l[i] = v] for [i] taken from a [range]. *)
Fixpoint setitem {A : Type} (l : list A) (i : nat) (v : A) : py (list A) :=
  match l, i with
  | [], _ => Raise IndexError
  | _ :: t, O => Ok (v :: t)
  | h :: t, S j => t' <- setitem t j v ;; Ok (h :: t')
  end.

(** Comparisons of floats as booleans. *)
Definition Rltb (a b : R) : bool := if Rlt_dec a b then true else false.
Definition Rleb (a b : R) : bool := if Rle_dec a b then true else false.
Definition Reqb (a b : R) : bool := if Req_dec_T a b then true else false.

Definition point : Type := (R * R)%type.

(** ** numpy: matrices as lists of rows *)

Definition matrix : Type := list (list R).

Definition dotp (u v : list R) : R :=
  fold_right Rplus 0 (map (fun p => fst p * snd p) (combine u v)).

(** [M.dot(v)] for a matrix [M] and a one-dimensional array [v]. *)
Definition mat_vec (M : matrix) (v : list R) : list R :=
  map (fun row => dotp row v) M.

Definition entry (M : matrix) (i j : nat) : R := nth j (nth i M []) 0.

Definition col (j : nat) (M : matrix) : list R :=
  map (fun row => nth j row 0) M.

Definition ncols (M : matrix) : nat := length (hd [] M).

Definition transpose (M : matrix) : matrix :=
  map (fun j => col j M) (seq 0 (ncols M)).

Definition mmul (A B : matrix) : matrix :=
  map (fun row => map (fun c => dotp row c) (transpose B)) A.

Definition shape (r c : nat) (M : matrix) : Prop :=
  length M = r /\ Forall (fun row => length row = c) M.

(** The four Penrose equations: [X] is the Moore-Penrose pseudo-inverse of
    [A].  This is what [np.linalg.pinv] is documented to return. *)
Definition is_pinv (A X : matrix) : Prop :=
  shape (ncols A) (length A) X /\
  mmul (mmul A X) A = A /\
  mmul (mmul X A) X = X /\
  transpose (mmul A X) = mmul A X /\
  transpose (mmul X A) = mmul X A.

(** Inverse of a 3x3 matrix by cofactors. *)
Definition inv3 (M : matrix) : matrix :=
  let a := entry M 0 0 in let b := entry M 0 1 in let c := entry M 0 2 in
  let d := entry M 1 0 in let e := entry M 1 1 in let f := entry M 1 2 in
  let g := entry M 2 0 in let h := entry M 2 1 in let i := entry M 2 2 in
  let det := a * (e * i - f * h) - b * (d * i - f * g) + c * (d * h - e * g) in
  [[(e * i - f * h) / det; (c * h - b * i) / det; (b * f - c * e) / det];
   [(f * g - d * i) / det; (a * i - c * g) / det; (c * d - a * f) / det];
   [(d * h - e * g) / det; (b * g - a * h) / det; (a * e - b * d) / det]].

(** [np.linalg.pinv] on a matrix with three independent columns, where the
    pseudo-inverse is [(A^T A)^-1 A^T].  Lemma [pinv_is_pinv] checks it
    against the Penrose equations for the matrix of this robot. *)
Definition pinv (A : matrix) : matrix :=
  mmul (inv3 (mmul (transpose A) A)) (transpose A).

(** ** Class attributes of [Robot] *)

Definition _obstacle_radius : R := 0.2.
Definition _angle_min : R := -135 * PI / 180.
Definition _angle_inc : R := 1 * PI / 180.
Definition _laserbeams : nat := 271.
Definition _laser_range : R := 8.
Definition _rng_tof : R := 8.
Definition _offset_tof : R := 0.2.
Definition _wheel_radius : R := 0.05.
Definition _wheel_omega_max : R := 10.
Definition _wheel_base : R := 0.3.
Definition _track : R := 0.2.

(** The lists of the class body.  Every instance reads and writes these same
    five objects: no method ever binds one of these names on [self]. *)
Record RobotClass : Type := mkRobotClass {
  _phi_tof : list R;
  _t_tof : list R;
  _v_face : list point;
  _pos_tof : list point;
  _far_tof : list point
}.

(** The class right after the class body has run. *)
Definition class_body : RobotClass := mkRobotClass [] [] [] [] [].

(** The attributes of an instance.  [_v] and [_omega] start as the class
    values [[0, 0]] and [0]; the class list [_v] is only ever written with
    zeros, so it is kept as a value here.  Times are in seconds. *)
Record Robot : Type := mkRobot {
  _initial_coords : point;
  _initial_theta : R;
  _reset : bool;
  _coords : point;
  _theta : R;
  _T : matrix;
  _Tinv : matrix;
  _max_speed : R;
  _max_omega : R;
  _angle_max : R;
  _name : string;
  _run : bool;
  _timestamp : R;
  _last_command : R;
  _v : point;
  _omega : R
}.

(** The matrix of the kinematic concept built in [__init__]: one row per
    wheel, in the order front left, front right, rear left, rear right. *)
Definition lxly : R := (_wheel_base / 2 + _track / 2) / _wheel_radius.
Definition rinv : R := 1 / _wheel_radius.

Definition kinematic_matrix : matrix :=
  [[ rinv; - rinv; - lxly];
   [- rinv; - rinv; - lxly];
   [ rinv;  rinv; - lxly];
   [- rinv;  rinv; - lxly]].

(** The two loops of [__init__] over the shared lists. *)
Fixpoint append_beams (n i : nat) (phi t : list R) : list R * list R :=
  match n with
  | O => (phi, t)
  | S n' =>
      append_beams n' (S i) (phi ++ [INR i * _angle_inc + _angle_min])
                   (t ++ [_offset_tof])
  end.

Fixpoint append_slots (n : nat) (l : list point) : list point :=
  match n with
  | O => l
  | S n' => append_slots n' (l ++ [(0, 0)])
  end.

(** [Robot(x, y, theta, name)], constructed at time [now]. *)
Definition __init__ (cls : RobotClass) (x y theta : R) (name : string)
    (now : R) : RobotClass * Robot :=
  let T := kinematic_matrix in
  let max_speed := _wheel_omega_max * _wheel_radius in
  let beams := append_beams _laserbeams 0 (_phi_tof cls) (_t_tof cls) in
  let n := length (fst beams) in
  (mkRobotClass (fst beams) (snd beams)
     (append_slots n (_v_face cls))
     (append_slots n (_pos_tof cls))
     (append_slots n (_far_tof cls)),
   mkRobot (x, y) theta false (x, y) theta T (pinv T)
     max_speed (max_speed / (_wheel_base / 2 + _track / 2))
     (_angle_min + (INR _laserbeams - 1) * _angle_inc)
     name true now now (0, 0) 0).

Definition set_velocity (self : Robot) (vx vy omega : R) : Robot :=
  mkRobot (_initial_coords self) (_initial_theta self) (_reset self)
    (_coords self) (_theta self) (_T self) (_Tinv self)
    (_max_speed self) (_max_omega self) (_angle_max self) (_name self)
    (_run self) (_timestamp self) (_last_command self) (vx, vy) omega.

(** [res = self._Tinv.dot(w)] is a 1x3 matrix; [res[0,k]] reads entry [k]. *)
Definition set_wheel_speed (self : Robot) (omega_wheel : list R) : py Robot :=
  w0 <- getitem omega_wheel 0 ;;
  w1 <- getitem omega_wheel 1 ;;
  w2 <- getitem omega_wheel 2 ;;
  w3 <- getitem omega_wheel 3 ;;
  let res := mat_vec (_Tinv self) [w0; w1; w2; w3] in
  r0 <- getitem res 0 ;;
  r1 <- getitem res 1 ;;
  r2 <- getitem res 2 ;;
  Ok (set_velocity self r0 r1 r2).

(** The wheel rates [self._T.dot(x)] that [set_velocity] computes for a body
    velocity. *)
Definition wheel_rates (self : Robot) (vx vy omega : R) : list R :=
  mat_vec (_T self) [vx; vy; omega].

(** The command callbacks: store the velocity and note the arrival time
    [now]. *)
Definition received (self : Robot) (now : R) : Robot :=
  mkRobot (_initial_coords self) (_initial_theta self) (_reset self)
    (_coords self) (_theta self) (_T self) (_Tinv self)
    (_max_speed self) (_max_omega self) (_angle_max self) (_name self)
    (_run self) (_timestamp self) now (_v self) (_omega self).

Definition callback_twist (self : Robot) (linear_x linear_y angular_z : R)
    (now : R) : Robot :=
  received (set_velocity self linear_x linear_y angular_z) now.

Definition callback_wheel_speed (self : Robot)
    (w_front_left w_front_right w_rear_left w_rear_right : R) (now : R)
    : py Robot :=
  let omega := [w_front_left; w_front_right; w_rear_left; w_rear_right] in
  self <- set_wheel_speed self omega ;;
  Ok (received self now).

Definition reset_pose (self : Robot) : Robot :=
  mkRobot (_initial_coords self) (_initial_theta self) true
    (_coords self) (_theta self) (_T self) (_Tinv self)
    (_max_speed self) (_max_omega self) (_angle_max self) (_name self)
    (_run self) (_timestamp self) (_last_command self) (_v self)
    (_omega self).

(** ** The update loop *)

(** The stored velocity and angular rate after the command check of
    [trigger]: zeroed when the last command is older than half a second. *)
Definition command_check (self : Robot) (timestamp : R) : point * R :=
  let last_command_arrival := timestamp - _last_command self in
  if Rltb 0.5 last_command_arrival then ((0, 0), 0)
  else (_v self, _omega self).

(** One pass of the loop of [trigger] up to the point where the pose is
    published; [timestamp] is what [rospy.Time.now()] returns. *)
Definition integrate (self : Robot) (timestamp : R) : Robot :=
  let elapsed := timestamp - _timestamp self in
  let '(v_self, omega) := command_check self timestamp in
  let theta := _theta self + omega * elapsed in
  let cos_theta := cos theta in
  let sin_theta := sin theta in
  let v0 := cos_theta * fst v_self - sin_theta * snd v_self in
  let v1 := sin_theta * fst v_self + cos_theta * snd v_self in
  mkRobot (_initial_coords self) (_initial_theta self) (_reset self)
    (fst (_coords self) + v0 * elapsed, snd (_coords self) + v1 * elapsed)
    theta (_T self) (_Tinv self)
    (_max_speed self) (_max_omega self) (_angle_max self) (_name self)
    (_run self) timestamp (_last_command self) v_self omega.

(** The end of the pass: a requested reset puts the robot back. *)
Definition consume_reset (self : Robot) : Robot :=
  if _reset self then
    mkRobot (_initial_coords self) (_initial_theta self) false
      (_initial_coords self) (_initial_theta self) (_T self) (_Tinv self)
      (_max_speed self) (_max_omega self) (_angle_max self) (_name self)
      (_run self) (_timestamp self) (_last_command self) (_v self)
      (_omega self)
  else self.

(** One whole pass of the loop of [trigger]. *)
Definition trigger (self : Robot) (timestamp : R) : Robot :=
  consume_reset (integrate self timestamp).

(** ** Geometry *)

Definition line_length (p1 p2 : point) : py R :=
  pysqrt ((fst p1 - fst p2) * (fst p1 - fst p2)
          + (snd p1 - snd p2) * (snd p1 - snd p2)).

(** [tuple(map(operator.sub, p, q))] *)
Definition sub (p q : point) : point := (fst p - fst q, snd p - snd q).

Definition line (p1 p2 : point) : R * R * R :=
  let A := snd p1 - snd p2 in
  let B := fst p2 - fst p1 in
  let C := fst p1 * snd p2 - fst p2 * snd p1 in
  (A, B, - C).

(** [None] stands for the [False] that the source returns. *)
Definition intersection (L1 L2 : R * R * R) : py (option point) :=
  let '(a1, b1, c1) := L1 in
  let '(a2, b2, c2) := L2 in
  let D := a1 * b2 - b1 * a2 in
  let Dx := c1 * b2 - b1 * c2 in
  let Dy := a1 * c2 - c1 * a2 in
  if negb (Reqb D 0) then
    x <- pydiv Dx D ;;
    y <- pydiv Dy D ;;
    Ok (Some (x, y))
  else Ok None.

Definition dot_product (p1 p2 : point) : R :=
  fst p1 * fst p2 + snd p1 * snd p2.

(** The two dot products that [line_line_intersection] tests. *)
Definition dot1_of (coords_inter coords_sensor coords_far : point) : R :=
  dot_product (sub coords_inter coords_sensor) (sub coords_inter coords_far).

Definition dot2_of (coords_inter start_line end_line : point) : R :=
  dot_product (sub coords_inter start_line) (sub coords_inter end_line).

Definition line_line_intersection
    (start_line end_line coords_sensor coords_far : point) : py R :=
  let L1 := line start_line end_line in
  let L2 := line coords_sensor coords_far in
  coords_inter <- intersection L1 L2 ;;
  match coords_inter with
  | Some p =>
      let dot1 := dot1_of p coords_sensor coords_far in
      let dot2 := dot2_of p start_line end_line in
      if Rleb 0 dot1 || Rleb 0 dot2 then Ok (-1)
      else line_length p coords_sensor
  | None => Ok (-1)
  end.

Definition circle_line_intersection (coords_obstacle : point) (r : R)
    (coords_sensor coords_far : point) : py R :=
  let x1c := fst coords_sensor - fst coords_obstacle in
  let y1c := snd coords_sensor - snd coords_obstacle in
  let x2c := fst coords_far - fst coords_obstacle in
  let y2c := snd coords_far - snd coords_obstacle in
  let dx := x2c - x1c in
  let dy := y2c - y1c in
  dr <- pysqrt (dx * dx + dy * dy) ;;
  let det := x1c * y2c - x2c * y1c in
  let sgn := if Rltb dy 0 then -1 else 1 in
  let lam := r * r * dr * dr - det * det in
  '(dist, v_hit) <-
    (if Rltb 0 lam then
       s <- pysqrt lam ;;
       i1x <- pydiv (det * dy + sgn * dx * s) (dr * dr) ;;
       i1y <- pydiv (- det * dx + Rabs dy * s) (dr * dr) ;;
       let coords_inter1 :=
         (i1x + fst coords_obstacle, i1y + snd coords_obstacle) in
       i2x <- pydiv (det * dy - sgn * dx * s) (dr * dr) ;;
       i2y <- pydiv (- det * dx - Rabs dy * s) (dr * dr) ;;
       let coords_inter2 :=
         (i2x + fst coords_obstacle, i2y + snd coords_obstacle) in
       dist1 <- line_length coords_inter1 coords_sensor ;;
       dist2 <- line_length coords_inter2 coords_sensor ;;
       if Rltb dist1 dist2 then Ok (dist1, sub coords_inter1 coords_sensor)
       else Ok (dist2, sub coords_inter2 coords_sensor)
     else Ok (-1, (0, 0))) ;;
  let v_face := sub coords_far coords_sensor in
  let dot := fst v_face * fst v_hit + snd v_face * snd v_hit in
  if Rltb 0 dist && Rltb 0 dot then Ok dist else Ok (-1).

(** ** The ring of ToF sensors *)

(** [for i in range(0, n): s = body(i, s)] *)
Fixpoint for_range {St : Type} (n i : nat) (body : nat -> St -> py St)
    (s : St) : py St :=
  match n with
  | O => Ok s
  | S n' => s' <- body i s ;; for_range n' (S i) body s'
  end.

Definition with_v_face (cls : RobotClass) (l : list point) : RobotClass :=
  mkRobotClass (_phi_tof cls) (_t_tof cls) l (_pos_tof cls) (_far_tof cls).

Definition with_pos_tof (cls : RobotClass) (l : list point) : RobotClass :=
  mkRobotClass (_phi_tof cls) (_t_tof cls) (_v_face cls) l (_far_tof cls).

Definition with_far_tof (cls : RobotClass) (l : list point) : RobotClass :=
  mkRobotClass (_phi_tof cls) (_t_tof cls) (_v_face cls) (_pos_tof cls) l.

Definition get_tof_count (cls : RobotClass) (self : Robot) : nat :=
  length (_phi_tof cls).

Fixpoint facing_loop (theta : R) (phis : list R) (i : nat)
    (v_face : list point) : py (list point) :=
  match phis with
  | [] => Ok v_face
  | phi :: rest =>
      let cos_theta := cos (theta + phi) in
      let sin_theta := sin (theta + phi) in
      v_face' <- setitem v_face i (cos_theta * 1 - sin_theta * 0,
                                   sin_theta * 1 + cos_theta * 0) ;;
      facing_loop theta rest (S i) v_face'
  end.

(** Every getter writes the shared list and returns that same list. *)
Definition get_facing_tof (cls : RobotClass) (self : Robot)
    : py (RobotClass * list point) :=
  l <- facing_loop (_theta self) (_phi_tof cls) 0 (_v_face cls) ;;
  Ok (with_v_face cls l, l).

Definition get_pos_tof (cls : RobotClass) (self : Robot)
    : py (RobotClass * list point) :=
  '(cls, v_face) <- get_facing_tof cls self ;;
  l <- for_range (length (_phi_tof cls)) 0
         (fun i pos =>
            f <- getitem v_face i ;;
            t <- getitem (_t_tof cls) i ;;
            setitem pos i (fst (_coords self) + fst f * t,
                           snd (_coords self) + snd f * t))
         (_pos_tof cls) ;;
  Ok (with_pos_tof cls l, l).

Definition get_far_tof (cls : RobotClass) (self : Robot)
    : py (RobotClass * list point) :=
  '(cls, v_face) <- get_facing_tof cls self ;;
  l <- for_range (length (_phi_tof cls)) 0
         (fun i far =>
            f <- getitem v_face i ;;
            t <- getitem (_t_tof cls) i ;;
            setitem far i (fst (_coords self) + fst f * (t + _rng_tof),
                           snd (_coords self) + snd f * (t + _rng_tof)))
         (_far_tof cls) ;;
  Ok (with_far_tof cls l, l).

(** The caller's list is padded when its length differs from the number of
    sensors. *)
Definition pad_distances (cls : RobotClass) (dist_to_obstacles : list R)
    : list R :=
  if Nat.eqb (length dist_to_obstacles) (length (_phi_tof cls))
  then dist_to_obstacles
  else dist_to_obstacles ++ repeat _rng_tof (length (_phi_tof cls)).

Definition get_distance_to_line_obstacle (cls : RobotClass) (self : Robot)
    (start_line end_line : point) (dist_to_obstacles : list R)
    : py (RobotClass * list R) :=
  let dist_to_obstacles := pad_distances cls dist_to_obstacles in
  '(cls, pos_tof) <- get_pos_tof cls self ;;
  '(cls, far_tof) <- get_far_tof cls self ;;
  d <- for_range (length (_phi_tof cls)) 0
         (fun i dists =>
            p <- getitem pos_tof i ;;
            f <- getitem far_tof i ;;
            hit <- line_line_intersection start_line end_line p f ;;
            t <- getitem (_t_tof cls) i ;;
            let dist := hit + t in
            old <- getitem dists i ;;
            if Rltb dist old && Rltb 0 dist then setitem dists i dist
            else Ok dists)
         dist_to_obstacles ;;
  Ok (cls, d).

Definition get_distance_to_circular_obstacle (cls : RobotClass)
    (self : Robot) (pos_obstacle : point) (obstacle_radius : R)
    (dist_to_obstacles : list R) : py (RobotClass * list R) :=
  let dist_to_obstacles := pad_distances cls dist_to_obstacles in
  '(cls, pos_tof) <- get_pos_tof cls self ;;
  '(cls, far_tof) <- get_far_tof cls self ;;
  d <- for_range (length (_phi_tof cls)) 0
         (fun i dists =>
            p <- getitem pos_tof i ;;
            f <- getitem far_tof i ;;
            dist <- circle_line_intersection pos_obstacle obstacle_radius p f ;;
            old <- getitem dists i ;;
            if Rltb dist old && Rltb 0 dist then setitem dists i dist
            else Ok dists)
         dist_to_obstacles ;;
  Ok (cls, d).

(** ** The laser scanner *)

Definition color : Type := (Z * Z * Z)%type.

(** A [pygame.Surface] as the scanner uses it: a size and a colour for every
    pixel.  [get_at] raises outside the surface, [set_at] does nothing
    there. *)
Record Surface : Type := mkSurface {
  get_width : Z;
  get_height : Z;
  pixel : Z -> Z -> color
}.

Definition inside (m : Surface) (x y : Z) : bool :=
  ((0 <=? x) && (x <? get_width m) && (0 <=? y) && (y <? get_height m))%Z.

Definition get_at (m : Surface) (x y : Z) : py color :=
  if inside m x y then Ok (pixel m x y) else Raise IndexError.

Definition set_at (m : Surface) (x y : Z) (c : color) : Surface :=
  if inside m x y then
    mkSurface (get_width m) (get_height m)
      (fun x' y' => if ((x' =? x) && (y' =? y))%Z then c else pixel m x' y')
  else m.

Definition color_eqb (c d : color) : bool :=
  let '(c0, c1, c2) := c in
  let '(d0, d1, d2) := d in
  ((c0 =? d0) && (c1 =? d1) && (c2 =? d2))%Z.

Definition black : color := (0, 0, 0)%Z.
Definition red : color := (255, 0, 0)%Z.
Definition tint : color := (0, 208, 255)%Z.

(** [int(x)] on a float: rounds towards zero. *)
Definition int (x : R) : Z :=
  if Rleb 0 x then Int_part x else (- Int_part (- x))%Z.

Definition ceil (x : R) : Z := (- Int_part (- x))%Z.

(** [a % b] on integers. *)
Definition pymod (a b : Z) : py Z :=
  if (b =? 0)%Z then Raise ZeroDivisionError else Ok (a mod b)%Z.

(** [np.arange(start, stop, step)] *)
Definition arange (start stop step : R) : py (list R) :=
  if Reqb step 0 then Raise ZeroDivisionError
  else Ok (map (fun i => start + INR i * step)
             (seq 0 (Z.to_nat (ceil ((stop - start) / step))))).

(** The [while True] loop of [bresenham_line]. *)
Fixpoint bresenham_loop (fuel : nat) (x1 y1 dx dy sx sy step : Z)
    (x0 y0 err count : Z) (points : list (Z * Z)) : py (list (Z * Z)) :=
  match fuel with
  | O => OutOfFuel
  | S fuel' =>
      r <- pymod count step ;;
      let points := if (r =? 0)%Z then points ++ [(x0, y0)] else points in
      let count := (count + 1)%Z in
      if ((x0 =? x1) && (y0 =? y1))%Z then Ok points
      else
        let e2 := (err * 2)%Z in
        let '(err, x0) :=
          if (e2 >? - dy)%Z then ((err - dy)%Z, (x0 + sx)%Z) else (err, x0) in
        let '(err, y0) :=
          if (e2 <? dx)%Z then ((err + dx)%Z, (y0 + sy)%Z) else (err, y0) in
        bresenham_loop fuel' x1 y1 dx dy sx sy step x0 y0 err count points
  end.

(** The loop leaves after at most [dx + dy + 1] passes (lemma
    [bresenham_line_returns]), which is the fuel it is given. *)
Definition bresenham_line (x0 y0 x1 y1 step : Z) : py (list (Z * Z)) :=
  let dx := Z.abs (x1 - x0) in
  let dy := Z.abs (y1 - y0) in
  let sx := if (x0 <? x1)%Z then 1%Z else (-1)%Z in
  let sy := if (y0 <? y1)%Z then 1%Z else (-1)%Z in
  let err := (dx - dy)%Z in
  bresenham_loop (S (Z.to_nat (dx + dy))) x1 y1 dx dy sx sy step
    x0 y0 err 0%Z [].

Definition is_obstacle (c : color) : bool :=
  color_eqb c black || color_eqb c red.

(** The [for x, y in points_on_line] loop of [calculate_lidar_angle]. *)
Fixpoint beam_walk (points_on_line : list (Z * Z)) (r_x r_y : R)
    (surface : Surface) (meter_to_pixel distance : R) : py (R * Surface) :=
  match points_on_line with
  | [] => Ok (distance, surface)
  | (x, y) :: rest =>
      if ((0 <? x) && (x <? get_width surface)
          && (0 <? y) && (y <? get_height surface))%Z then
        c <- get_at surface x y ;;
        if is_obstacle c then
          obstacle <- pysqrt ((IZR x - r_x) ^ 2 + (IZR y - r_y) ^ 2) ;;
          distance <- pydiv obstacle meter_to_pixel ;;
          Ok (distance, surface)
        else
          beam_walk rest r_x r_y (set_at surface x y tint)
            meter_to_pixel distance
      else beam_walk rest r_x r_y surface meter_to_pixel distance
  end.

Definition calculate_lidar_angle (self : Robot) (index : nat) (angle : R)
    (robot_pose : R * R * R) (surface : Surface) (meter_to_pixel : R)
    : py (nat * R * Surface) :=
  let '(r_x, r_y, _) := robot_pose in
  let min_range := _obstacle_radius in
  let x2 := int (r_x + _laser_range * meter_to_pixel * cos angle) in
  let y2 := int (r_y + _laser_range * meter_to_pixel * sin angle) in
  let x1 := int (min_range * meter_to_pixel * cos angle + r_x) in
  let y1 := int (min_range * meter_to_pixel * sin angle + r_y) in
  points_on_line <- bresenham_line x1 y1 x2 y2 3 ;;
  '(distance, surface) <-
    beam_walk points_on_line r_x r_y surface meter_to_pixel _laser_range ;;
  Ok (index, distance, surface).

(** The beams are run one after the other in the order they are submitted,
    each on the surface the previous one left. *)
Fixpoint submit_beams (self : Robot) (angles : list R) (i : nat)
    (robot_pose : R * R * R) (surface : Surface)
    : py (list (nat * R) * Surface) :=
  match angles with
  | [] => Ok ([], surface)
  | angle :: rest =>
      '(index, distance, surface) <-
        calculate_lidar_angle self i angle robot_pose surface 100 ;;
      '(more, surface) <- submit_beams self rest (S i) robot_pose surface ;;
      Ok ((index, distance) :: more, surface)
  end.

(** [distances[index] = distance] for every finished beam. *)
Fixpoint collect (results : list (nat * R)) (distances : list R)
    : py (list R) :=
  match results with
  | [] => Ok distances
  | (index, distance) :: rest =>
      distances' <- setitem distances index distance ;;
      collect rest distances'
  end.

Definition LiDAR_sensing (self : Robot) (robot_pose : R * R * R)
    (surface : Surface) : py (list R * Surface) :=
  let r_heading := snd robot_pose in
  let angle_min := _angle_min in
  let angle_max := _angle_max self in
  let angle_inc := _angle_inc in
  let start_angle := - r_heading + angle_min in
  let end_angle := - r_heading + angle_max in
  angles <- arange end_angle start_angle (- angle_inc) ;;
  let num_angles := length angles in
  let distances := repeat 0 num_angles in
  '(results, surface) <- submit_beams self angles 0 robot_pose surface ;;
  distances <- collect results distances ;;
  Ok (distances, surface).

(** ** Surfaces before and after a scan *)

(** Two surfaces of one size with obstacles in the same cells. *)
Definition same_obstacles (m1 m2 : Surface) : Prop :=
  get_width m1 = get_width m2 /\ get_height m1 = get_height m2 /\
  forall x y : Z, is_obstacle (pixel m1 x y) = is_obstacle (pixel m2 x y).

(** [m'] is [m] with the tint written on some cells that held no
    obstacle; every other cell has kept its colour. *)
Definition tinted (m m' : Surface) : Prop :=
  get_width m' = get_width m /\ get_height m' = get_height m /\
  forall x y : Z,
    pixel m' x y = pixel m x y \/
    (is_obstacle (pixel m x y) = false /\ pixel m' x y = tint).

(** ** Constructing several robots *)

(** [Robot(x, y, theta, name)] called once per entry of [args], in order,
    each call at its own time [now]; returns the class as the calls leave
    it and the instances, first constructed first. *)
Fixpoint construct_all (cls : RobotClass)
    (args : list (R * R * R * string * R)) : RobotClass * list Robot :=
  match args with
  | [] => (cls, [])
  | (x, y, theta, name, now) :: rest =>
      let made := __init__ cls x y theta name now in
      let others := construct_all (fst made) rest in
      (fst others, snd made :: snd others)
  end.

(** ** The specification's description of the kinematic matrix *)

(** The row shape of the specification: the entries for [vx] and [vy] are
    [1/r] in size and opposite in sign, the entry for [omega] is
    [-(lx+ly)/r] with [lx+ly = wheelBase/2 + track/2]. *)
Definition spec_row_shape (row : list R) : Prop :=
  exists s : R,
    (s = 1 \/ s = -1) /\
    row = [s * (1 / _wheel_radius); - s * (1 / _wheel_radius);
           - ((_wheel_base / 2 + _track / 2) / _wheel_radius)].

(** The [vy] column of the specification: front left and rear right have
    the opposite sign of front right and rear left. *)
Definition spec_vy_pattern (M : matrix) : Prop :=
  entry M 0 1 * entry M 1 1 < 0 /\ entry M 0 1 * entry M 2 1 < 0 /\
  entry M 3 1 * entry M 1 1 < 0 /\ entry M 3 1 * entry M 2 1 < 0.

(** ** More of the command interface *)

Definition set_max_velocity (self : Robot) (vel : R) : Robot :=
  mkRobot (_initial_coords self) (_initial_theta self) (_reset self)
    (_coords self) (_theta self) (_T self) (_Tinv self)
    vel (_max_omega self) (_angle_max self) (_name self)
    (_run self) (_timestamp self) (_last_command self) (_v self)
    (_omega self).

Definition stop (self : Robot) : Robot :=
  let self := set_velocity self 0 0 0 in
  mkRobot (_initial_coords self) (_initial_theta self) (_reset self)
    (_coords self) (_theta self) (_T self) (_Tinv self)
    (_max_speed self) (_max_omega self) (_angle_max self) (_name self)
    false (_timestamp self) (_last_command self) (_v self) (_omega self).

(** [data.axes] is the list [axes]. *)
Definition callback_joy (self : Robot) (axes : list R) (now : R) : py Robot :=
  a1 <- getitem axes 1 ;;
  a0 <- getitem axes 0 ;;
  a2 <- getitem axes 2 ;;
  Ok (received
        (set_velocity self (a1 * _max_speed self) (a0 * _max_speed self)
           (a2 * _max_omega self))
        now).

(** ** Points on segments, rays and circles *)

(** The point at parameter [l] on the line from [a] to [b]. *)
Definition along (a b : point) (l : R) : point :=
  (fst a + l * (fst b - fst a), snd a + l * (snd b - snd a)).

(** [p] lies on the segment from [a] to [b], ends excluded. *)
Definition strictly_between (a b p : point) : Prop :=
  exists l : R, 0 < l < 1 /\ p = along a b l.

(** [p] lies on the ray that leaves [s] towards [f], [s] excluded. *)
Definition on_ray (s f p : point) : Prop :=
  exists m : R, 0 < m /\ p = along s f m.

Definition on_circle (c : point) (r : R) (p : point) : Prop :=
  (fst p - fst c) * (fst p - fst c) + (snd p - snd c) * (snd p - snd c)
  = r * r.

(** The squared distance, as [line_length] computes it before the root. *)
Definition dist2 (p q : point) : R :=
  (fst p - fst q) * (fst p - fst q) + (snd p - snd q) * (snd p - snd q).

(** ** The ring of ToF sensors, sensor by sensor *)

Definition get_hit_tof (cls : RobotClass) (self : Robot) (dist : list R)
    : py (RobotClass * list point) :=
  '(cls, v_face) <- get_facing_tof cls self ;;
  l <- for_range (length (_phi_tof cls)) 0
         (fun i far =>
            d <- getitem dist i ;;
            let d := if Rltb d 0 then _rng_tof else d in
            f <- getitem v_face i ;;
            setitem far i (fst (_coords self) + fst f * d,
                           snd (_coords self) + snd f * d))
         (_far_tof cls) ;;
  Ok (with_far_tof cls l, l).

(** Every sensor has its mount offset and its three slots. *)
Definition ring_ready (cls : RobotClass) : Prop :=
  (length (_phi_tof cls) <= length (_t_tof cls))%nat /\
  (length (_phi_tof cls) <= length (_v_face cls))%nat /\
  (length (_phi_tof cls) <= length (_pos_tof cls))%nat /\
  (length (_phi_tof cls) <= length (_far_tof cls))%nat.

(** The point at distance [t] from the robot centre in the direction
    [_theta + phi]. *)
Definition mount (self : Robot) (phi t : R) : point :=
  (fst (_coords self) + cos (_theta self + phi) * t,
   snd (_coords self) + sin (_theta self + phi) * t).

(** The facing vectors of a heading. *)
Definition facings (self : Robot) (phis : list R) : list point :=
  map (fun phi => (cos (_theta self + phi), sin (_theta self + phi))) phis.

(** [f] applied to every element together with its index, counted from
    [i]. *)
Fixpoint imap {A B : Type} (f : nat -> A -> B) (i : nat) (l : list A)
    : list B :=
  match l with
  | [] => []
  | x :: rest => f i x :: imap f (S i) rest
  end.

(** The slots of the sensors after [get_pos_tof] or [get_far_tof]. *)
Definition mounts (cls : RobotClass) (self : Robot) (g : R -> R)
    (slots : list point) : list point :=
  imap (fun k _ => mount self (nth k (_phi_tof cls) 0)
                     (g (nth k (_t_tof cls) 0)))
    0 (firstn (length (_phi_tof cls)) slots)
  ++ skipn (length (_phi_tof cls)) slots.

(** The number that an intersection function returns; both always return
    one. *)
Definition line_hit (start_line end_line p f : point) : R :=
  match line_line_intersection start_line end_line p f with
  | Ok h => h
  | _ => -1
  end.

Definition circle_hit (pos_obstacle : point) (obstacle_radius : R)
    (p f : point) : R :=
  match circle_line_intersection pos_obstacle obstacle_radius p f with
  | Ok h => h
  | _ => -1
  end.

(** The running minimum of the two queries: [dist] replaces [old] when it
    is positive and smaller. *)
Definition keep_nearer (dist old : R) : R :=
  if Rltb dist old && Rltb 0 dist then dist else old.

(** One pass of a query over the readings: the slot of sensor [k] keeps the
    nearer of what it holds and [probe k]; the slots past the sensors
    stay. *)
Definition sweep (n : nat) (probe : nat -> R) (readings : list R) : list R :=
  imap (fun k old => keep_nearer (probe k) old) 0 (firstn n readings)
  ++ skipn n readings.

(** What sensor [k] of the ring measures against a segment and against a
    circle, and what the two queries make of it. *)
Definition line_probe (cls : RobotClass) (self : Robot)
    (start_line end_line : point) (k : nat) : R :=
  let phi := nth k (_phi_tof cls) 0 in
  let t := nth k (_t_tof cls) 0 in
  line_hit start_line end_line
    (mount self phi t) (mount self phi (t + _rng_tof)) + t.

Definition circle_probe (cls : RobotClass) (self : Robot)
    (pos_obstacle : point) (obstacle_radius : R) (k : nat) : R :=
  let phi := nth k (_phi_tof cls) 0 in
  let t := nth k (_t_tof cls) 0 in
  circle_hit pos_obstacle obstacle_radius
    (mount self phi t) (mount self phi (t + _rng_tof)).

(** The shared lists as [j] constructions leave them. *)
Definition lists_after (j : nat) (cls : RobotClass) : Prop :=
  length (_phi_tof cls) = (_laserbeams * j)%nat /\
  length (_t_tof cls) = (_laserbeams * j)%nat /\
  (2 * length (_v_face cls) = _laserbeams * j * (j + 1))%nat /\
  (2 * length (_pos_tof cls) = _laserbeams * j * (j + 1))%nat /\
  (2 * length (_far_tof cls) = _laserbeams * j * (j + 1))%nat /\
  Forall (fun t => t = _offset_tof) (_t_tof cls) /\
  (forall r i : nat, (r < j)%nat -> (i < _laserbeams)%nat ->
     nth_error (_phi_tof cls) (_laserbeams * r + i)
     = Some (INR i * _angle_inc + _angle_min)).

(** The class as a query leaves it: the facing vectors, the sensor
    positions and the far points of the sensors are those of the pose of
    [self]. *)
Definition refreshed (cls : RobotClass) (self : Robot) : RobotClass :=
  mkRobotClass (_phi_tof cls) (_t_tof cls)
    (facings self (_phi_tof cls)
     ++ skipn (length (_phi_tof cls)) (_v_face cls))
    (mounts cls self (fun t => t) (_pos_tof cls))
    (mounts cls self (fun t => t + _rng_tof) (_far_tof cls)).

(** ** Cells on the way of a beam *)

(** Every [step]-th cell of a list, the first one where [count] is a
    multiple of [step]: what the counter of [bresenham_line] keeps. *)
Fixpoint every (step count : Z) (cells : list (Z * Z)) : list (Z * Z) :=
  match cells with
  | [] => []
  | p :: rest =>
      (if (count mod step =? 0)%Z then [p] else [])
      ++ every step (count + 1) rest
  end.

(** [q] is the next cell after [p] on a way that moves by [sx] in [x], by
    [sy] in [y], or by both. *)
Definition next_cell (sx sy : Z) (p q : Z * Z) : Prop :=
  (fst q = fst p \/ fst q = fst p + sx)%Z /\
  (snd q = snd p \/ snd q = snd p + sy)%Z /\
  q <> p.

Fixpoint way (sx sy : Z) (p : Z * Z) (cells : list (Z * Z)) : Prop :=
  match cells with
  | [] => True
  | q :: rest => next_cell sx sy p q /\ way sx sy q rest
  end.

(** The test of [calculate_lidar_angle] before it reads a cell. *)
Definition tested (m : Surface) (x y : Z) : bool :=
  ((0 <? x) && (x <? get_width m) && (0 <? y) && (y <? get_height m))%Z.

(** * Theorems *)

(** ** Drive kinematics *)

Ltac unfold_matrix :=
  cbv [kinematic_matrix pinv inv3 mmul mat_vec transpose col ncols entry dotp
       hd nth seq map combine fold_right fst snd length
       wheel_rates set_wheel_speed getitem nth_error bind].

Ltac unfold_geometry :=
  unfold rinv, lxly, _wheel_radius, _wheel_base, _track in *.

Lemma kinematic_matrix_values :
  kinematic_matrix =
  [[20; -20; -5]; [-20; -20; -5]; [20; 20; -5]; [-20; 20; -5]].
Proof.
  unfold kinematic_matrix. unfold_geometry.
  repeat (f_equal; try lra).
Qed.

Lemma pinv_values :
  pinv kinematic_matrix =
  [[ 1 / 80; - (1 / 80);  1 / 80; - (1 / 80)];
   [- (1 / 80); - (1 / 80);  1 / 80;  1 / 80];
   [- (1 / 20); - (1 / 20); - (1 / 20); - (1 / 20)]].
Proof.
  rewrite kinematic_matrix_values. unfold_matrix.
  repeat (f_equal; try lra).
Qed.

Lemma shape_3_4_inv (X : matrix) :
  shape 3 4 X ->
  exists a0 a1 a2 a3 b0 b1 b2 b3 c0 c1 c2 c3,
    X = [[a0; a1; a2; a3]; [b0; b1; b2; b3]; [c0; c1; c2; c3]].
Proof.
  intros [Hlen Hrows].
  destruct X as [|ra [|rb [|rc [|? ?]]]]; try discriminate.
  inversion Hrows as [|? ? Ha Hrows1]; subst.
  inversion Hrows1 as [|? ? Hb Hrows2]; subst.
  inversion Hrows2 as [|? ? Hc _]; subst.
  destruct ra as [|a0 [|a1 [|a2 [|a3 [|? ?]]]]]; try discriminate.
  destruct rb as [|b0 [|b1 [|b2 [|b3 [|? ?]]]]]; try discriminate.
  destruct rc as [|c0 [|c1 [|c2 [|c3 [|? ?]]]]]; try discriminate.
  do 12 eexists; reflexivity.
Qed.

(** The pseudo-inverse that [__init__] stores satisfies the Penrose
    equations. *)
Lemma pinv_is_pinv : is_pinv kinematic_matrix (pinv kinematic_matrix).
Proof.
  rewrite pinv_values, kinematic_matrix_values.
  unfold is_pinv, shape. unfold_matrix.
  repeat split; repeat constructor; repeat (f_equal; try lra).
Qed.

(** Any pseudo-inverse of the kinematic matrix is a left inverse: the three
    columns of the matrix are independent. *)
Lemma pinv_left_inverse (X : matrix) :
  is_pinv kinematic_matrix X ->
  mmul X kinematic_matrix = [[1; 0; 0]; [0; 1; 0]; [0; 0; 1]].
Proof.
  intros (Hshape & HAXA & _).
  rewrite kinematic_matrix_values in *.
  cbn [ncols hd length] in Hshape.
  destruct (shape_3_4_inv X Hshape)
    as (a0 & a1 & a2 & a3 & b0 & b1 & b2 & b3 & c0 & c1 & c2 & c3 & ->).
  revert HAXA. unfold_matrix. intros HAXA.
  injection HAXA as E00 E01 E02 E10 E11 E12 E20 E21 E22 E30 E31 E32.
  repeat (f_equal; try lra).
Qed.

(** A row of [X . (T . v)] is the matching row of [X . T] applied to [v]. *)
Ltac combine_rows E0 E1 E2 vx vy omega :=
  match type of E0 with ?A = _ =>
  match type of E1 with ?B = _ =>
  match type of E2 with ?C = _ =>
    transitivity (A * vx + B * vy + C * omega);
    [ring | rewrite E0, E1, E2; ring]
  end end end.

(** Converting a body velocity to wheel rates and back through any
    pseudo-inverse of the kinematic matrix gives the velocity again. *)
Lemma pinv_round_trip (X : matrix) (vx vy omega : R) :
  is_pinv kinematic_matrix X ->
  mat_vec X (mat_vec kinematic_matrix [vx; vy; omega]) = [vx; vy; omega].
Proof.
  intros HX.
  pose proof (pinv_left_inverse X HX) as HI.
  destruct HX as (Hshape & _).
  rewrite kinematic_matrix_values in *.
  cbn [ncols hd length] in Hshape.
  destruct (shape_3_4_inv X Hshape)
    as (a0 & a1 & a2 & a3 & b0 & b1 & b2 & b3 & c0 & c1 & c2 & c3 & ->).
  revert HI. unfold_matrix. intros HI.
  injection HI as E00 E01 E02 E10 E11 E12 E20 E21 E22.
  f_equal; [|f_equal; [|f_equal]].
  - combine_rows E00 E01 E02 vx vy omega.
  - combine_rows E10 E11 E12 vx vy omega.
  - combine_rows E20 E21 E22 vx vy omega.
Qed.

(** C1. For the robot that [__init__] builds (its [_T] is the kinematic
    matrix and its [_Tinv] the Moore-Penrose pseudo-inverse of [_T]), and
    for every body velocity [(vx, vy, omega)]: [set_wheel_speed] applied to
    the wheel rates [_T . (vx, vy, omega)] returns, and stores exactly
    [vx, vy] as velocity and [omega] as angular rate. *)
Theorem wheel_speed_round_trip (self : Robot) (vx vy omega : R) :
  _T self = kinematic_matrix ->
  is_pinv (_T self) (_Tinv self) ->
  exists self',
    set_wheel_speed self (wheel_rates self vx vy omega) = Ok self' /\
    _v self' = (vx, vy) /\ _omega self' = omega.
Proof.
  intros HT HX. rewrite HT in HX.
  pose proof (pinv_round_trip (_Tinv self) vx vy omega HX) as Hrt.
  unfold wheel_rates. rewrite HT.
  unfold set_wheel_speed.
  change (mat_vec kinematic_matrix [vx; vy; omega])
    with [dotp [rinv; - rinv; - lxly] [vx; vy; omega];
          dotp [- rinv; - rinv; - lxly] [vx; vy; omega];
          dotp [rinv; rinv; - lxly] [vx; vy; omega];
          dotp [- rinv; rinv; - lxly] [vx; vy; omega]] in *.
  cbn [getitem nth_error bind].
  rewrite Hrt. cbn [getitem nth_error bind].
  eexists. split; [reflexivity|]. split; reflexivity.
Qed.

Lemma wheel_speed_round_trip_witness :
  let self := snd (__init__ class_body 0 0 0 "robot" 0) in
  exists self',
    set_wheel_speed self (wheel_rates self 1 2 3) = Ok self' /\
    _v self' = (1, 2) /\ _omega self' = 3.
Proof.
  apply wheel_speed_round_trip; [reflexivity | exact pinv_is_pinv].
Defined.

(** The front right row [[-1/r, -1/r, ...]] has two entries of the same
    sign, and in the [vy] column front left and front right are equal. *)
Lemma kinematic_matrix_not_spec_shape :
  ~ Forall spec_row_shape kinematic_matrix /\
  ~ spec_vy_pattern kinematic_matrix.
Proof.
  split.
  - intros H. unfold kinematic_matrix in H.
    inversion H as [|? ? _ H1]; subst.
    inversion H1 as [|? ? (s & Hs & Hrow) _]; subst.
    injection Hrow as E0 E1. unfold_geometry. lra.
  - intros (H & _). revert H. rewrite kinematic_matrix_values.
    cbv [entry nth]. lra.
Qed.

(** C4, as the code has it. With [r] the wheel radius and
    [L = (wheelBase/2 + track/2)/r]: the rows for front left, front right,
    rear left, rear right are [[1/r, -1/r, -L]], [[-1/r, -1/r, -L]],
    [[1/r, 1/r, -L]], [[-1/r, 1/r, -L]]; so every row is
    [[s1/r, s2/r, -L]] with signs [s1], [s2] of its own, in the [vy] column
    the two front wheels have [-1/r] and the two rear wheels [1/r], in the
    [vx] column the two left wheels have [1/r] and the two right wheels
    [-1/r], and the [omega] column is [-L] four times, which is negative. *)
Theorem kinematic_matrix_sign_pattern :
  let r := _wheel_radius in
  let L := (_wheel_base / 2 + _track / 2) / r in
  kinematic_matrix =
    [[1 / r; - (1 / r); - L]; [- (1 / r); - (1 / r); - L];
     [1 / r; 1 / r; - L]; [- (1 / r); 1 / r; - L]] /\
  Forall (fun row => exists s1 s2 : R,
            (s1 = 1 \/ s1 = -1) /\ (s2 = 1 \/ s2 = -1) /\
            row = [s1 * (1 / r); s2 * (1 / r); - L]) kinematic_matrix /\
  (entry kinematic_matrix 0 1 = - (1 / r) /\
   entry kinematic_matrix 1 1 = - (1 / r) /\
   entry kinematic_matrix 2 1 = 1 / r /\
   entry kinematic_matrix 3 1 = 1 / r) /\
  (entry kinematic_matrix 0 0 = 1 / r /\
   entry kinematic_matrix 1 0 = - (1 / r) /\
   entry kinematic_matrix 2 0 = 1 / r /\
   entry kinematic_matrix 3 0 = - (1 / r)) /\
  (forall i : nat, (i < 4)%nat -> entry kinematic_matrix i 2 = - L) /\
  0 < 1 / r /\ - L < 0.
Proof.
  cbv zeta. split; [reflexivity|]. split.
  - unfold kinematic_matrix, rinv, lxly.
    repeat constructor.
    + exists 1, (-1). repeat split; auto. repeat (f_equal; try lra).
    + exists (-1), (-1). repeat split; auto. repeat (f_equal; try lra).
    + exists 1, 1. repeat split; auto. repeat (f_equal; try lra).
    + exists (-1), 1. repeat split; auto. repeat (f_equal; try lra).
  - split; [repeat split|]. split; [repeat split|]. split.
    + intros i Hi.
      destruct i as [|[|[|[|i]]]]; try reflexivity; lia.
    + unfold_geometry. lra.
Qed.

(** ** Pose integration *)

Lemma Rltb_true (a b : R) : a < b -> Rltb a b = true.
Proof. intros H. unfold Rltb. destruct (Rlt_dec a b); [reflexivity | lra]. Qed.

Lemma Rltb_false (a b : R) : b <= a -> Rltb a b = false.
Proof. intros H. unfold Rltb. destruct (Rlt_dec a b); [lra | reflexivity]. Qed.

Lemma Rleb_true (a b : R) : a <= b -> Rleb a b = true.
Proof. intros H. unfold Rleb. destruct (Rle_dec a b); [reflexivity | lra]. Qed.

Lemma Rleb_false (a b : R) : b < a -> Rleb a b = false.
Proof. intros H. unfold Rleb. destruct (Rle_dec a b); [lra | reflexivity]. Qed.

Lemma Reqb_true (a b : R) : a = b -> Reqb a b = true.
Proof.
  intros H. unfold Reqb.
  destruct (Req_dec_T a b); [reflexivity | contradiction].
Qed.

Lemma Reqb_false (a b : R) : a <> b -> Reqb a b = false.
Proof.
  intros H. unfold Reqb.
  destruct (Req_dec_T a b); [contradiction | reflexivity].
Qed.

(** The pose at the end of a pass: the integrated pose, or the initial pose
    when a reset was requested. *)
Lemma trigger_pose (self : Robot) (timestamp : R) :
  _coords (trigger self timestamp) =
    (if _reset self then _initial_coords self
     else _coords (integrate self timestamp)) /\
  _theta (trigger self timestamp) =
    (if _reset self then _initial_theta self
     else _theta (integrate self timestamp)).
Proof.
  unfold trigger, consume_reset.
  replace (_reset (integrate self timestamp)) with (_reset self)
    by (unfold integrate; now destruct (command_check self timestamp)).
  replace (_initial_coords (integrate self timestamp))
    with (_initial_coords self)
    by (unfold integrate; now destruct (command_check self timestamp)).
  replace (_initial_theta (integrate self timestamp))
    with (_initial_theta self)
    by (unfold integrate; now destruct (command_check self timestamp)).
  destruct (_reset self); split; reflexivity.
Qed.

(** What a pass does to the pose, whatever the sign of the elapsed time. *)
Lemma integrate_pose (self : Robot) (timestamp : R) :
  let elapsed := timestamp - _timestamp self in
  let v := fst (command_check self timestamp) in
  let omega := snd (command_check self timestamp) in
  let theta := _theta self + omega * elapsed in
  _theta (integrate self timestamp) = theta /\
  _coords (integrate self timestamp) =
    (fst (_coords self) + (cos theta * fst v - sin theta * snd v) * elapsed,
     snd (_coords self) + (sin theta * fst v + cos theta * snd v) * elapsed) /\
  _v (integrate self timestamp) = v /\
  _omega (integrate self timestamp) = omega.
Proof.
  unfold integrate. destruct (command_check self timestamp) as [v omega].
  cbn. repeat split.
Qed.

(** A robot that was given the velocity [(1, 0, 0)] at time 1 and whose
    next pass reads the clock at 0 is moved one metre backwards. *)
Lemma negative_elapsed_moves_robot :
  let self := callback_twist (snd (__init__ class_body 0 0 0 "robot" 1))
                1 0 0 1 in
  0 - _timestamp self <= 0 /\
  _coords (trigger self 0) = (-1, 0) /\
  _coords (trigger self 0) <> _coords self.
Proof.
  cbv zeta.
  set (self := callback_twist _ _ _ _ _).
  assert (Hc : _coords (trigger self 0) = (-1, 0)).
  { destruct (trigger_pose self 0) as [Hc _]. rewrite Hc.
    change (_reset self) with false. cbv iota.
    clear Hc. destruct (integrate_pose self 0) as (_ & Hc & _). rewrite Hc.
    unfold command_check, self. cbn.
    rewrite Rltb_false by lra. cbn.
    replace (0 + 0 * (0 - 1)) with 0 by ring.
    rewrite cos_0, sin_0. f_equal; ring. }
  split; [cbn; lra|]. split; [exact Hc|].
  rewrite Hc. cbn. intros H. injection H as H. lra.
Qed.

(** C3, as the code has it.  [trigger] has no test on the elapsed time.
    For every robot state with no reset pending, a pass whose elapsed time
    [dt] is negative or zero turns the heading by [omega * dt] and moves
    the position by the rotated velocity times [dt], exactly as for a
    positive [dt], with [v] and [omega] the stored values after the command
    check.  So such a pass with [dt = 0] leaves position and heading as
    they were, for every stored velocity and angular rate, and one with
    [dt < 0] moves the robot against its velocity.  With a reset pending
    the pass ends on the initial pose, whatever [dt] is. *)
Theorem nonpositive_elapsed_is_integrated (self : Robot) (timestamp : R) :
  timestamp - _timestamp self <= 0 ->
  let dt := timestamp - _timestamp self in
  let v := fst (command_check self timestamp) in
  let omega := snd (command_check self timestamp) in
  let theta := _theta self + omega * dt in
  (_reset self = false ->
   _theta (trigger self timestamp) = theta /\
   _coords (trigger self timestamp) =
     (fst (_coords self) + (cos theta * fst v - sin theta * snd v) * dt,
      snd (_coords self) + (sin theta * fst v + cos theta * snd v) * dt) /\
   (dt = 0 ->
    _coords (trigger self timestamp) = _coords self /\
    _theta (trigger self timestamp) = _theta self)) /\
  (_reset self = true ->
   _coords (trigger self timestamp) = _initial_coords self /\
   _theta (trigger self timestamp) = _initial_theta self).
Proof.
  intros _. cbv zeta.
  destruct (integrate_pose self timestamp) as (Ht & Hc & _).
  destruct (trigger_pose self timestamp) as [Hc1 Ht1].
  split.
  - intros Hreset. rewrite Hreset in Hc1, Ht1.
    rewrite Hc1, Ht1, Ht, Hc.
    split; [reflexivity|]. split; [reflexivity|].
    intros Hdt. rewrite Hdt. destruct (_coords self) as [x y]. cbn.
    split; [f_equal; ring | ring].
  - intros Hreset. rewrite Hreset in Hc1, Ht1. split; assumption.
Qed.

Lemma nonpositive_elapsed_is_integrated_witness :
  let self := callback_twist (snd (__init__ class_body 2 3 0 "robot" 1))
                1 0 0 1 in
  _theta (trigger self 0) = 0 /\ _coords (trigger self 0) = (1, 3).
Proof.
  cbv zeta.
  set (self := callback_twist _ _ _ _ _).
  assert (Hdt : 0 - _timestamp self <= 0) by (cbn; lra).
  destruct (nonpositive_elapsed_is_integrated self 0 Hdt) as [Hno _].
  destruct (Hno eq_refl) as (Ht & Hc & _).
  rewrite Ht, Hc. unfold command_check, self. cbn.
  rewrite Rltb_false by lra. cbn.
  replace (0 + 0 * (0 - 1)) with 0 by ring.
  rewrite cos_0, sin_0. split; [reflexivity|]. f_equal; ring.
Defined.

(** A robot that has driven one metre away from where it was
    constructed, with a reset requested and its last command one second
    old: the pass puts it back on the initial position. *)
Lemma stale_reset_moves_robot :
  let self := reset_pose
                (trigger
                   (callback_twist
                      (snd (__init__ class_body 0 0 0 "robot" 0)) 1 0 0 1)
                   1) in
  0.5 < 2 - _last_command self /\
  _reset self = true /\
  _coords self = (1, 0) /\
  _coords (trigger self 2) = (0, 0) /\
  _coords (trigger self 2) <> _coords self.
Proof.
  cbv zeta.
  set (driven := callback_twist _ _ _ _ _).
  assert (Hm : _coords (trigger driven 1) = (1, 0)).
  { destruct (trigger_pose driven 1) as [Hc _]. rewrite Hc.
    change (_reset driven) with false. cbv iota.
    clear Hc. destruct (integrate_pose driven 1) as (_ & Hc & _).
    rewrite Hc. unfold command_check, driven. cbn.
    rewrite Rltb_false by lra. cbn.
    replace (0 + 0 * (1 - 0)) with 0 by ring.
    rewrite cos_0, sin_0. f_equal; ring. }
  assert (Hl : _last_command (reset_pose (trigger driven 1)) = 1).
  { unfold reset_pose, trigger, consume_reset, integrate.
    destruct (command_check _ _) as [v om]. reflexivity. }
  assert (Hi : _initial_coords (reset_pose (trigger driven 1)) = (0, 0)).
  { unfold reset_pose, trigger, consume_reset, integrate.
    destruct (command_check _ _) as [v om]. reflexivity. }
  assert (Ht : _coords (trigger (reset_pose (trigger driven 1)) 2) = (0, 0)).
  { destruct (trigger_pose (reset_pose (trigger driven 1)) 2) as [Hc _].
    rewrite Hc. cbn [reset_pose _reset]. exact Hi. }
  split; [rewrite Hl; lra|].
  split; [reflexivity|].
  split; [exact Hm|]. split; [exact Ht|].
  rewrite Ht.
  change (_coords (reset_pose (trigger driven 1)))
    with (_coords (trigger driven 1)).
  rewrite Hm. intros H. injection H as H. lra.
Qed.

(** C5, as the code has it.  For every robot state whose last command is
    older than 0.5 s, a pass stores the velocity [(0, 0)] and the angular
    rate [0] before it integrates, whatever velocity was stored before.
    With no reset pending the pass leaves position and heading as they
    were; with a reset pending it ends on the initial pose, which need not
    be the pose the robot had. *)
Theorem watchdog_keeps_pose (self : Robot) (timestamp : R) :
  0.5 < timestamp - _last_command self ->
  _v (trigger self timestamp) = (0, 0) /\
  _omega (trigger self timestamp) = 0 /\
  (_reset self = false ->
   _coords (trigger self timestamp) = _coords self /\
   _theta (trigger self timestamp) = _theta self) /\
  (_reset self = true ->
   _coords (trigger self timestamp) = _initial_coords self /\
   _theta (trigger self timestamp) = _initial_theta self).
Proof.
  intros Hold.
  assert (H : _v (integrate self timestamp) = (0, 0) /\
              _omega (integrate self timestamp) = 0 /\
              _coords (integrate self timestamp) = _coords self /\
              _theta (integrate self timestamp) = _theta self).
  { destruct (integrate_pose self timestamp) as (Ht & Hc & Hv & Ho).
    rewrite Ht, Hc, Hv, Ho. unfold command_check.
    rewrite Rltb_true by exact Hold.
    destruct (_coords self) as [x y]. cbn.
    repeat split; try (f_equal; ring); ring. }
  destruct H as (Hv0 & Ho0 & Hc0 & Ht0).
  destruct (trigger_pose self timestamp) as [Hc1 Ht1].
  assert (Hvo : _v (trigger self timestamp) = _v (integrate self timestamp)
                /\ _omega (trigger self timestamp)
                   = _omega (integrate self timestamp)).
  { unfold trigger, consume_reset.
    destruct (_reset (integrate self timestamp)); split; reflexivity. }
  destruct Hvo as [Hv1 Ho1].
  split; [rewrite Hv1; exact Hv0|]. split; [rewrite Ho1; exact Ho0|].
  split; intros Hreset; rewrite Hreset in Hc1, Ht1.
  - rewrite Hc1, Ht1. split; assumption.
  - split; assumption.
Qed.

Lemma watchdog_keeps_pose_witness :
  let self := callback_twist (snd (__init__ class_body 2 3 1 "robot" 0))
                1 1 1 0 in
  _v (trigger self 1) = (0, 0) /\
  _omega (trigger self 1) = 0 /\
  _coords (trigger self 1) = _coords self /\
  _theta (trigger self 1) = _theta self.
Proof.
  cbv zeta.
  set (self := callback_twist _ _ _ _ _).
  assert (Hold : 0.5 < 1 - _last_command self) by (cbn; lra).
  destruct (watchdog_keeps_pose self 1 Hold) as (Hv & Ho & Hno & _).
  destruct (Hno eq_refl) as [Hc Ht].
  repeat split; assumption.
Defined.

(** ** Geometry *)

Lemma pysqrt_ok (x : R) : 0 <= x -> pysqrt x = Ok (sqrt x).
Proof.
  intros H. unfold pysqrt. destruct (Rlt_dec x 0); [lra | reflexivity].
Qed.

Lemma pydiv_ok (a b : R) : b <> 0 -> pydiv a b = Ok (a / b).
Proof.
  intros H. unfold pydiv.
  destruct (Req_dec_T b 0); [contradiction | reflexivity].
Qed.

Lemma sum_squares_nonneg (a b : R) : 0 <= a * a + b * b.
Proof. nra. Qed.

Lemma line_length_ok (p q : point) :
  line_length p q =
  Ok (sqrt ((fst p - fst q) * (fst p - fst q)
            + (snd p - snd q) * (snd p - snd q))).
Proof. unfold line_length. apply pysqrt_ok, sum_squares_nonneg. Qed.

(** The intersection of the two infinite lines: [None] exactly when the
    determinant is zero; it never raises. *)
Lemma intersection_cases (L1 L2 : R * R * R) :
  let '(a1, b1, c1) := L1 in
  let '(a2, b2, c2) := L2 in
  let D := a1 * b2 - b1 * a2 in
  (D = 0 /\ intersection L1 L2 = Ok None) \/
  (D <> 0 /\
   intersection L1 L2 =
     Ok (Some ((c1 * b2 - b1 * c2) / D, (a1 * c2 - c1 * a2) / D))).
Proof.
  destruct L1 as [[a1 b1] c1], L2 as [[a2 b2] c2]. cbv zeta.
  unfold intersection.
  destruct (Req_dec_T (a1 * b2 - b1 * a2) 0) as [HD | HD].
  - left. split; [exact HD|]. now rewrite Reqb_true.
  - right. split; [exact HD|].
    rewrite Reqb_false by exact HD. cbn [negb].
    rewrite !pydiv_ok by exact HD. reflexivity.
Qed.

(** What [line_line_intersection] returns once the two lines meet in [p]. *)
Lemma line_line_intersection_at
    (start_line end_line coords_sensor coords_far p : point) :
  intersection (line start_line end_line) (line coords_sensor coords_far)
    = Ok (Some p) ->
  line_line_intersection start_line end_line coords_sensor coords_far =
    if Rleb 0 (dot1_of p coords_sensor coords_far)
       || Rleb 0 (dot2_of p start_line end_line)
    then Ok (-1)
    else Ok (sqrt ((fst p - fst coords_sensor) * (fst p - fst coords_sensor)
                   + (snd p - snd coords_sensor)
                     * (snd p - snd coords_sensor))).
Proof.
  intros Hi. unfold line_line_intersection. rewrite Hi. cbn [bind].
  rewrite line_length_ok. reflexivity.
Qed.

Lemma negative_dot_apart (p a b : point) :
  dot_product (sub p a) (sub p b) < 0 ->
  0 < (fst p - fst a) * (fst p - fst a) + (snd p - snd a) * (snd p - snd a).
Proof.
  unfold dot_product, sub. cbn [fst snd]. intros H.
  destruct (Req_dec_T (fst p - fst a) 0) as [Hx | Hx];
    destruct (Req_dec_T (snd p - snd a) 0) as [Hy | Hy].
  - rewrite Hx, Hy in H. lra.
  - nra.
  - nra.
  - nra.
Qed.

Lemma line_line_intersection_total
    (start_line end_line coords_sensor coords_far : point) :
  exists d : R,
    line_line_intersection start_line end_line coords_sensor coords_far = Ok d
    /\ (d = -1 \/ 0 < d).
Proof.
  pose proof (intersection_cases (line start_line end_line)
                (line coords_sensor coords_far)) as Hc.
  destruct (line start_line end_line) as [[a1 b1] c1] eqn:E1.
  destruct (line coords_sensor coords_far) as [[a2 b2] c2] eqn:E2.
  cbv zeta in Hc. destruct Hc as [[_ Hi] | [_ Hi]].
  - exists (-1). split; [|now left].
    unfold line_line_intersection. rewrite E1, E2, Hi. reflexivity.
  - set (p := (_ / _, _ / _)) in Hi.
    rewrite <- E1, <- E2 in Hi.
    rewrite (line_line_intersection_at _ _ _ _ _ Hi).
    unfold Rleb.
    destruct (Rle_dec 0 (dot1_of p coords_sensor coords_far)) as [H1 | H1];
      [exists (-1); split; [reflexivity | now left]|].
    destruct (Rle_dec 0 (dot2_of p start_line end_line)) as [H2 | H2];
      [exists (-1); split; [reflexivity | now left]|].
    cbn [orb]. eexists. split; [reflexivity|]. right.
    apply sqrt_lt_R0. apply (negative_dot_apart p coords_sensor coords_far).
    unfold dot1_of in H1. lra.
Qed.

(** The last test of [circle_line_intersection]. *)
Lemma front_test (dist dot : R) :
  exists d : R,
    (if Rltb 0 dist && Rltb 0 dot then Ok dist else Ok (-1)) = Ok d
    /\ (d = -1 \/ 0 < d).
Proof.
  unfold Rltb. destruct (Rlt_dec 0 dist) as [Hd | Hd]; cbn [andb].
  - destruct (Rlt_dec 0 dot); eexists; (split; [reflexivity|]); auto.
  - eexists. split; [reflexivity | now left].
Qed.

(** A positive discriminant rules out a ray of length zero. *)
Lemma positive_lam_dr (r dr det : R) :
  0 < r * r * dr * dr - det * det -> dr * dr <> 0.
Proof. intros H E. assert (0 <= det * det) by nra. nra. Qed.

Lemma circle_line_intersection_total (coords_obstacle : point) (r : R)
    (coords_sensor coords_far : point) :
  exists d : R,
    circle_line_intersection coords_obstacle r coords_sensor coords_far = Ok d
    /\ (d = -1 \/ 0 < d).
Proof.
  unfold circle_line_intersection. cbv zeta.
  rewrite pysqrt_ok by apply sum_squares_nonneg. cbn [bind].
  match goal with
  | |- context [Rltb 0 ?lam] =>
      match lam with
      | _ - _ => unfold Rltb at 1; destruct (Rlt_dec 0 lam) as [Hlam | Hlam]
      end
  end.
  - rewrite pysqrt_ok by lra. cbn [bind].
    rewrite !pydiv_ok by (exact (positive_lam_dr _ _ _ Hlam)). cbn [bind].
    rewrite !line_length_ok. cbn [bind].
    match goal with
    | |- context [if Rltb ?a ?b then _ else _] => destruct (Rltb a b)
    end; cbn [bind]; apply front_test.
  - cbn [bind]. apply front_test.
Qed.

Lemma degenerate_lines_no_hit (p q s f : point) :
  (snd p - snd q) * (fst f - fst s) - (fst q - fst p) * (snd s - snd f) = 0 ->
  line_line_intersection p q s f = Ok (-1).
Proof.
  intros HD. unfold line_line_intersection, line, intersection.
  rewrite Reqb_true by exact HD. reflexivity.
Qed.

Lemma no_crossing_no_hit (c : point) (r : R) (s f : point) :
  let dx := fst f - fst c - (fst s - fst c) in
  let dy := snd f - snd c - (snd s - snd c) in
  let det := (fst s - fst c) * (snd f - snd c)
             - (fst f - fst c) * (snd s - snd c) in
  r * r * (dx * dx + dy * dy) - det * det <= 0 ->
  circle_line_intersection c r s f = Ok (-1).
Proof.
  cbv zeta. intros Hlam. unfold circle_line_intersection. cbv zeta.
  rewrite pysqrt_ok by apply sum_squares_nonneg. cbn [bind].
  rewrite (Rltb_false 0 (_ - _)).
  - cbn [bind]. rewrite (Rltb_false 0 (-1)) by lra. reflexivity.
  - match goal with
    | |- ?a * ?b * sqrt ?q * sqrt ?q - ?d <= 0 =>
        replace (a * b * sqrt q * sqrt q) with (a * b * (sqrt q * sqrt q))
          by ring;
        rewrite (sqrt_sqrt q) by apply sum_squares_nonneg
    end.
    exact Hlam.
Qed.

(** C6. For all arguments, [line_line_intersection] and
    [circle_line_intersection] return (no division by zero, no square root
    of a negative number, no exception), and what they return is either the
    sentinel [-1] or a distance greater than zero.  The degenerate and the
    no-hit arguments all give [-1]: a segment of length zero, a sensor that
    coincides with its far point (for both functions), parallel or coincident
    lines (determinant zero), and a circle that the line does not cross
    (discriminant not positive). *)
Theorem intersections_total_same_sentinel
    (start_line end_line coords_sensor coords_far coords_obstacle : point)
    (r : R) :
  (exists d : R,
     line_line_intersection start_line end_line coords_sensor coords_far
       = Ok d /\ (d = -1 \/ 0 < d)) /\
  (exists d : R,
     circle_line_intersection coords_obstacle r coords_sensor coords_far
       = Ok d /\ (d = -1 \/ 0 < d)) /\
  line_line_intersection start_line start_line coords_sensor coords_far
    = Ok (-1) /\
  line_line_intersection start_line end_line coords_sensor coords_sensor
    = Ok (-1) /\
  circle_line_intersection coords_obstacle r coords_sensor coords_sensor
    = Ok (-1) /\
  ((snd start_line - snd end_line) * (fst coords_far - fst coords_sensor)
   - (fst end_line - fst start_line) * (snd coords_sensor - snd coords_far)
   = 0 ->
   line_line_intersection start_line end_line coords_sensor coords_far
     = Ok (-1)) /\
  (let dx := fst coords_far - fst coords_obstacle
             - (fst coords_sensor - fst coords_obstacle) in
   let dy := snd coords_far - snd coords_obstacle
             - (snd coords_sensor - snd coords_obstacle) in
   let det := (fst coords_sensor - fst coords_obstacle)
              * (snd coords_far - snd coords_obstacle)
              - (fst coords_far - fst coords_obstacle)
                * (snd coords_sensor - snd coords_obstacle) in
   r * r * (dx * dx + dy * dy) - det * det <= 0 ->
   circle_line_intersection coords_obstacle r coords_sensor coords_far
     = Ok (-1)).
Proof.
  split; [apply line_line_intersection_total|].
  split; [apply circle_line_intersection_total|].
  split; [apply degenerate_lines_no_hit; ring|].
  split; [apply degenerate_lines_no_hit; ring|].
  split; [apply no_crossing_no_hit; cbv zeta; nra|].
  split; [apply degenerate_lines_no_hit|].
  apply no_crossing_no_hit.
Qed.

Lemma intersections_total_same_sentinel_witness :
  line_line_intersection (1, 0) (1, 1) (0, 0) (0, 2) = Ok (-1) /\
  circle_line_intersection (0, 3) 1 (0, 0) (2, 0) = Ok (-1).
Proof.
  pose proof (intersections_total_same_sentinel
                (1, 0) (1, 1) (0, 0) (0, 2) (0, 3) 1)
    as (_ & _ & _ & _ & _ & Hpar & _).
  pose proof (intersections_total_same_sentinel
                (1, 0) (1, 1) (0, 0) (2, 0) (0, 3) 1)
    as (_ & _ & _ & _ & _ & _ & Hout).
  split.
  - apply Hpar. cbn [fst snd]. lra.
  - apply Hout. cbn [fst snd]. lra.
Defined.

(** C7. Once the two infinite lines meet in a point [p]: if [p] is an end
    of the segment, the sensor or the far point, [line_line_intersection]
    returns the sentinel [-1]; so it does whenever one of the two dot
    products is zero or positive; and a result other than [-1] is returned
    only when both dot products are negative, and is then the distance from
    the sensor to [p]. *)
Theorem boundary_ties_are_no_hit
    (start_line end_line coords_sensor coords_far p : point) :
  intersection (line start_line end_line) (line coords_sensor coords_far)
    = Ok (Some p) ->
  ((p = start_line \/ p = end_line \/ p = coords_sensor \/ p = coords_far) ->
   line_line_intersection start_line end_line coords_sensor coords_far
     = Ok (-1)) /\
  ((0 <= dot1_of p coords_sensor coords_far
    \/ 0 <= dot2_of p start_line end_line) ->
   line_line_intersection start_line end_line coords_sensor coords_far
     = Ok (-1)) /\
  (forall d : R,
     line_line_intersection start_line end_line coords_sensor coords_far
       = Ok d ->
     d <> -1 ->
     dot1_of p coords_sensor coords_far < 0 /\
     dot2_of p start_line end_line < 0 /\
     d = sqrt ((fst p - fst coords_sensor) * (fst p - fst coords_sensor)
               + (snd p - snd coords_sensor) * (snd p - snd coords_sensor))).
Proof.
  intros Hi. rewrite (line_line_intersection_at _ _ _ _ _ Hi).
  assert (Hdots :
    0 <= dot1_of p coords_sensor coords_far
    \/ 0 <= dot2_of p start_line end_line ->
    (if Rleb 0 (dot1_of p coords_sensor coords_far)
        || Rleb 0 (dot2_of p start_line end_line)
     then Ok (-1)
     else Ok (sqrt ((fst p - fst coords_sensor) * (fst p - fst coords_sensor)
                    + (snd p - snd coords_sensor)
                      * (snd p - snd coords_sensor)))) = Ok (-1)).
  { intros [H | H].
    - now rewrite (Rleb_true _ _ H).
    - rewrite (Rleb_true _ _ H). now rewrite orb_true_r. }
  split; [|split].
  - intros Htie. apply Hdots.
    unfold dot1_of, dot2_of, dot_product, sub.
    destruct Htie as [-> | [-> | [-> | ->]]]; cbn [fst snd];
      [right | right | left | left]; apply Req_le; ring.
  - exact Hdots.
  - intros d Hd Hne.
    destruct (Rle_dec 0 (dot1_of p coords_sensor coords_far)) as [H1 | H1].
    { rewrite Hdots in Hd by now left. congruence. }
    destruct (Rle_dec 0 (dot2_of p start_line end_line)) as [H2 | H2].
    { rewrite Hdots in Hd by now right. congruence. }
    rewrite !Rleb_false in Hd by lra. cbn [orb] in Hd.
    injection Hd as <-. repeat split; lra.
Qed.

Lemma boundary_ties_are_no_hit_witness :
  intersection (line (1, 0) (1, 1)) (line (0, 0) (2, 0)) = Ok (Some (1, 0)) /\
  line_line_intersection (1, 0) (1, 1) (0, 0) (2, 0) = Ok (-1).
Proof.
  assert (Hi : intersection (line (1, 0) (1, 1)) (line (0, 0) (2, 0))
               = Ok (Some (1, 0))).
  { unfold line, intersection. cbn [fst snd].
    rewrite Reqb_false by lra. cbn [negb].
    rewrite !pydiv_ok by lra. cbn [bind].
    do 2 f_equal. f_equal; field. }
  split; [exact Hi|].
  exact (proj1 (boundary_ties_are_no_hit (1, 0) (1, 1) (0, 0) (2, 0) (1, 0) Hi)
           (or_introl eq_refl)).
Defined.

(** [circle_line_intersection] evaluated step by step, once the
    discriminant is positive: each hypothesis names the value of one
    intermediate result of the source. *)
Lemma circle_line_intersection_eval (c : point) (r : R) (s f : point)
    (dr sq i1x i1y i2x i2y dist1 dist2 : R) :
  let x1c := fst s - fst c in
  let y1c := snd s - snd c in
  let x2c := fst f - fst c in
  let y2c := snd f - snd c in
  let dx := x2c - x1c in
  let dy := y2c - y1c in
  let det := x1c * y2c - x2c * y1c in
  let sgn := if Rltb dy 0 then -1 else 1 in
  let lam := r * r * dr * dr - det * det in
  sqrt (dx * dx + dy * dy) = dr ->
  0 < lam ->
  sqrt lam = sq ->
  (det * dy + sgn * dx * sq) / (dr * dr) = i1x ->
  (- det * dx + Rabs dy * sq) / (dr * dr) = i1y ->
  (det * dy - sgn * dx * sq) / (dr * dr) = i2x ->
  (- det * dx - Rabs dy * sq) / (dr * dr) = i2y ->
  sqrt ((i1x + fst c - fst s) * (i1x + fst c - fst s)
        + (i1y + snd c - snd s) * (i1y + snd c - snd s)) = dist1 ->
  sqrt ((i2x + fst c - fst s) * (i2x + fst c - fst s)
        + (i2y + snd c - snd s) * (i2y + snd c - snd s)) = dist2 ->
  circle_line_intersection c r s f =
    let '(dist, v_hit) :=
      if Rltb dist1 dist2
      then (dist1, (i1x + fst c - fst s, i1y + snd c - snd s))
      else (dist2, (i2x + fst c - fst s, i2y + snd c - snd s)) in
    let dot := (fst f - fst s) * fst v_hit + (snd f - snd s) * snd v_hit in
    if Rltb 0 dist && Rltb 0 dot then Ok dist else Ok (-1).
Proof.
  cbv zeta. intros Hdr Hlam Hsq H1x H1y H2x H2y Hd1 Hd2.
  unfold circle_line_intersection. cbv zeta.
  rewrite pysqrt_ok by apply sum_squares_nonneg. cbn [bind]. rewrite Hdr.
  rewrite (Rltb_true 0 _ Hlam).
  rewrite pysqrt_ok by lra. cbn [bind]. rewrite Hsq.
  rewrite !pydiv_ok by (exact (positive_lam_dr _ _ _ Hlam)). cbn [bind].
  rewrite H1x, H1y, H2x, H2y.
  rewrite !line_length_ok. cbn [bind fst snd].
  rewrite Hd1, Hd2.
  destruct (Rltb dist1 dist2); reflexivity.
Qed.

Lemma sqrt_of_square (a b : R) : 0 <= b -> a = b * b -> sqrt a = b.
Proof. intros Hb ->. apply sqrt_square, Hb. Qed.

(** C8. For every circle of radius [r > 0] around [coords_obstacle] and
    every sensor strictly outside it, at distance [d > r] from the centre:
    when the far point lies on the ray from the sensor through the centre
    ([coords_far = coords_sensor + t (coords_obstacle - coords_sensor)] with
    [t > 0], which covers every far point beyond the circle),
    [circle_line_intersection] returns [d - r], whichever of the two signs
    the source picks for [sgn]. *)
Theorem circle_hit_through_center (coords_obstacle coords_sensor : point)
    (r t : R) :
  let d := sqrt ((fst coords_sensor - fst coords_obstacle)
                 * (fst coords_sensor - fst coords_obstacle)
                 + (snd coords_sensor - snd coords_obstacle)
                   * (snd coords_sensor - snd coords_obstacle)) in
  let coords_far :=
    (fst coords_sensor + t * (fst coords_obstacle - fst coords_sensor),
     snd coords_sensor + t * (snd coords_obstacle - snd coords_sensor)) in
  0 < r -> r < d -> 0 < t ->
  circle_line_intersection coords_obstacle r coords_sensor coords_far
    = Ok (d - r).
Proof.
  destruct coords_obstacle as [cx cy], coords_sensor as [sx sy].
  intros d far Hr Hd Ht. cbn [fst snd] in *.
  set (X := sx - cx) in *. set (Y := sy - cy) in *.
  assert (Hdd : d * d = X * X + Y * Y)
    by (subst d; apply sqrt_sqrt, sum_squares_nonneg).
  assert (Hd0 : 0 < d) by lra.
  clearbody d.
  assert (Hnear : forall u v : R,
            u = X * (r / d - 1) -> v = Y * (r / d - 1) ->
            sqrt (u * u + v * v) = d - r).
  { intros u v -> ->. apply sqrt_of_square; [lra|].
    transitivity ((X * X + Y * Y) * ((r / d - 1) * (r / d - 1))); [ring|].
    rewrite <- Hdd. field. lra. }
  assert (Hfar : forall u v : R,
            u = - X * (r / d + 1) -> v = - Y * (r / d + 1) ->
            sqrt (u * u + v * v) = d + r).
  { intros u v -> ->. apply sqrt_of_square; [lra|].
    transitivity ((X * X + Y * Y) * ((r / d + 1) * (r / d + 1))); [ring|].
    rewrite <- Hdd. field. lra. }
  assert (Hdot : 0 < (t * (cx - sx)) * (X * (r / d - 1))
                     + (t * (cy - sy)) * (Y * (r / d - 1))).
  { replace (t * (cx - sx) * (X * (r / d - 1))
             + t * (cy - sy) * (Y * (r / d - 1)))
      with (t * (X * X + Y * Y) * (1 - r / d)) by (unfold X, Y; ring).
    rewrite <- Hdd.
    replace (t * (d * d) * (1 - r / d)) with (t * d * (d - r))
      by (field; lra).
    apply Rmult_lt_0_compat; [apply Rmult_lt_0_compat|]; lra. }
  assert (Htd : 0 < t * d) by (apply Rmult_lt_0_compat; lra).
  assert (Hrtd : 0 < r * t * d)
    by (apply Rmult_lt_0_compat; [apply Rmult_lt_0_compat|]; lra).
  assert (Hdy : sy + t * (cy - sy) - cy - Y = - (t * Y))
    by (unfold Y; ring).
  assert (HtY : 0 < Y -> 0 < t * Y)
    by (intros; apply Rmult_lt_0_compat; lra).
  assert (HtY' : ~ 0 < Y -> 0 <= - (t * Y)) by (intros; nra).
  destruct (Rlt_dec 0 Y) as [HY | HY];
    [ rewrite (circle_line_intersection_eval (cx, cy) r (sx, sy) far
                 (t * d) (r * t * d)
                 (X * r / d) (Y * r / d) (- X * r / d) (- Y * r / d)
                 (d - r) (d + r))
    | rewrite (circle_line_intersection_eval (cx, cy) r (sx, sy) far
                 (t * d) (r * t * d)
                 (- X * r / d) (- Y * r / d) (X * r / d) (Y * r / d)
                 (d + r) (d - r)) ];
    cbn [fst snd far]; fold X; fold Y; try rewrite !Hdy;
    try (rewrite (Rltb_true (- (t * Y)) 0) by (specialize (HtY HY); lra));
    try (rewrite (Rabs_left (- (t * Y))) by (specialize (HtY HY); lra));
    try (rewrite (Rltb_false (- (t * Y)) 0) by (exact (HtY' HY)));
    try (rewrite (Rabs_right (- (t * Y)))
           by (apply Rle_ge; exact (HtY' HY))).
  (* 0 < Y: the first candidate is the near one *)
  - rewrite (Rltb_true (d - r) (d + r)) by lra.
    rewrite (Rltb_true 0 (d - r)) by lra.
    rewrite Rltb_true; [reflexivity|].
    cbn [fst snd].
    eapply Rlt_le_trans; [exact Hdot|].
    apply Req_le. unfold X, Y. field. lra.
  - apply sqrt_of_square; [lra|].
    transitivity (t * t * (X * X + Y * Y)); [unfold X, Y; ring|].
    rewrite <- Hdd. ring.
  - replace (X * (sy + t * (cy - sy) - cy) - (sx + t * (cx - sx) - cx) * Y)
      with 0 by (unfold X, Y; ring).
    nra.
  - apply sqrt_of_square; [lra|]. unfold X, Y. ring.
  - unfold X, Y. field. lra.
  - unfold X, Y. field. lra.
  - unfold X, Y. field. lra.
  - unfold X, Y. field. lra.
  - apply Hnear; unfold X, Y; field; lra.
  - apply Hfar; unfold X, Y; field; lra.
  (* Y <= 0: the second candidate is the near one *)
  - rewrite (Rltb_false (d + r) (d - r)) by lra.
    rewrite (Rltb_true 0 (d - r)) by lra.
    rewrite Rltb_true; [reflexivity|].
    cbn [fst snd].
    eapply Rlt_le_trans; [exact Hdot|].
    apply Req_le. unfold X, Y. field. lra.
  - apply sqrt_of_square; [lra|].
    transitivity (t * t * (X * X + Y * Y)); [unfold X, Y; ring|].
    rewrite <- Hdd. ring.
  - replace (X * (sy + t * (cy - sy) - cy) - (sx + t * (cx - sx) - cx) * Y)
      with 0 by (unfold X, Y; ring).
    nra.
  - apply sqrt_of_square; [lra|]. unfold X, Y. ring.
  - unfold X, Y. field. lra.
  - unfold X, Y. field. lra.
  - unfold X, Y. field. lra.
  - unfold X, Y. field. lra.
  - apply Hfar; unfold X, Y; field; lra.
  - apply Hnear; unfold X, Y; field; lra.
Qed.

Lemma circle_hit_through_center_witness :
  circle_line_intersection (0, 0) 1 (2, 0) (-2, 0) = Ok 1.
Proof.
  pose proof (circle_hit_through_center (0, 0) (2, 0) 1 2) as H.
  cbn [fst snd] in H.
  replace (2 + 2 * (0 - 2)) with (-2) in H by lra.
  replace (0 + 2 * (0 - 0)) with 0 in H by lra.
  replace (sqrt ((2 - 0) * (2 - 0) + (0 - 0) * (0 - 0))) with 2 in H
    by (symmetry; apply sqrt_of_square; lra).
  replace (2 - 1) with 1 in H by lra.
  apply H; lra.
Defined.

(** ** The ring of ToF sensors *)

(** A horizontal ray that crosses a vertical segment hits it at the
    distance between the sensor and the segment. *)
Lemma vertical_segment_hit (x1 y1 y2 px py fx fy : R) :
  py = fy -> px < x1 -> x1 < fx -> (y1 - py) * (y2 - py) < 0 ->
  line_line_intersection (x1, y1) (x1, y2) (px, py) (fx, fy) = Ok (x1 - px).
Proof.
  intros <- Hp Hf Hy.
  assert (Hne : y1 - y2 <> 0).
  { intros E. assert (E' : y1 = y2) by lra. rewrite E' in Hy.
    pose proof (Rle_0_sqr (y2 - py)) as Hsq. unfold Rsqr in Hsq. lra. }
  assert (Hi : intersection (line (x1, y1) (x1, y2)) (line (px, py) (fx, py))
               = Ok (Some (x1, py))).
  { unfold line, intersection. cbn [fst snd].
    rewrite Reqb_false by (intros E; apply Hne; nra). cbn [negb].
    rewrite !pydiv_ok by (intros E; apply Hne; nra). cbn [bind].
    do 2 f_equal. f_equal; field; intros E; apply Hne; nra. }
  rewrite (line_line_intersection_at _ _ _ _ _ Hi).
  unfold dot1_of, dot2_of, dot_product, sub. cbn [fst snd].
  rewrite !Rleb_false by nra. cbn [orb].
  f_equal. apply sqrt_of_square; [lra | ring].
Qed.

(** One query of a ring of a single sensor that faces 0 rad, with mount
    offset [t0], on a robot with heading 0: the sensor sits at
    [(x + t0, y)], its far point at [(x + t0 + _rng_tof, y)], and the slot
    receives the hit distance plus the mount offset when that is positive
    and below what the slot holds. *)
Lemma single_sensor_line_query (cls : RobotClass) (self : Robot)
    (x y t0 hit seed : R) (start_line end_line vf pp ff : point)
    (dist_to_obstacles : list R) :
  _phi_tof cls = [0] -> _t_tof cls = [t0] ->
  _v_face cls = [vf] -> _pos_tof cls = [pp] -> _far_tof cls = [ff] ->
  _theta self = 0 -> _coords self = (x, y) ->
  pad_distances cls dist_to_obstacles = [seed] ->
  line_line_intersection start_line end_line
    (x + 1 * t0, y + 0 * t0) (x + 1 * (t0 + _rng_tof), y + 0 * (t0 + _rng_tof))
    = Ok hit ->
  get_distance_to_line_obstacle cls self start_line end_line
    dist_to_obstacles =
    Ok (mkRobotClass [0] [t0] [(1, 0)]
          [(x + 1 * t0, y + 0 * t0)]
          [(x + 1 * (t0 + _rng_tof), y + 0 * (t0 + _rng_tof))],
        [if Rltb (hit + t0) seed && Rltb 0 (hit + t0)
         then hit + t0 else seed]).
Proof.
  intros Hphi Ht Hvf Hpp Hff Hth Hco Hpad Hhit.
  unfold get_distance_to_line_obstacle. rewrite Hpad. clear Hpad.
  destruct cls as [phi t vfl pl fl].
  cbn [_phi_tof _t_tof _v_face _pos_tof _far_tof] in *. subst.
  assert (Hc : cos (0 + 0) * 1 - sin (0 + 0) * 0 = 1)
    by (rewrite Rplus_0_l, cos_0, sin_0; ring).
  assert (Hs : sin (0 + 0) * 1 + cos (0 + 0) * 0 = 0)
    by (rewrite Rplus_0_l, cos_0, sin_0; ring).
  unfold get_pos_tof, get_far_tof, get_facing_tof,
    with_v_face, with_pos_tof, with_far_tof.
  cbn [_phi_tof _t_tof _v_face _pos_tof _far_tof length
       facing_loop setitem bind for_range getitem nth_error fst snd].
  rewrite Hth, Hco.
  cbn [_phi_tof _t_tof _v_face _pos_tof _far_tof length
       facing_loop setitem bind for_range getitem nth_error fst snd].
  rewrite !Hc, !Hs, Hhit.
  cbn [bind].
  destruct (Rltb (hit + t0) seed && Rltb 0 (hit + t0)); reflexivity.
Qed.

(** C2, as the code has it. A ring of a single sensor that faces 0 rad with
    mount offset 0.2 m, on a robot at [(x, y)] with heading 0, and a vertical
    segment 1 m ahead of the robot centre that crosses the ray: the sensor
    itself is 0.8 m from the segment, and the query for line obstacles
    reports 1 m, the 0.8 m from the sensor plus the mount offset, which is
    the distance from the robot centre.  It does so on an empty list of
    distances, on a list seeded with the sensor range, and on any seed
    above 1 m. *)
Theorem line_obstacle_distance_from_centre (cls : RobotClass) (self : Robot)
    (x y y1 y2 : R) (vf pp ff : point) :
  _phi_tof cls = [0] -> _t_tof cls = [0.2] ->
  _v_face cls = [vf] -> _pos_tof cls = [pp] -> _far_tof cls = [ff] ->
  _theta self = 0 -> _coords self = (x, y) ->
  (y1 - y) * (y2 - y) < 0 ->
  line_line_intersection (x + 1, y1) (x + 1, y2)
    (x + 0.2, y) (x + 0.2 + _rng_tof, y) = Ok 0.8 /\
  (exists cls',
     get_distance_to_line_obstacle cls self (x + 1, y1) (x + 1, y2) []
       = Ok (cls', [1])) /\
  (forall seed : R, 1 < seed ->
     exists cls',
       get_distance_to_line_obstacle cls self (x + 1, y1) (x + 1, y2) [seed]
         = Ok (cls', [1])).
Proof.
  intros Hphi Ht Hvf Hpp Hff Hth Hco Hy.
  assert (Hq : forall (seed : R) (dists : list R),
            1 < seed -> pad_distances cls dists = [seed] ->
            exists cls',
              get_distance_to_line_obstacle cls self (x + 1, y1) (x + 1, y2)
                dists = Ok (cls', [1])).
  { intros seed dists Hseed Hpad. eexists.
    rewrite (single_sensor_line_query cls self x y 0.2
               (x + 1 - (x + 1 * 0.2)) seed _ _ vf pp ff dists
               Hphi Ht Hvf Hpp Hff Hth Hco Hpad).
    - rewrite !Rltb_true by lra. cbn [andb]. do 3 f_equal. lra.
    - apply vertical_segment_hit; unfold _rng_tof; lra. }
  split; [|split].
  - rewrite vertical_segment_hit; unfold _rng_tof; try lra.
    f_equal. lra.
  - apply (Hq _rng_tof); [unfold _rng_tof; lra|].
    unfold pad_distances. rewrite Hphi. reflexivity.
  - intros seed Hseed. apply (Hq seed); [exact Hseed|].
    unfold pad_distances. rewrite Hphi. reflexivity.
Qed.

Lemma line_obstacle_distance_from_centre_witness :
  let cls := mkRobotClass [0] [0.2] [(0, 0)] [(0, 0)] [(0, 0)] in
  let self := snd (__init__ class_body 2 3 0 "robot" 0) in
  line_line_intersection (2 + 1, 1) (2 + 1, 4)
    (2 + 0.2, 3) (2 + 0.2 + _rng_tof, 3) = Ok 0.8 /\
  (exists cls',
     get_distance_to_line_obstacle cls self (2 + 1, 1) (2 + 1, 4) []
       = Ok (cls', [1])) /\
  (forall seed : R, 1 < seed ->
     exists cls',
       get_distance_to_line_obstacle cls self (2 + 1, 1) (2 + 1, 4) [seed]
         = Ok (cls', [1])).
Proof.
  cbv zeta.
  apply (line_obstacle_distance_from_centre _ _ 2 3 1 4 (0, 0) (0, 0) (0, 0));
    try reflexivity.
  lra.
Defined.

(** The single sensor of the scenario, robot at the origin, segment from
    [(1, -1)] to [(1, 1)]: the query reports 1, not 0.8. *)
Lemma single_tof_reports_one_metre :
  let cls := mkRobotClass [0] [0.2] [(0, 0)] [(0, 0)] [(0, 0)] in
  let self := snd (__init__ class_body 0 0 0 "robot" 0) in
  (exists cls',
     get_distance_to_line_obstacle cls self (1, -1) (1, 1) []
       = Ok (cls', [1])) /\
  (forall cls',
     get_distance_to_line_obstacle cls self (1, -1) (1, 1) []
       <> Ok (cls', [0.8])).
Proof.
  cbv zeta.
  assert (H : exists cls',
            get_distance_to_line_obstacle
              (mkRobotClass [0] [0.2] [(0, 0)] [(0, 0)] [(0, 0)])
              (snd (__init__ class_body 0 0 0 "robot" 0)) (1, -1) (1, 1) []
            = Ok (cls', [1])).
  { eexists.
    rewrite (single_sensor_line_query _ _ 0 0 0.2 (1 - (0 + 1 * 0.2))
               _rng_tof _ _ (0, 0) (0, 0) (0, 0)); try reflexivity.
    - rewrite !Rltb_true by (unfold _rng_tof; lra). cbn [andb].
      do 3 f_equal. lra.
    - apply vertical_segment_hit; unfold _rng_tof; lra. }
  split; [exact H|].
  destruct H as [cls1 H]. intros cls' H'. rewrite H in H'.
  injection H' as _ H'. lra.
Qed.

(** ** Construction and the shared lists *)

Lemma append_beams_length (n i : nat) (phi t : list R) :
  length (fst (append_beams n i phi t)) = (length phi + n)%nat.
Proof.
  revert i phi t. induction n as [|n IH]; intros i phi t; cbn [append_beams].
  - cbn. lia.
  - rewrite IH, length_app. cbn. lia.
Qed.

Lemma init_tof_count (cls : RobotClass) (x y theta : R) (name : string)
    (now : R) :
  length (_phi_tof (fst (__init__ cls x y theta name now)))
  = (length (_phi_tof cls) + 271)%nat.
Proof. unfold __init__. cbn [fst _phi_tof]. apply append_beams_length. Qed.

Lemma construct_all_count (args : list (R * R * R * string * R))
    (cls : RobotClass) :
  length (_phi_tof (fst (construct_all cls args)))
  = (length (_phi_tof cls) + length args * 271)%nat /\
  length (snd (construct_all cls args)) = length args.
Proof.
  revert cls. induction args as [|[[[[x y] theta] name] now] args IH];
    intros cls; cbn [construct_all].
  - cbn. lia.
  - destruct (IH (fst (__init__ cls x y theta name now))) as [IH1 IH2].
    cbn [fst snd length]. rewrite IH1, IH2, init_tof_count. lia.
Qed.

(** ** The laser scanner *)

(** The loop of [bresenham_line] leaves: with [rx] and [ry] the steps still
    to go in [x] and in [y], the error term keeps the value
    [dx - dy + rx * dy - ry * dx], a step in [x] is only taken while
    [rx > 0], a step in [y] only while [ry > 0], and every pass that does not
    leave takes at least one of them. *)
Lemma bresenham_loop_returns (fuel : nat) :
  forall (x1 y1 dx dy sx sy step x0 y0 err count rx ry : Z)
         (points : list (Z * Z)),
    step <> 0%Z ->
    (sx = 1 \/ sx = -1)%Z -> (sy = 1 \/ sy = -1)%Z ->
    (0 <= rx <= dx)%Z -> (0 <= ry <= dy)%Z ->
    (x0 = x1 - sx * rx)%Z -> (y0 = y1 - sy * ry)%Z ->
    (err = dx - dy + rx * dy - ry * dx)%Z ->
    (Z.to_nat (rx + ry) < fuel)%nat ->
    exists pts : list (Z * Z),
      bresenham_loop fuel x1 y1 dx dy sx sy step x0 y0 err count points
      = Ok pts.
Proof.
  induction fuel as [|fuel IH];
    intros x1 y1 dx dy sx sy step x0 y0 err count rx ry points
           Hstep Hsx Hsy Hrx Hry Hx0 Hy0 Herr Hfuel; [lia|].
  cbn [bresenham_loop]. unfold pymod.
  destruct (Z.eqb_spec step 0) as [|_]; [contradiction|]. cbn [bind].
  destruct (Z.eqb_spec x0 x1) as [Ex | Ex];
    destruct (Z.eqb_spec y0 y1) as [Ey | Ey]; cbn [andb];
    try (eexists; reflexivity).
  - (* x has arrived, y has not *)
    assert (rx = 0)%Z by nia. assert (0 < ry)%Z by nia. subst rx.
    destruct (Z.gtb_spec (err * 2) (- dy)) as [Hgt | Hgt]; [nia|].
    destruct (Z.ltb_spec (err * 2) dx) as [Hlt | Hlt]; [|nia].
    apply (IH _ _ _ _ _ _ _ _ _ _ _ 0%Z (ry - 1)%Z); try assumption; nia.
  - (* y has arrived, x has not *)
    assert (ry = 0)%Z by nia. assert (0 < rx)%Z by nia. subst ry.
    destruct (Z.gtb_spec (err * 2) (- dy)) as [Hgt | Hgt]; [|nia].
    destruct (Z.ltb_spec (err * 2 ) dx) as [Hlt | Hlt]; [nia|].
    apply (IH _ _ _ _ _ _ _ _ _ _ _ (rx - 1)%Z 0%Z); try assumption; nia.
  - (* neither has arrived *)
    assert (0 < rx)%Z by nia. assert (0 < ry)%Z by nia.
    destruct (Z.gtb_spec (err * 2) (- dy)) as [Hgt | Hgt];
      destruct (Z.ltb_spec (err * 2) dx) as [Hlt | Hlt].
    + apply (IH _ _ _ _ _ _ _ _ _ _ _ (rx - 1)%Z (ry - 1)%Z);
        try assumption; nia.
    + apply (IH _ _ _ _ _ _ _ _ _ _ _ (rx - 1)%Z ry); try assumption; nia.
    + apply (IH _ _ _ _ _ _ _ _ _ _ _ rx (ry - 1)%Z); try assumption; nia.
    + nia.
Qed.

Lemma bresenham_line_returns (x0 y0 x1 y1 step : Z) :
  step <> 0%Z ->
  exists pts : list (Z * Z), bresenham_line x0 y0 x1 y1 step = Ok pts.
Proof.
  intros Hstep. unfold bresenham_line.
  apply (bresenham_loop_returns _ _ _ _ _ _ _ _ _ _ _ _
           (Z.abs (x1 - x0)) (Z.abs (y1 - y0))); try assumption.
  - destruct (x0 <? x1)%Z; auto.
  - destruct (y0 <? y1)%Z; auto.
  - lia.
  - lia.
  - destruct (Z.ltb_spec x0 x1); lia.
  - destruct (Z.ltb_spec y0 y1); lia.
  - ring.
  - lia.
Qed.

Lemma tint_is_no_obstacle : is_obstacle tint = false.
Proof. reflexivity. Qed.

Lemma tinted_refl (m : Surface) : tinted m m.
Proof. repeat split. intros x y. now left. Qed.

Lemma tinted_trans (m1 m2 m3 : Surface) :
  tinted m1 m2 -> tinted m2 m3 -> tinted m1 m3.
Proof.
  intros (Hw1 & Hh1 & H1) (Hw2 & Hh2 & H2).
  split; [congruence|]. split; [congruence|].
  intros x y.
  destruct (H2 x y) as [E2 | [N2 E2]]; destruct (H1 x y) as [E1 | [N1 E1]].
  - left. congruence.
  - right. split; [exact N1 | congruence].
  - right. split; [congruence | exact E2].
  - right. split; [exact N1 | exact E2].
Qed.

Lemma tinted_same_obstacles (m m' : Surface) :
  tinted m m' -> same_obstacles m m'.
Proof.
  intros (Hw & Hh & H). split; [congruence|]. split; [congruence|].
  intros x y. destruct (H x y) as [E | [N E]].
  - now rewrite E.
  - rewrite E, N. reflexivity.
Qed.

Lemma same_obstacles_sym (m1 m2 : Surface) :
  same_obstacles m1 m2 -> same_obstacles m2 m1.
Proof. intros (Hw & Hh & H). repeat split; auto. Qed.

Lemma same_obstacles_trans (m1 m2 m3 : Surface) :
  same_obstacles m1 m2 -> same_obstacles m2 m3 -> same_obstacles m1 m3.
Proof.
  intros (Hw1 & Hh1 & H1) (Hw2 & Hh2 & H2).
  split; [congruence|]. split; [congruence|].
  intros x y. now rewrite H1.
Qed.

Lemma set_at_tinted (m : Surface) (x y : Z) :
  is_obstacle (pixel m x y) = false -> tinted m (set_at m x y tint).
Proof.
  intros Hfree. unfold set_at.
  destruct (inside m x y); [|apply tinted_refl].
  split; [reflexivity|]. split; [reflexivity|].
  intros x' y'. cbn [pixel].
  destruct (Z.eqb_spec x' x) as [-> | Hx];
    destruct (Z.eqb_spec y' y) as [-> | Hy]; cbn [andb]; auto.
Qed.

Lemma set_at_same_obstacles (m1 m2 : Surface) (x y : Z) (c : color) :
  same_obstacles m1 m2 ->
  same_obstacles (set_at m1 x y c) (set_at m2 x y c).
Proof.
  intros (Hw & Hh & H). unfold set_at, inside. rewrite Hw, Hh.
  destruct ((0 <=? x) && (x <? get_width m2) && (0 <=? y)
            && (y <? get_height m2))%Z.
  - split; [reflexivity|]. split; [reflexivity|].
    intros x' y'. cbn [pixel].
    destruct ((x' =? x) && (y' =? y))%Z; [reflexivity | apply H].
  - repeat split; assumption.
Qed.

Create HintDb surfaces.
#[local] Hint Resolve tinted_refl tinted_trans tinted_same_obstacles
  same_obstacles_sym same_obstacles_trans set_at_tinted
  set_at_same_obstacles : surfaces.

(** A point that passes the test of [calculate_lidar_angle] can be read. *)
Lemma get_at_tested (m : Surface) (x y : Z) :
  ((0 <? x) && (x <? get_width m) && (0 <? y) && (y <? get_height m))%Z
    = true ->
  get_at m x y = Ok (pixel m x y).
Proof.
  intros H. unfold get_at, inside.
  apply andb_prop in H as [H Hh]. apply andb_prop in H as [H Hy].
  apply andb_prop in H as [Hx Hw].
  apply Z.ltb_lt in Hx, Hw, Hy, Hh.
  replace (0 <=? x)%Z with true by (symmetry; apply Z.leb_le; lia).
  replace (0 <=? y)%Z with true by (symmetry; apply Z.leb_le; lia).
  replace (x <? get_width m)%Z with true by (symmetry; apply Z.ltb_lt; lia).
  replace (y <? get_height m)%Z with true by (symmetry; apply Z.ltb_lt; lia).
  reflexivity.
Qed.

(** The walk along a beam on two surfaces with the same obstacles: both
    walks return, with the same distance, and each leaves its surface
    tinted. *)
Lemma beam_walk_same (points_on_line : list (Z * Z)) (r_x r_y : R)
    (meter_to_pixel distance : R) :
  meter_to_pixel <> 0 ->
  forall m1 m2 : Surface,
    same_obstacles m1 m2 ->
    exists (d : R) (m1' m2' : Surface),
      beam_walk points_on_line r_x r_y m1 meter_to_pixel distance
        = Ok (d, m1') /\
      beam_walk points_on_line r_x r_y m2 meter_to_pixel distance
        = Ok (d, m2') /\
      tinted m1 m1' /\ tinted m2 m2'.
Proof.
  intros Hm. induction points_on_line as [|[x y] rest IH]; intros m1 m2 Hsame.
  - exists distance, m1, m2. cbn [beam_walk]. auto with surfaces.
  - cbn [beam_walk]. destruct Hsame as (Hw & Hh & Hobs).
    rewrite Hw, Hh.
    destruct ((0 <? x) && (x <? get_width m2) && (0 <? y)
              && (y <? get_height m2))%Z eqn:Htest.
    + assert (Htest1 := Htest). rewrite <- Hw, <- Hh in Htest1.
      rewrite (get_at_tested m1 x y Htest1), (get_at_tested m2 x y Htest).
      cbn [bind]. rewrite <- Hobs.
      destruct (is_obstacle (pixel m1 x y)) eqn:Hcell.
      * rewrite pysqrt_ok
          by (apply Rplus_le_le_0_compat; apply pow2_ge_0).
        cbn [bind]. rewrite pydiv_ok by exact Hm. cbn [bind].
        do 3 eexists. split; [reflexivity|]. auto with surfaces.
      * destruct (IH (set_at m1 x y tint) (set_at m2 x y tint))
          as (d & m1' & m2' & E1 & E2 & T1 & T2).
        { apply set_at_same_obstacles. repeat split; assumption. }
        assert (Hcell2 : is_obstacle (pixel m2 x y) = false)
          by (rewrite <- Hobs; exact Hcell).
        exists d, m1', m2'.
        split; [exact E1|]. split; [exact E2|].
        split; eauto with surfaces.
    + apply IH. repeat split; assumption.
Qed.

Lemma setitem_app {A : Type} (pre : list A) (old v : A) (rest : list A) :
  setitem (pre ++ old :: rest) (length pre) v = Ok (pre ++ v :: rest).
Proof.
  induction pre as [|h t IH]; cbn [app length setitem]; [reflexivity|].
  rewrite IH. reflexivity.
Qed.

(** Results that come with the indices [0, 1, 2, ...] fill the array in
    that order. *)
Lemma collect_in_order (results : list (nat * R)) :
  forall pre rest : list R,
    map fst results = seq (length pre) (length results) ->
    length rest = length results ->
    collect results (pre ++ rest) = Ok (pre ++ map snd results).
Proof.
  induction results as [|[index distance] more IH]; intros pre rest Hidx Hlen.
  - destruct rest; [reflexivity | discriminate].
  - destruct rest as [|old rest]; [discriminate|].
    cbn [map fst length seq] in Hidx. injection Hidx as -> Hidx.
    cbn [collect]. rewrite setitem_app. cbn [bind map snd].
    replace (pre ++ distance :: rest) with ((pre ++ [distance]) ++ rest)
      by (rewrite <- app_assoc; reflexivity).
    replace (pre ++ distance :: map snd more)
      with ((pre ++ [distance]) ++ map snd more)
      by (rewrite <- app_assoc; reflexivity).
    apply IH.
    + rewrite length_app. cbn [length]. rewrite Nat.add_1_r. exact Hidx.
    + cbn [length] in Hlen. lia.
Qed.

Section Scan.

Variable self : Robot.
Variable robot_pose : R * R * R.

Lemma calculate_lidar_angle_same (index : nat) (angle : R)
    (m1 m2 : Surface) :
  same_obstacles m1 m2 ->
  exists (d : R) (m1' m2' : Surface),
    calculate_lidar_angle self index angle robot_pose m1 100
      = Ok (index, d, m1') /\
    calculate_lidar_angle self index angle robot_pose m2 100
      = Ok (index, d, m2') /\
    tinted m1 m1' /\ tinted m2 m2'.
Proof.
  intros Hsame. destruct robot_pose as [[r_x r_y] heading].
  unfold calculate_lidar_angle.
  match goal with
  | |- context [bresenham_line ?a ?b ?c ?e 3] =>
      destruct (bresenham_line_returns a b c e 3) as [pts ->]; [lia|]
  end.
  cbn [bind].
  destruct (beam_walk_same pts r_x r_y 100 _laser_range
              ltac:(lra) m1 m2 Hsame)
    as (d & m1' & m2' & E1 & E2 & T1 & T2).
  rewrite E1, E2. cbn [bind]. exists d, m1', m2'. auto.
Qed.

(** A whole scan on two surfaces with the same obstacles gives the same
    results, indexed [i, i+1, ...]. *)
Lemma submit_beams_same (angles : list R) :
  forall (i : nat) (m1 m2 : Surface),
    same_obstacles m1 m2 ->
    exists (results : list (nat * R)) (m1' m2' : Surface),
      submit_beams self angles i robot_pose m1 = Ok (results, m1') /\
      submit_beams self angles i robot_pose m2 = Ok (results, m2') /\
      tinted m1 m1' /\ tinted m2 m2' /\
      map fst results = seq i (length angles).
Proof.
  induction angles as [|angle rest IH]; intros i m1 m2 Hsame.
  - exists [], m1, m2. cbn. auto 6 with surfaces.
  - cbn [submit_beams].
    destruct (calculate_lidar_angle_same i angle m1 m2 Hsame)
      as (d & n1 & n2 & E1 & E2 & T1 & T2).
    rewrite E1, E2. cbn [bind].
    destruct (IH (S i) n1 n2) as (res & n1' & n2' & F1 & F2 & U1 & U2 & Hidx).
    { apply (same_obstacles_trans _ m1); [auto with surfaces|].
      apply (same_obstacles_trans _ m2); auto with surfaces. }
    rewrite F1, F2. cbn [bind].
    exists ((i, d) :: res), n1', n2'.
    split; [reflexivity|]. split; [reflexivity|].
    split; [eauto with surfaces|]. split; [eauto with surfaces|].
    cbn [map fst length seq]. now rewrite Hidx.
Qed.

(** Every beam of a scan returns the distance it would return on the
    surface as it was before the scan. *)
Lemma submit_beams_each (m0 : Surface) (angles : list R) :
  forall (i : nat) (m : Surface),
    same_obstacles m0 m ->
    exists (results : list (nat * R)) (m' : Surface),
      submit_beams self angles i robot_pose m = Ok (results, m') /\
      forall (k : nat) (angle : R),
        nth_error angles k = Some angle ->
        exists m1 : Surface,
          calculate_lidar_angle self (i + k) angle robot_pose m0 100
          = Ok ((i + k)%nat, nth k (map snd results) 0, m1).
Proof.
  induction angles as [|a rest IH]; intros i m Hsame.
  - exists [], m. split; [reflexivity|].
    intros [|k] angle Hk; discriminate.
  - cbn [submit_beams].
    destruct (calculate_lidar_angle_same i a m0 m Hsame)
      as (d & n0 & n & E0 & E & _ & T).
    rewrite E. cbn [bind].
    destruct (IH (S i) n) as (res & n' & F & Heach); [eauto with surfaces|].
    rewrite F. cbn [bind].
    exists ((i, d) :: res), n'. split; [reflexivity|].
    intros [|k] angle Hk; cbn [nth_error] in Hk.
    + injection Hk as <-. rewrite Nat.add_0_r. exists n0. exact E0.
    + destruct (Heach k angle Hk) as [m1 Hm1].
      exists m1. rewrite <- Nat.add_succ_comm. exact Hm1.
Qed.

(** C9. For every map and every robot pose, a first scan returns an array
    of distances and leaves the map tinted, and a second scan, on the map as
    the first one left it, returns the same array.  The tint is neither the
    obstacle colour nor the hazard colour, a scan writes it only on cells
    that hold no obstacle, every obstacle cell keeps its colour, and every
    distance of the array is the one its beam computes on the map as it was
    before the scan. *)
Theorem lidar_scan_repeatable (surface : Surface) :
  exists (angles distances : list R) (surface1 surface2 : Surface),
    arange (- snd robot_pose + _angle_max self)
           (- snd robot_pose + _angle_min) (- _angle_inc) = Ok angles /\
    LiDAR_sensing self robot_pose surface = Ok (distances, surface1) /\
    LiDAR_sensing self robot_pose surface1 = Ok (distances, surface2) /\
    length distances = length angles /\
    (forall (i : nat) (angle : R),
       nth_error angles i = Some angle ->
       exists m : Surface,
         calculate_lidar_angle self i angle robot_pose surface 100
         = Ok (i, nth i distances 0, m)) /\
    tint <> black /\ tint <> red /\
    tinted surface surface1 /\
    (forall x y : Z,
       is_obstacle (pixel surface x y) = true ->
       pixel surface1 x y = pixel surface x y).
Proof.
  unfold LiDAR_sensing, arange.
  assert (Hinc : - _angle_inc <> 0).
  { unfold _angle_inc. pose proof PI_RGT_0. lra. }
  rewrite (Reqb_false _ _ Hinc). cbn [bind].
  set (angles := map _ _).
  destruct (submit_beams_same angles 0 surface surface)
    as (res & s1 & s1' & E1 & _ & T1 & _ & Hidx); [auto with surfaces|].
  destruct (submit_beams_same angles 0 surface s1)
    as (res' & s0 & s2 & E1' & E2 & _ & _ & _); [auto with surfaces|].
  rewrite E1 in E1'. injection E1' as <- <-.
  destruct (submit_beams_each surface angles 0 surface)
    as (res'' & s1'' & E1'' & Heach); [auto with surfaces|].
  rewrite E1 in E1''. injection E1'' as <- <-.
  assert (Hlen : length res = length angles).
  { rewrite <- (length_map fst res), Hidx. apply length_seq. }
  assert (Hd : collect res (repeat 0 (length angles)) = Ok (map snd res)).
  { apply (collect_in_order res [] (repeat 0 (length angles))).
    - cbn [length]. rewrite Hlen. exact Hidx.
    - rewrite repeat_length. symmetry. exact Hlen. }
  exists angles, (map snd res), s1, s2.
  rewrite E1, E2. cbn [bind]. rewrite Hd. cbn [bind].
  split; [reflexivity|]. split; [reflexivity|]. split; [reflexivity|].
  split; [rewrite length_map; exact Hlen|].
  split; [exact Heach|].
  split; [discriminate|]. split; [discriminate|]. split; [exact T1|].
  intros x y Hobs. destruct T1 as (_ & _ & Hpix).
  destruct (Hpix x y) as [E | [N _]]; [exact E | congruence].
Qed.

End Scan.

(** * More of the code *)

(** ** Wheel speeds and joystick *)

(** The Penrose equations leave one matrix only. *)
Lemma pinv_unique (X : matrix) :
  is_pinv kinematic_matrix X -> X = pinv kinematic_matrix.
Proof.
  intros HX. pose proof (pinv_left_inverse X HX) as HI.
  destruct HX as (Hshape & _ & _ & Hsym & _).
  rewrite pinv_values. rewrite kinematic_matrix_values in *.
  cbn [ncols hd length] in Hshape.
  destruct (shape_3_4_inv X Hshape)
    as (a0 & a1 & a2 & a3 & b0 & b1 & b2 & b3 & c0 & c1 & c2 & c3 & ->).
  revert HI Hsym. unfold_matrix. intros HI Hsym.
  injection HI as E00 E01 E02 E10 E11 E12 E20 E21 E22.
  injection Hsym as S01 S02 S03 S10 S12 S13 S20 S21 S23 S30 S31 S32.
  repeat (f_equal; try lra).
Qed.

Lemma set_wheel_speed_values (self : Robot) (w0 w1 w2 w3 : R)
    (more : list R) :
  _T self = kinematic_matrix -> is_pinv (_T self) (_Tinv self) ->
  set_wheel_speed self (w0 :: w1 :: w2 :: w3 :: more) =
    Ok (set_velocity self
          (1 / 80 * w0 + (- (1 / 80) * w1 + (1 / 80 * w2
             + (- (1 / 80) * w3 + 0))))
          (- (1 / 80) * w0 + (- (1 / 80) * w1 + (1 / 80 * w2
             + (1 / 80 * w3 + 0))))
          (- (1 / 20) * w0 + (- (1 / 20) * w1 + (- (1 / 20) * w2
             + (- (1 / 20) * w3 + 0))))).
Proof.
  intros HT HX. rewrite HT in HX.
  unfold set_wheel_speed. rewrite (pinv_unique _ HX), pinv_values.
  reflexivity.
Qed.

(** X1. [set_wheel_speed] on the wheel rates [w0 .. w3] (front left, front
    right, rear left, rear right) stores
    [vx = r/4 (w0 - w1 + w2 - w3)], [vy = r/4 (-w0 - w1 + w2 + w3)] and
    [omega = - r / (4 (wheelBase/2 + track/2)) (w0 + w1 + w2 + w3)], for
    every pseudo-inverse of the kinematic matrix; entries after the fourth
    are not read, and a list of fewer than four raises [IndexError]. *)
Theorem set_wheel_speed_closed_form (self : Robot) (w0 w1 w2 w3 : R)
    (more : list R) :
  _T self = kinematic_matrix -> is_pinv (_T self) (_Tinv self) ->
  (exists self',
     set_wheel_speed self (w0 :: w1 :: w2 :: w3 :: more) = Ok self' /\
     _v self' = (_wheel_radius / 4 * (w0 - w1 + w2 - w3),
                 _wheel_radius / 4 * (- w0 - w1 + w2 + w3)) /\
     _omega self' = - (_wheel_radius / (4 * (_wheel_base / 2 + _track / 2)))
                    * (w0 + w1 + w2 + w3) /\
     _coords self' = _coords self /\ _theta self' = _theta self) /\
  (forall short : list R,
     (length short < 4)%nat ->
     set_wheel_speed self short = Raise IndexError).
Proof.
  intros HT HX. split.
  - eexists. split; [apply (set_wheel_speed_values _ _ _ _ _ _ HT HX)|].
    cbn [set_velocity _v _omega _coords _theta]. unfold_geometry.
    repeat split; try (f_equal; lra); lra.
  - intros short Hlen. unfold set_wheel_speed.
    destruct short as [|a [|b [|c [|d short]]]];
      cbn [length] in Hlen; try lia; reflexivity.
Qed.

Lemma set_wheel_speed_closed_form_witness :
  let self := snd (__init__ class_body 0 0 0 "robot" 0) in
  exists self',
    set_wheel_speed self [80; 0; 0; 0] = Ok self' /\
    _v self' = (1, -1) /\ _omega self' = -4.
Proof.
  cbv zeta.
  destruct (set_wheel_speed_closed_form
              (snd (__init__ class_body 0 0 0 "robot" 0)) 80 0 0 0 []
              eq_refl pinv_is_pinv)
    as [(self' & Hs & Hv & Ho & _) _].
  exists self'. split; [exact Hs|].
  rewrite Hv, Ho. unfold_geometry. split; [f_equal; lra | lra].
Defined.

(** X2. Wheel rates to body velocity and back is not the identity: with
    [k = (w0 - w1 - w2 + w3) / 4], the wheel rates of the velocity that
    [set_wheel_speed] stores for [w0 .. w3] are
    [w0 - k, w1 + k, w2 + k, w3 - k].  The part of a command along
    [(1, -1, -1, 1)] is dropped: a command [(k, -k, -k, k)] stores no motion
    at all. *)
Theorem wheel_rates_of_stored_velocity (self : Robot) (w0 w1 w2 w3 : R) :
  _T self = kinematic_matrix -> is_pinv (_T self) (_Tinv self) ->
  (exists self',
     set_wheel_speed self [w0; w1; w2; w3] = Ok self' /\
     let k := (w0 - w1 - w2 + w3) / 4 in
     wheel_rates self' (fst (_v self')) (snd (_v self')) (_omega self')
     = [w0 - k; w1 + k; w2 + k; w3 - k]) /\
  (forall k : R,
     exists self',
       set_wheel_speed self [k; - k; - k; k] = Ok self' /\
       _v self' = (0, 0) /\ _omega self' = 0).
Proof.
  intros HT HX. split.
  - eexists. split; [apply (set_wheel_speed_values _ _ _ _ _ _ HT HX)|].
    cbv zeta. unfold wheel_rates.
    cbn [set_velocity _T _v _omega fst snd]. rewrite HT.
    rewrite kinematic_matrix_values. unfold_matrix.
    repeat (f_equal; try lra).
  - intros k. eexists.
    split; [apply (set_wheel_speed_values _ _ _ _ _ _ HT HX)|].
    cbn [set_velocity _v _omega]. split; [f_equal; lra | lra].
Qed.

Lemma wheel_rates_of_stored_velocity_witness :
  let self := snd (__init__ class_body 0 0 0 "robot" 0) in
  exists self',
    set_wheel_speed self [3; -3; -3; 3] = Ok self' /\
    _v self' = (0, 0) /\ _omega self' = 0.
Proof.
  cbv zeta.
  exact (proj2 (wheel_rates_of_stored_velocity
                  (snd (__init__ class_body 0 0 0 "robot" 0)) 0 0 0 0
                  eq_refl pinv_is_pinv) 3).
Defined.

(** X3. The joystick callback on a robot with the limits that [__init__]
    computes: with axes [a0, a1, a2] the stored velocity asks the four
    wheels for [_wheel_omega_max] times [a1 - a0 - a2], [-a1 - a0 - a2],
    [a1 + a0 - a2] and [-a1 + a0 - a2].  One axis at full deflection runs
    every wheel at exactly the maximum rate; nothing clamps the sum when
    several axes are deflected.  Fewer than three axes raise
    [IndexError]. *)
Theorem callback_joy_wheel_rates (self : Robot) (a0 a1 a2 now : R)
    (more : list R) :
  _T self = kinematic_matrix ->
  _max_speed self = _wheel_omega_max * _wheel_radius ->
  _max_omega self = _max_speed self / (_wheel_base / 2 + _track / 2) ->
  (exists self',
     callback_joy self (a0 :: a1 :: a2 :: more) now = Ok self' /\
     _last_command self' = now /\
     wheel_rates self' (fst (_v self')) (snd (_v self')) (_omega self')
     = [_wheel_omega_max * (a1 - a0 - a2);
        _wheel_omega_max * (- a1 - a0 - a2);
        _wheel_omega_max * (a1 + a0 - a2);
        _wheel_omega_max * (- a1 + a0 - a2)]) /\
  (forall short : list R,
     (length short < 3)%nat ->
     callback_joy self short now = Raise IndexError).
Proof.
  intros HT Hms Hmo. split.
  - eexists. split; [reflexivity|]. split; [reflexivity|].
    unfold wheel_rates.
    cbn [received set_velocity _T _v _omega fst snd].
    rewrite HT, Hmo, Hms, kinematic_matrix_values.
    unfold_matrix. unfold _wheel_omega_max. unfold_geometry.
    repeat (f_equal; try lra).
  - intros short Hlen. unfold callback_joy.
    destruct short as [|a [|b [|c short]]];
      cbn [length] in Hlen; try lia; reflexivity.
Qed.

Lemma callback_joy_wheel_rates_witness :
  let self := snd (__init__ class_body 0 0 0 "robot" 0) in
  exists self',
    callback_joy self [0; 1; 0] 5 = Ok self' /\
    _last_command self' = 5 /\
    wheel_rates self' (fst (_v self')) (snd (_v self')) (_omega self')
    = [_wheel_omega_max * (1 - 0 - 0);
       _wheel_omega_max * (- 1 - 0 - 0);
       _wheel_omega_max * (1 + 0 - 0);
       _wheel_omega_max * (- 1 + 0 - 0)].
Proof.
  cbv zeta.
  exact (proj1 (callback_joy_wheel_rates
                  (snd (__init__ class_body 0 0 0 "robot" 0)) 0 1 0 5 []
                  eq_refl eq_refl eq_refl)).
Defined.

(** ** More on the update loop *)



Lemma integrate_keeps (self : Robot) (timestamp : R) :
  _reset (integrate self timestamp) = _reset self /\
  _initial_coords (integrate self timestamp) = _initial_coords self /\
  _initial_theta (integrate self timestamp) = _initial_theta self /\
  _last_command (integrate self timestamp) = _last_command self /\
  _timestamp (integrate self timestamp) = timestamp.
Proof.
  unfold integrate. destruct (command_check self timestamp).
  repeat split.
Qed.

(** X5. After [reset_pose], the next pass ends on the initial position and
    heading, whatever it integrated, and clears the request; the stored
    velocity is not cleared, so the pass after that one is an ordinary pass
    that moves the robot away from the initial pose again.  A second
    [reset_pose] before the pass changes nothing. *)
Theorem reset_returns_to_initial_pose (self : Robot) (timestamp : R) :
  let self' := trigger (reset_pose self) timestamp in
  _coords self' = _initial_coords self /\
  _theta self' = _initial_theta self /\
  _reset self' = false /\
  _v self' = fst (command_check self timestamp) /\
  _omega self' = snd (command_check self timestamp) /\
  reset_pose (reset_pose self) = reset_pose self /\
  (forall later : R, trigger self' later = integrate self' later).
Proof.
  cbv zeta.
  assert (Hcc : command_check (reset_pose self) timestamp
                = command_check self timestamp) by reflexivity.
  unfold trigger at 1 2 3 4 5, consume_reset.
  destruct (integrate_keeps (reset_pose self) timestamp)
    as (Hr & Hic & Hit & _).
  rewrite Hr. cbn [reset_pose _reset].
  cbn [_coords _theta _reset _v _omega]. rewrite Hic, Hit.
  destruct (integrate_pose (reset_pose self) timestamp) as (_ & _ & Hv & Ho).
  rewrite Hv, Ho, Hcc.
  repeat split.
  intros later. unfold trigger at 1, consume_reset.
  destruct (integrate_keeps (trigger (reset_pose self) timestamp) later)
    as (Hr' & _).
  rewrite Hr'. unfold trigger, consume_reset. rewrite Hr.
  reflexivity.
Qed.

(** X6. Two passes in a row, with no reset pending and both within half a
    second of the last command: the heading ends where one pass over the
    whole time would put it, and when the angular rate is zero so does the
    position (straight motion adds up over the passes). *)
Theorem passes_add_up (self : Robot) (t1 t2 : R) :
  _reset self = false ->
  t1 - _last_command self <= 0.5 ->
  t2 - _last_command self <= 0.5 ->
  _theta (trigger (trigger self t1) t2) = _theta (trigger self t2) /\
  (_omega self = 0 ->
   _coords (trigger (trigger self t1) t2) = _coords (trigger self t2)).
Proof.
  intros Hr H1 H2.
  assert (Hcheck : forall (s : Robot) (t : R),
            t - _last_command s <= 0.5 ->
            command_check s t = (_v s, _omega s)).
  { intros s t Ht. unfold command_check. now rewrite Rltb_false. }
  assert (Htrig : forall (s : Robot) (t : R),
            _reset s = false -> trigger s t = integrate s t).
  { intros s t Hs. unfold trigger, consume_reset.
    destruct (integrate_keeps s t) as (-> & _). now rewrite Hs. }
  rewrite (Htrig self t1 Hr), (Htrig self t2 Hr).
  destruct (integrate_keeps self t1) as (Hr1 & _ & _ & Hl1 & Hts1).
  rewrite Htrig by (rewrite Hr1; exact Hr).
  destruct (integrate_pose self t1) as (Ht1 & Hc1 & Hv1 & Ho1).
  destruct (integrate_pose self t2) as (Ht2 & Hc2 & _).
  destruct (integrate_pose (integrate self t1) t2) as (Ht12 & Hc12 & _).
  rewrite Hcheck in Ht12, Hc12 by (rewrite Hl1; exact H2).
  rewrite Hcheck in Ht1, Hc1, Hv1, Ho1 by exact H1.
  rewrite Hcheck in Ht2, Hc2 by exact H2.
  cbn [fst snd] in *.
  rewrite ?Hts1, ?Hv1, ?Ho1, ?Ht1 in Ht12.
  rewrite ?Hts1, ?Hv1, ?Ho1, ?Ht1, ?Hc1 in Hc12. cbn [fst snd] in Hc12.
  split.
  - rewrite Ht12, Ht2. ring.
  - intros Hom. rewrite Hc12, Hc2, Hom.
    replace (_theta self + 0 * (t1 - _timestamp self) + 0 * (t2 - t1))
      with (_theta self) by ring.
    replace (_theta self + 0 * (t1 - _timestamp self))
      with (_theta self) by ring.
    replace (_theta self + 0 * (t2 - _timestamp self))
      with (_theta self) by ring.
    f_equal; ring.
Qed.

Lemma passes_add_up_witness :
  let self := callback_twist (snd (__init__ class_body 2 3 0 "robot" 1))
                1 1 0 1 in
  _theta (trigger (trigger self 1.2) 1.4) = _theta (trigger self 1.4) /\
  _coords (trigger (trigger self 1.2) 1.4) = _coords (trigger self 1.4).
Proof.
  cbv zeta.
  set (self := callback_twist _ _ _ _ _).
  destruct (passes_add_up self 1.2 1.4) as [Ht Hc];
    [reflexivity | cbn; lra | cbn; lra |].
  split; [exact Ht | apply Hc; reflexivity].
Defined.

(** ** More on the intersections *)

(** A vector [w] parallel to [u] is its own projection on [u]. *)
Lemma parallel_projection (wx wy ux uy : R) :
  0 < ux * ux + uy * uy ->
  wx * uy - wy * ux = 0 ->
  let m := (wx * ux + wy * uy) / (ux * ux + uy * uy) in
  wx = m * ux /\ wy = m * uy.
Proof.
  intros HN Hpar. cbv zeta.
  assert (Ex : wx * (ux * ux + uy * uy) - (wx * ux + wy * uy) * ux
               = uy * (wx * uy - wy * ux)) by ring.
  assert (Ey : wy * (ux * ux + uy * uy) - (wx * ux + wy * uy) * uy
               = - ux * (wx * uy - wy * ux)) by ring.
  rewrite Hpar in Ex, Ey.
  split.
  - apply (Rmult_eq_reg_r (ux * ux + uy * uy)); [|lra].
    transitivity ((wx * ux + wy * uy) * ux); [lra | field; lra].
  - apply (Rmult_eq_reg_r (ux * ux + uy * uy)); [|lra].
    transitivity ((wx * ux + wy * uy) * uy); [lra | field; lra].
Qed.

(** Cramer's rule, as [intersection] applies it. *)
Lemma cramer (a1 b1 c1 a2 b2 c2 x y : R) :
  a1 * b2 - b1 * a2 <> 0 ->
  a1 * x + b1 * y = c1 -> a2 * x + b2 * y = c2 ->
  (c1 * b2 - b1 * c2) / (a1 * b2 - b1 * a2) = x /\
  (a1 * c2 - c1 * a2) / (a1 * b2 - b1 * a2) = y.
Proof. intros HD <- <-. split; field; exact HD. Qed.

(** Every point of the line through [a] and [b] solves the equation that
    [line a b] returns. *)
Lemma along_on_line (a b : point) (l : R) :
  let '(A, B, C) := line a b in
  A * fst (along a b l) + B * snd (along a b l) = C.
Proof. unfold line, along. cbn [fst snd]. ring. Qed.

(** The intersection of the infinite lines solves both equations. *)
Lemma intersection_on_lines (L1 L2 : R * R * R) (p : point) :
  intersection L1 L2 = Ok (Some p) ->
  let '(a1, b1, c1) := L1 in
  let '(a2, b2, c2) := L2 in
  a1 * fst p + b1 * snd p = c1 /\ a2 * fst p + b2 * snd p = c2.
Proof.
  pose proof (intersection_cases L1 L2) as Hc.
  destruct L1 as [[a1 b1] c1], L2 as [[a2 b2] c2]. cbv zeta in Hc.
  intros Hi. destruct Hc as [[_ Hn] | [HD Hs]]; [congruence|].
  rewrite Hs in Hi. injection Hi as <-. cbn [fst snd].
  split; field; exact HD.
Qed.

(** A point of the line through [a] and [b] whose vectors to [a] and to
    [b] point against each other lies between the two. *)
Lemma on_line_between (a b p : point) :
  (snd a - snd b) * fst p + (fst b - fst a) * snd p
    = - (fst a * snd b - fst b * snd a) ->
  dot_product (sub p a) (sub p b) < 0 ->
  strictly_between a b p.
Proof.
  destruct a as [ax ay], b as [bx by_], p as [px py].
  unfold dot_product, sub, strictly_between, along. cbn [fst snd].
  intros Hline Hdot.
  assert (HN : 0 < (bx - ax) * (bx - ax) + (by_ - ay) * (by_ - ay)).
  { destruct (Req_dec_T (bx - ax) 0) as [Ex | Ex];
      destruct (Req_dec_T (by_ - ay) 0) as [Ey | Ey]; try nra.
    assert (bx = ax) by lra. assert (by_ = ay) by lra. subst.
    pose proof (Rle_0_sqr (px - ax)) as H1.
    pose proof (Rle_0_sqr (py - ay)) as H2. unfold Rsqr in *. lra. }
  destruct (parallel_projection (px - ax) (py - ay) (bx - ax) (by_ - ay) HN)
    as [Hx Hy]; [lra|].
  set (l := _ / _) in *.
  exists l. split.
  - assert (Hd : (px - ax) * (px - bx) + (py - ay) * (py - by_)
                 = l * (l - 1)
                   * ((bx - ax) * (bx - ax) + (by_ - ay) * (by_ - ay))).
    { replace (px - bx) with ((px - ax) - (bx - ax)) by ring.
      replace (py - by_) with ((py - ay) - (by_ - ay)) by ring.
      rewrite Hx, Hy. ring. }
    rewrite Hd in Hdot.
    assert (Hl : l * (l - 1) < 0) by nra.
    split; nra.
  - f_equal; lra.
Qed.

(** X7. A distance that [line_line_intersection] reports is the distance
    from the sensor to a point that lies on the segment, strictly between
    its ends, and on the sensor ray, strictly between the sensor and the far
    point. *)
Theorem reported_hit_is_a_crossing
    (start_line end_line coords_sensor coords_far : point) (d : R) :
  line_line_intersection start_line end_line coords_sensor coords_far
    = Ok d ->
  d <> -1 ->
  exists p : point,
    strictly_between start_line end_line p /\
    strictly_between coords_sensor coords_far p /\
    d = sqrt (dist2 p coords_sensor) /\
    0 < d < sqrt (dist2 coords_far coords_sensor).
Proof.
  intros Hd Hne.
  destruct (intersection (line start_line end_line)
              (line coords_sensor coords_far)) as [[p|] | e |] eqn:Hi;
    try (unfold line_line_intersection in Hd; rewrite Hi in Hd;
         cbn [bind] in Hd; congruence).
  rewrite (line_line_intersection_at _ _ _ _ _ Hi) in Hd.
  pose proof (intersection_on_lines _ _ _ Hi) as Hon.
  unfold line in Hon. cbv zeta in Hon. destruct Hon as [Hon1 Hon2].
  unfold Rleb in Hd.
  destruct (Rle_dec 0 (dot1_of p coords_sensor coords_far)) as [H1 | H1];
    [cbn [orb] in Hd; congruence|].
  destruct (Rle_dec 0 (dot2_of p start_line end_line)) as [H2 | H2];
    [cbn [orb] in Hd; congruence|].
  cbn [orb] in Hd. injection Hd as <-.
  assert (Hb1 : strictly_between start_line end_line p)
    by (apply on_line_between; [exact Hon1 | unfold dot2_of in H2; lra]).
  assert (Hb2 : strictly_between coords_sensor coords_far p)
    by (apply on_line_between; [exact Hon2 | unfold dot1_of in H1; lra]).
  exists p. split; [exact Hb1|]. split; [exact Hb2|].
  split; [reflexivity|].
  destruct Hb2 as (m & Hm & ->).
  destruct coords_sensor as [sx sy], coords_far as [fx fy].
  unfold dist2, along. cbn [fst snd].
  set (N := (fx - sx) * (fx - sx) + (fy - sy) * (fy - sy)).
  assert (HN : 0 < N).
  { assert (Hd1 : dot1_of (along (sx, sy) (fx, fy) m) (sx, sy) (fx, fy)
                  = m * (m - 1) * N).
    { unfold dot1_of, dot_product, sub, along, N. cbn [fst snd]. ring. }
    rewrite Hd1 in H1.
    assert (0 <= N) by (unfold N; apply sum_squares_nonneg).
    destruct (Req_dec_T N 0) as [E | E]; [|lra].
    exfalso. apply H1. rewrite E. lra. }
  replace ((sx + m * (fx - sx) - sx) * (sx + m * (fx - sx) - sx)
           + (sy + m * (fy - sy) - sy) * (sy + m * (fy - sy) - sy))
    with ((m * m) * N) by (unfold N; ring).
  rewrite sqrt_mult by nra. rewrite sqrt_square by lra.
  assert (Hs : 0 < sqrt N) by (apply sqrt_lt_R0; exact HN).
  split; nra.
Qed.

Lemma reported_hit_is_a_crossing_witness :
  exists p : point,
    strictly_between (1, -1) (1, 1) p /\
    strictly_between (0, 0) (2, 0) p /\
    1 - 0 = sqrt (dist2 p (0, 0)) /\
    0 < 1 - 0 < sqrt (dist2 (2, 0) (0, 0)).
Proof.
  apply (reported_hit_is_a_crossing (1, -1) (1, 1) (0, 0) (2, 0)).
  - apply vertical_segment_hit; lra.
  - lra.
Defined.

(** X8. Whenever the segment and the sensor ray are not parallel and cross
    in a point [p] that lies strictly inside both, [line_line_intersection]
    reports the distance from the sensor to [p]. *)
Theorem crossing_is_reported
    (start_line end_line coords_sensor coords_far p : point) :
  strictly_between start_line end_line p ->
  strictly_between coords_sensor coords_far p ->
  (snd start_line - snd end_line) * (fst coords_far - fst coords_sensor)
  - (fst end_line - fst start_line) * (snd coords_sensor - snd coords_far)
  <> 0 ->
  line_line_intersection start_line end_line coords_sensor coords_far
    = Ok (sqrt (dist2 p coords_sensor)).
Proof.
  intros (l & Hl & Hpl) (m & Hm & Hpm) HD.
  pose proof (along_on_line start_line end_line l) as H1.
  pose proof (along_on_line coords_sensor coords_far m) as H2.
  rewrite <- Hpl in H1. rewrite <- Hpm in H2.
  assert (Hi : intersection (line start_line end_line)
                 (line coords_sensor coords_far) = Ok (Some p)).
  { pose proof (intersection_cases (line start_line end_line)
                  (line coords_sensor coords_far)) as Hc.
    unfold line in *. cbv zeta in *.
    destruct Hc as [[HD0 _] | [_ ->]]; [contradiction|].
    destruct (cramer _ _ _ _ _ _ (fst p) (snd p) HD H1 H2) as [-> ->].
    destruct p; reflexivity. }
  rewrite (line_line_intersection_at _ _ _ _ _ Hi).
  destruct start_line as [ax ay], end_line as [bx by_],
    coords_sensor as [sx sy], coords_far as [fx fy].
  cbn [fst snd] in HD.
  assert (HNs : 0 < (fx - sx) * (fx - sx) + (fy - sy) * (fy - sy)).
  { destruct (Req_dec_T (fx - sx) 0) as [Ex | Ex];
      destruct (Req_dec_T (fy - sy) 0) as [Ey | Ey]; nra. }
  assert (HNa : 0 < (bx - ax) * (bx - ax) + (by_ - ay) * (by_ - ay)).
  { destruct (Req_dec_T (bx - ax) 0) as [Ex | Ex];
      destruct (Req_dec_T (by_ - ay) 0) as [Ey | Ey]; nra. }
  assert (Hd1 : dot1_of p (sx, sy) (fx, fy)
                = m * (m - 1)
                  * ((fx - sx) * (fx - sx) + (fy - sy) * (fy - sy))).
  { rewrite Hpm. unfold dot1_of, dot_product, sub, along. cbn [fst snd].
    ring. }
  assert (Hd2 : dot2_of p (ax, ay) (bx, by_)
                = l * (l - 1)
                  * ((bx - ax) * (bx - ax) + (by_ - ay) * (by_ - ay))).
  { rewrite Hpl. unfold dot2_of, dot_product, sub, along. cbn [fst snd].
    ring. }
  rewrite Hd1, Hd2.
  assert (Hm' : m * (m - 1) < 0) by nra.
  assert (Hl' : l * (l - 1) < 0) by nra.
  rewrite !Rleb_false by nra. reflexivity.
Qed.

Lemma crossing_is_reported_witness :
  line_line_intersection (1, -1) (1, 1) (0, 0) (2, 0)
    = Ok (sqrt (dist2 (1, 0) (0, 0))).
Proof.
  apply crossing_is_reported.
  - exists (1 / 2). split; [lra|]. unfold along. cbn [fst snd].
    f_equal; lra.
  - exists (1 / 2). split; [lra|]. unfold along. cbn [fst snd].
    f_equal; lra.
  - cbn [fst snd]. lra.
Defined.

(** X9. The direction in which the segment is given does not matter:
    swapping its two ends gives the same result. *)
Theorem segment_ends_can_be_swapped
    (start_line end_line coords_sensor coords_far : point) :
  line_line_intersection end_line start_line coords_sensor coords_far
  = line_line_intersection start_line end_line coords_sensor coords_far.
Proof.
  pose proof (intersection_cases (line start_line end_line)
                (line coords_sensor coords_far)) as Hc.
  pose proof (intersection_cases (line end_line start_line)
                (line coords_sensor coords_far)) as Hc'.
  destruct start_line as [ax ay], end_line as [bx by_],
    coords_sensor as [sx sy], coords_far as [fx fy].
  unfold line in Hc, Hc'. cbn [fst snd] in Hc, Hc'. cbv zeta in Hc, Hc'.
  destruct Hc as [[HD Hi] | [HD Hi]]; destruct Hc' as [[HD' Hi'] | [HD' Hi']];
    try (exfalso; lra).
  - unfold line_line_intersection, line. cbn [fst snd].
    unfold line in Hi, Hi'. cbn [fst snd] in Hi, Hi'.
    rewrite Hi, Hi'. reflexivity.
  - unfold line in Hi, Hi'. cbn [fst snd] in Hi, Hi'.
    rewrite (line_line_intersection_at (ax, ay) (bx, by_) (sx, sy) (fx, fy)
               _ Hi).
    rewrite (line_line_intersection_at (bx, by_) (ax, ay) (sx, sy) (fx, fy)
               _ Hi').
    match goal with
    | |- context [dot1_of ?p _ _] =>
        match type of Hi with
        | _ = Ok (Some ?q) => replace p with q by (f_equal; field; lra)
        end
    end.
    unfold dot2_of, dot_product. rewrite (Rmult_comm (fst (sub _ (bx, by_)))).
    rewrite (Rmult_comm (snd (sub _ (bx, by_)))). reflexivity.
Qed.

(** The two candidates of [circle_line_intersection] lie on the circle
    (centred coordinates) and on the line through the sensor and the far
    point; [a] is the source's [sgn] and [b] its [abs(dy)]. *)
Lemma candidates_on_circle_and_line (dx dy det r S dr a b : R) :
  dr * dr = dx * dx + dy * dy -> dr * dr <> 0 ->
  S * S = r * r * dr * dr - det * det ->
  a * a = 1 -> b = a * dy ->
  let i1x := (det * dy + a * dx * S) / (dr * dr) in
  let i1y := (- det * dx + b * S) / (dr * dr) in
  let i2x := (det * dy - a * dx * S) / (dr * dr) in
  let i2y := (- det * dx - b * S) / (dr * dr) in
  (i1x * i1x + i1y * i1y = r * r /\ i1x * dy - i1y * dx = det) /\
  (i2x * i2x + i2y * i2y = r * r /\ i2x * dy - i2y * dx = det).
Proof.
  intros Hdr Hnz HS Ha ->. cbv zeta.
  assert (Hdr0 : dr <> 0) by (intros E; apply Hnz; rewrite E; ring).
  repeat split.
  - transitivity ((det * det * (dx * dx + dy * dy)
                   + (a * a) * (S * S) * (dx * dx + dy * dy))
                  / (dr * dr * (dr * dr))); [field; exact Hdr0|].
    rewrite Ha, HS, <- Hdr. field. exact Hdr0.
  - transitivity (det * (dx * dx + dy * dy) / (dr * dr));
      [field; exact Hdr0|].
    rewrite <- Hdr. field. exact Hdr0.
  - transitivity ((det * det * (dx * dx + dy * dy)
                   + (a * a) * (S * S) * (dx * dx + dy * dy))
                  / (dr * dr * (dr * dr))); [field; exact Hdr0|].
    rewrite Ha, HS, <- Hdr. field. exact Hdr0.
  - transitivity (det * (dx * dx + dy * dy) / (dr * dr));
      [field; exact Hdr0|].
    rewrite <- Hdr. field. exact Hdr0.
Qed.

Lemma sgn_abs (dy : R) :
  let a := if Rltb dy 0 then -1 else 1 in
  a * a = 1 /\ Rabs dy = a * dy.
Proof.
  cbv zeta. unfold Rltb. destruct (Rlt_dec dy 0) as [H | H].
  - rewrite Rabs_left by exact H. split; ring.
  - rewrite Rabs_right by lra. split; ring.
Qed.

(** A candidate in front of the sensor lies on the sensor ray. *)
Lemma candidate_on_ray (c s f : point) (ix iy : R) :
  let dx := fst f - fst c - (fst s - fst c) in
  let dy := snd f - snd c - (snd s - snd c) in
  let det := (fst s - fst c) * (snd f - snd c)
             - (fst f - fst c) * (snd s - snd c) in
  0 < dx * dx + dy * dy ->
  ix * dy - iy * dx = det ->
  0 < (fst f - fst s) * (ix + fst c - fst s)
      + (snd f - snd s) * (iy + snd c - snd s) ->
  on_ray s f (ix + fst c, iy + snd c).
Proof.
  destruct c as [cx cy], s as [sx sy], f as [fx fy]. cbn [fst snd].
  cbv zeta. intros HN Hline Hdot.
  replace (fx - cx - (sx - cx)) with (fx - sx) in * by ring.
  replace (fy - cy - (sy - cy)) with (fy - sy) in * by ring.
  destruct (parallel_projection (ix + cx - sx) (iy + cy - sy)
              (fx - sx) (fy - sy) HN) as [Hx Hy]; [lra|].
  set (m := _ / _) in *.
  exists m. split.
  - unfold m. apply Rdiv_lt_0_compat; [lra | exact HN].
  - unfold along. cbn [fst snd]. f_equal; lra.
Qed.

(** X10. A distance that [circle_line_intersection] reports is positive
    and is the distance from the sensor to a point that lies on the circle
    and on the ray from the sensor towards the far point.  The point may lie
    beyond the far point: the length of the ray is not looked at. *)
Theorem reported_circle_hit_is_on_circle (coords_obstacle : point) (r : R)
    (coords_sensor coords_far : point) (d : R) :
  circle_line_intersection coords_obstacle r coords_sensor coords_far
    = Ok d ->
  d <> -1 ->
  exists p : point,
    on_circle coords_obstacle r p /\
    on_ray coords_sensor coords_far p /\
    d = sqrt (dist2 p coords_sensor) /\ 0 < d.
Proof.
  intros Hd Hne.
  set (c := coords_obstacle) in *. set (s := coords_sensor) in *.
  set (f := coords_far) in *.
  pose (dx := fst f - fst c - (fst s - fst c)).
  pose (dy := snd f - snd c - (snd s - snd c)).
  pose (det := (fst s - fst c) * (snd f - snd c)
               - (fst f - fst c) * (snd s - snd c)).
  pose (dr := sqrt (dx * dx + dy * dy)).
  assert (Hdr : dr * dr = dx * dx + dy * dy)
    by (apply sqrt_sqrt, sum_squares_nonneg).
  destruct (Rlt_dec 0 (r * r * dr * dr - det * det)) as [Hlam | Hlam].
  2: { rewrite no_crossing_no_hit in Hd; [congruence|].
       cbv zeta. fold dx dy det. rewrite <- Hdr. lra. }
  pose proof (positive_lam_dr _ _ _ Hlam) as Hnz.
  pose (S := sqrt (r * r * dr * dr - det * det)).
  assert (HS : S * S = r * r * dr * dr - det * det)
    by (apply sqrt_sqrt; lra).
  destruct (sgn_abs dy) as [Ha Hb].
  destruct (candidates_on_circle_and_line dx dy det r S dr _ _
              Hdr Hnz HS Ha Hb) as [[Hc1 Hl1] [Hc2 Hl2]].
  assert (HN : 0 < dx * dx + dy * dy).
  { rewrite <- Hdr. pose proof (sum_squares_nonneg dx dy). lra. }
  rewrite (circle_line_intersection_eval c r s f dr S
             _ _ _ _ _ _ eq_refl Hlam eq_refl
             eq_refl eq_refl eq_refl eq_refl eq_refl eq_refl) in Hd.
  fold dx dy det in Hd. fold dr in Hd. fold S in Hd.
  set (i1x := (det * dy + _ * dx * S) / (dr * dr)) in *.
  set (i1y := (- det * dx + Rabs dy * S) / (dr * dr)) in *.
  set (i2x := (det * dy - _ * dx * S) / (dr * dr)) in *.
  set (i2y := (- det * dx - Rabs dy * S) / (dr * dr)) in *.
  set (d1 := sqrt _) in Hd. set (d2 := sqrt _) in Hd.
  destruct (Rltb d1 d2); cbv zeta in Hd; cbn [fst snd] in Hd;
    unfold Rltb in Hd;
    match type of Hd with
    | (if (if Rlt_dec 0 ?dist then _ else _)
          && (if Rlt_dec 0 ?dot then _ else _) then _ else _) = _ =>
        destruct (Rlt_dec 0 dist) as [Hpos | Hpos];
          [|cbn [andb] in Hd; congruence];
        destruct (Rlt_dec 0 dot) as [Hdot | Hdot];
          [|cbn [andb] in Hd; congruence]
    end;
    cbn [andb] in Hd; injection Hd as <-.
  - exists (i1x + fst c, i1y + snd c). split; [|split; [|split]].
    + unfold on_circle. cbn [fst snd].
      rewrite <- Hc1. f_equal; ring.
    + apply candidate_on_ray; [exact HN | exact Hl1 | exact Hdot].
    + unfold d1, dist2. cbn [fst snd]. reflexivity.
    + exact Hpos.
  - exists (i2x + fst c, i2y + snd c). split; [|split; [|split]].
    + unfold on_circle. cbn [fst snd].
      rewrite <- Hc2. f_equal; ring.
    + apply candidate_on_ray; [exact HN | exact Hl2 | exact Hdot].
    + unfold d2, dist2. cbn [fst snd]. reflexivity.
    + exact Hpos.
Qed.

Lemma Rltb_iff (a b : R) : (0 < a <-> 0 < b) -> Rltb 0 a = Rltb 0 b.
Proof.
  intros H. unfold Rltb.
  destruct (Rlt_dec 0 a), (Rlt_dec 0 b); tauto.
Qed.

(** X11. A sensor on the centre line of a circle: at distance [d] from the
    centre, [d] positive and different from the radius [r], with the far
    point at [sensor + t (centre - sensor)]. The sensor gets the hit
    [|d - r|] when it is outside and looks towards the centre, or inside and
    looks away from it.  It gets no hit when it is outside and looks away,
    and none either when it is inside and looks towards the centre: the
    nearer of the two crossing points is then behind it, and the one in
    front is never looked at. *)
Theorem centre_line_ray (coords_obstacle coords_sensor : point) (r t : R) :
  let d := sqrt (dist2 coords_sensor coords_obstacle) in
  0 < r -> 0 < d -> d <> r -> t <> 0 ->
  circle_line_intersection coords_obstacle r coords_sensor
    (along coords_sensor coords_obstacle t)
  = if Rltb 0 (t * (d - r)) then Ok (Rabs (d - r)) else Ok (-1).
Proof.
  destruct coords_obstacle as [cx cy], coords_sensor as [sx sy].
  intros d Hr Hd0 Hdr Ht. unfold dist2, along in *. cbn [fst snd] in *.
  set (X := sx - cx) in *. set (Y := sy - cy) in *.
  assert (Hdd : d * d = X * X + Y * Y)
    by (subst d; apply sqrt_sqrt, sum_squares_nonneg).
  clearbody d.
  assert (Hnear : forall u v : R,
            u = X * (r / d - 1) -> v = Y * (r / d - 1) ->
            sqrt (u * u + v * v) = Rabs (d - r)).
  { intros u v -> ->. rewrite <- sqrt_Rsqr_abs. f_equal. unfold Rsqr.
    transitivity ((X * X + Y * Y) * ((r / d - 1) * (r / d - 1))); [ring|].
    rewrite <- Hdd. field. lra. }
  assert (Hfar : forall u v : R,
            u = - X * (r / d + 1) -> v = - Y * (r / d + 1) ->
            sqrt (u * u + v * v) = d + r).
  { intros u v -> ->. apply sqrt_of_square; [lra|].
    transitivity ((X * X + Y * Y) * ((r / d + 1) * (r / d + 1))); [ring|].
    rewrite <- Hdd. field. lra. }
  assert (Habs : 0 < Rabs (d - r) < d + r).
  { split; [apply Rabs_pos_lt; lra|].
    unfold Rabs. destruct (Rcase_abs (d - r)); lra. }
  assert (Hdot : Rltb 0 ((sx + t * (cx - sx) - sx) * (X * r / d + cx - sx)
                         + (sy + t * (cy - sy) - sy) * (Y * r / d + cy - sy))
                 = Rltb 0 (t * (d - r))).
  { apply Rltb_iff.
    replace ((sx + t * (cx - sx) - sx) * (X * r / d + cx - sx)
             + (sy + t * (cy - sy) - sy) * (Y * r / d + cy - sy))
      with (t * (X * X + Y * Y) * (1 - r / d)) by (unfold X, Y; field; lra).
    rewrite <- Hdd.
    replace (t * (d * d) * (1 - r / d)) with (d * (t * (d - r)))
      by (field; lra).
    split; intros H; nra. }
  assert (Hdy : sy + t * (cy - sy) - cy - Y = - (t * Y))
    by (unfold Y; ring).
  assert (Hdet : X * (sy + t * (cy - sy) - cy) - (sx + t * (cx - sx) - cx) * Y
                 = 0) by (unfold X, Y; ring).
  assert (Hmain_near :
    (let '(dist, v_hit) :=
       if Rltb (Rabs (d - r)) (d + r)
       then (Rabs (d - r), (X * r / d + cx - sx, Y * r / d + cy - sy))
       else (d + r, (- X * r / d + cx - sx, - Y * r / d + cy - sy)) in
     let dot := (sx + t * (cx - sx) - sx) * fst v_hit
                + (sy + t * (cy - sy) - sy) * snd v_hit in
     if Rltb 0 dist && Rltb 0 dot then Ok dist else Ok (-1))
    = if Rltb 0 (t * (d - r)) then Ok (Rabs (d - r)) else Ok (-1)).
  { rewrite (Rltb_true (Rabs (d - r)) (d + r)) by lra. cbv zeta.
    cbn [fst snd]. rewrite Hdot, (Rltb_true 0 (Rabs (d - r))) by lra.
    reflexivity. }
  assert (Hmain_far :
    (let '(dist, v_hit) :=
       if Rltb (d + r) (Rabs (d - r))
       then (d + r, (- X * r / d + cx - sx, - Y * r / d + cy - sy))
       else (Rabs (d - r), (X * r / d + cx - sx, Y * r / d + cy - sy)) in
     let dot := (sx + t * (cx - sx) - sx) * fst v_hit
                + (sy + t * (cy - sy) - sy) * snd v_hit in
     if Rltb 0 dist && Rltb 0 dot then Ok dist else Ok (-1))
    = if Rltb 0 (t * (d - r)) then Ok (Rabs (d - r)) else Ok (-1)).
  { rewrite (Rltb_false (d + r) (Rabs (d - r))) by lra. cbv zeta.
    cbn [fst snd]. rewrite Hdot, (Rltb_true 0 (Rabs (d - r))) by lra.
    reflexivity. }
  assert (Hcases : (0 < t /\ 0 < t * d) \/ (t < 0 /\ 0 < - t * d)).
  { destruct (Rlt_dec 0 t); [left | right]; split; nra. }
  assert (Hsign : - (t * Y) < 0 \/ 0 <= - (t * Y)) by lra.
  (* [tau] is [|t|]; the first candidate is the near one exactly when
     [sgn] and [t] have opposite signs *)
  destruct Hcases as [[Htpos Htd] | [Htneg Htd]];
    destruct Hsign as [Hneg | Hpos];
    [ rewrite (circle_line_intersection_eval (cx, cy) r (sx, sy) _
                 (t * d) (r * (t * d))
                 (X * r / d) (Y * r / d) (- X * r / d) (- Y * r / d)
                 (Rabs (d - r)) (d + r))
    | rewrite (circle_line_intersection_eval (cx, cy) r (sx, sy) _
                 (t * d) (r * (t * d))
                 (- X * r / d) (- Y * r / d) (X * r / d) (Y * r / d)
                 (d + r) (Rabs (d - r)))
    | rewrite (circle_line_intersection_eval (cx, cy) r (sx, sy) _
                 (- t * d) (r * (- t * d))
                 (- X * r / d) (- Y * r / d) (X * r / d) (Y * r / d)
                 (d + r) (Rabs (d - r)))
    | rewrite (circle_line_intersection_eval (cx, cy) r (sx, sy) _
                 (- t * d) (r * (- t * d))
                 (X * r / d) (Y * r / d) (- X * r / d) (- Y * r / d)
                 (Rabs (d - r)) (d + r)) ];
    cbn [fst snd]; fold X; fold Y; rewrite ?Hdy, ?Hdet;
    try (rewrite (Rltb_true (- (t * Y)) 0) by exact Hneg);
    try (rewrite (Rabs_left (- (t * Y))) by exact Hneg);
    try (rewrite (Rltb_false (- (t * Y)) 0) by exact Hpos);
    try (rewrite (Rabs_right (- (t * Y))) by (apply Rle_ge; exact Hpos));
    first
      [ exact Hmain_near
      | exact Hmain_far
      | apply Hnear; unfold X, Y; field; lra
      | apply Hfar; unfold X, Y; field; lra
      | apply sqrt_of_square;
        [ lra
        | first [ transitivity (t * t * (X * X + Y * Y));
                  [unfold X, Y; ring | rewrite <- Hdd; ring]
                | unfold X, Y; ring ] ]
      | unfold X, Y; field; lra
      | apply sqrt_of_square;
        [apply Rlt_le, Rmult_lt_0_compat; assumption | ring]
      | match goal with
        | |- 0 < r * r * ?a * ?a - 0 * 0 =>
            replace (r * r * a * a - 0 * 0) with ((r * a) * (r * a)) by ring;
            apply Rmult_lt_0_compat; apply Rmult_lt_0_compat; assumption
        end ].
Qed.

Lemma centre_line_ray_witness :
  circle_line_intersection (0, 0) 2 (1, 0) (along (1, 0) (0, 0) 1)
  = Ok (-1).
Proof.
  pose proof (centre_line_ray (0, 0) (1, 0) 2 1) as H. cbv zeta in H.
  assert (Hd : sqrt (dist2 (1, 0) (0, 0)) = 1)
    by (unfold dist2; cbn [fst snd]; apply sqrt_of_square; lra).
  rewrite Hd in H. rewrite H by lra.
  rewrite Rltb_false by lra. reflexivity.
Defined.

(** A sensor two units right of a unit circle that looks at its centre. *)
Lemma unit_circle_seen_from_outside :
  circle_line_intersection (0, 0) 1 (2, 0) (-2, 0) = Ok 1.
Proof.
  rewrite (circle_line_intersection_eval (0, 0) 1 (2, 0) (-2, 0)
             4 4 (-1) 0 1 0 3 1); cbn [fst snd].
  - rewrite (Rltb_false 3 1) by lra. cbv zeta. cbn [fst snd].
    rewrite !Rltb_true by lra. reflexivity.
  - apply sqrt_of_square; lra.
  - lra.
  - apply sqrt_of_square; lra.
  - rewrite Rltb_false by lra. field.
  - rewrite Rabs_right by lra. field.
  - rewrite Rltb_false by lra. field.
  - rewrite Rabs_right by lra. field.
  - apply sqrt_of_square; lra.
  - apply sqrt_of_square; lra.
Qed.

Lemma reported_circle_hit_is_on_circle_witness :
  exists p : point,
    on_circle (0, 0) 1 p /\ on_ray (2, 0) (-2, 0) p /\
    1 = sqrt (dist2 p (2, 0)) /\ 0 < 1.
Proof.
  apply (reported_circle_hit_is_on_circle (0, 0) 1 (2, 0) (-2, 0) 1).
  - exact unit_circle_seen_from_outside.
  - lra.
Defined.

(** ** The ring of ToF sensors *)

Lemma getitem_nth {A : Type} (l : list A) (i : nat) (d : A) :
  (i < length l)%nat -> getitem l i = Ok (nth i l d).
Proof.
  intros Hi. unfold getitem.
  rewrite (nth_error_nth' l d Hi). reflexivity.
Qed.

Lemma getitem_short {A : Type} (l : list A) (i : nat) :
  (length l <= i)%nat -> getitem l i = Raise IndexError.
Proof.
  intros Hi. unfold getitem.
  apply nth_error_None in Hi. rewrite Hi. reflexivity.
Qed.

Lemma getitem_middle {A : Type} (pre : list A) (x : A) (post : list A) :
  getitem (pre ++ x :: post) (length pre) = Ok x.
Proof.
  unfold getitem. rewrite nth_error_app2 by lia.
  rewrite Nat.sub_diag. reflexivity.
Qed.

Lemma imap_length {A B : Type} (f : nat -> A -> B) (l : list A) :
  forall i, length (imap f i l) = length l.
Proof. induction l as [|x l IH]; intros i; cbn; [|rewrite IH]; reflexivity. Qed.

Lemma imap_nth_error {A B : Type} (f : nat -> A -> B) (l : list A) :
  forall i k,
    nth_error (imap f i l) k = option_map (f (i + k)%nat) (nth_error l k).
Proof.
  induction l as [|x l IH]; intros i k.
  - destruct k; reflexivity.
  - destruct k as [|k]; cbn [imap nth_error option_map].
    + now rewrite Nat.add_0_r.
    + rewrite IH. now rewrite Nat.add_succ_comm.
Qed.

(** A loop over [range] that rewrites slot [k] of a list from what the slot
    holds: the slots [i, i+1, ...] of the range get their new values, every
    other slot stays. *)
Lemma for_range_rewrites {A : Type} (body : nat -> list A -> py (list A))
    (f : nat -> A -> A) (bound : nat) :
  (forall (k : nat) (pre : list A) (old : A) (post : list A),
     (k < bound)%nat -> length pre = k ->
     body k (pre ++ old :: post) = Ok (pre ++ f k old :: post)) ->
  forall (olds : list A) (i : nat) (pre post : list A),
    length pre = i -> (i + length olds <= bound)%nat ->
    for_range (length olds) i body (pre ++ olds ++ post)
    = Ok (pre ++ imap f i olds ++ post).
Proof.
  intros Hbody. induction olds as [|old olds IH]; intros i pre post Hi Hb.
  - reflexivity.
  - cbn [length for_range app imap]. cbn [length] in Hb.
    rewrite Hbody by lia. cbn [bind].
    replace (pre ++ f i old :: olds ++ post)
      with ((pre ++ [f i old]) ++ olds ++ post)
      by (rewrite <- app_assoc; reflexivity).
    rewrite IH by (rewrite ?length_app; cbn [length]; lia).
    rewrite <- app_assoc. reflexivity.
Qed.

(** The same loop over the first [n] slots of a list that is long
    enough. *)
Lemma for_range_first_slots {A : Type} (body : nat -> list A -> py (list A))
    (f : nat -> A -> A) (n : nat) (l : list A) :
  (forall (k : nat) (pre : list A) (old : A) (post : list A),
     (k < n)%nat -> length pre = k ->
     body k (pre ++ old :: post) = Ok (pre ++ f k old :: post)) ->
  (n <= length l)%nat ->
  for_range n 0 body l = Ok (imap f 0 (firstn n l) ++ skipn n l).
Proof.
  intros Hbody Hn.
  pose proof (for_range_rewrites body f n Hbody (firstn n l) 0 [] (skipn n l))
    as H.
  rewrite length_firstn, Nat.min_l in H by exact Hn.
  cbn [app] in H. rewrite firstn_skipn in H. apply H; [reflexivity | lia].
Qed.

(** The first slot that is missing stops the loop. *)
Lemma for_range_short {A : Type} (body : nat -> list A -> py (list A))
    (f : nat -> A -> A) (n : nat) (l : list A) :
  (forall (k : nat) (pre : list A) (old : A) (post : list A),
     (k < n)%nat -> length pre = k ->
     body k (pre ++ old :: post) = Ok (pre ++ f k old :: post)) ->
  (forall (k : nat) (s : list A),
     length s = k -> body k s = Raise IndexError) ->
  (length l < n)%nat ->
  for_range n 0 body l = Raise IndexError.
Proof.
  intros Hbody Hend Hn.
  assert (H : forall (olds pre : list A) (m : nat),
            (length pre + length olds < length pre + m)%nat ->
            (length pre + m <= n)%nat ->
            for_range m (length pre) body (pre ++ olds) = Raise IndexError).
  { induction olds as [|old olds IH]; intros pre m Hm Hle.
    - destruct m as [|m]; [cbn [length] in Hm; lia|].
      cbn [for_range]. rewrite Hend by (rewrite app_nil_r; reflexivity).
      reflexivity.
    - destruct m as [|m]; [cbn [length] in Hm; lia|].
      cbn [for_range]. rewrite Hbody by lia. cbn [bind].
      replace (pre ++ f (length pre) old :: olds)
        with ((pre ++ [f (length pre) old]) ++ olds)
        by (rewrite <- app_assoc; reflexivity).
      replace (S (length pre)) with (length (pre ++ [f (length pre) old]))
        by (rewrite length_app; cbn [length]; lia).
      apply IH; rewrite length_app; cbn [length] in *; lia. }
  apply (H l [] n); cbn [length]; lia.
Qed.

Lemma app_cons_shift {A : Type} (pre : list A) (v : A) (rest : list A) :
  pre ++ v :: rest = (pre ++ [v]) ++ rest.
Proof. rewrite <- app_assoc. reflexivity. Qed.

Lemma length_snoc {A : Type} (pre : list A) (v : A) :
  length (pre ++ [v]) = S (length pre).
Proof. rewrite length_app. cbn [length]. lia. Qed.

Lemma facing_loop_fill (theta : R) (phis : list R) :
  forall pre olds post : list point,
    length olds = length phis ->
    facing_loop theta phis (length pre) (pre ++ olds ++ post)
    = Ok (pre ++ map (fun phi => (cos (theta + phi), sin (theta + phi))) phis
          ++ post).
Proof.
  induction phis as [|phi phis IH]; intros pre olds post Hlen.
  - destruct olds; [reflexivity | discriminate].
  - destruct olds as [|old olds]; [discriminate|].
    cbn [facing_loop app map]. rewrite setitem_app. cbn [bind].
    replace (cos (theta + phi) * 1 - sin (theta + phi) * 0)
      with (cos (theta + phi)) by ring.
    replace (sin (theta + phi) * 1 + cos (theta + phi) * 0)
      with (sin (theta + phi)) by ring.
    rewrite (app_cons_shift pre _ (olds ++ post)).
    match goal with
    | |- facing_loop _ _ _ ((pre ++ [?v]) ++ _) = _ =>
        rewrite <- (length_snoc pre v)
    end.
    rewrite IH by (cbn [length] in Hlen; lia).
    rewrite <- app_assoc. reflexivity.
Qed.

Lemma setitem_short {A : Type} (l : list A) (i : nat) (v : A) :
  (length l <= i)%nat -> setitem l i v = Raise IndexError.
Proof.
  revert i. induction l as [|h t IH]; intros i Hi.
  - destruct i; reflexivity.
  - destruct i as [|i]; cbn [length] in Hi; [lia|].
    cbn [setitem]. rewrite IH by lia. reflexivity.
Qed.

Lemma facing_loop_short (theta : R) (phis : list R) :
  forall pre olds : list point,
    (length olds < length phis)%nat ->
    facing_loop theta phis (length pre) (pre ++ olds) = Raise IndexError.
Proof.
  induction phis as [|phi phis IH]; intros pre olds Hlen;
    [cbn [length] in Hlen; lia|].
  cbn [facing_loop]. destruct olds as [|old olds].
  - rewrite setitem_short by (rewrite app_nil_r; lia). reflexivity.
  - rewrite setitem_app. cbn [bind].
    rewrite (app_cons_shift pre _ olds).
    match goal with
    | |- facing_loop _ _ _ ((pre ++ [?v]) ++ _) = _ =>
        rewrite <- (length_snoc pre v)
    end.
    apply IH. cbn [length] in Hlen. lia.
Qed.

Lemma get_facing_tof_value (cls : RobotClass) (self : Robot) :
  (length (_phi_tof cls) <= length (_v_face cls))%nat ->
  let l := facings self (_phi_tof cls)
           ++ skipn (length (_phi_tof cls)) (_v_face cls) in
  get_facing_tof cls self = Ok (with_v_face cls l, l).
Proof.
  intros Hn. cbv zeta. unfold get_facing_tof.
  pose proof (facing_loop_fill (_theta self) (_phi_tof cls) []
                (firstn (length (_phi_tof cls)) (_v_face cls))
                (skipn (length (_phi_tof cls)) (_v_face cls))) as H.
  cbn [app length] in H. rewrite firstn_skipn in H.
  rewrite H by (rewrite length_firstn; lia). reflexivity.
Qed.

Lemma facings_nth (self : Robot) (phis rest : list R) (post : list point)
    (k : nat) :
  (k < length phis)%nat ->
  nth k (facings self phis ++ post) (0, 0)
  = (cos (_theta self + nth k phis 0), sin (_theta self + nth k phis 0)).
Proof.
  intros Hk. unfold facings.
  rewrite app_nth1 by (rewrite length_map; exact Hk).
  rewrite (nth_indep _ (0, 0) (cos (_theta self + 0), sin (_theta self + 0)))
    by (rewrite length_map; exact Hk).
  apply (map_nth (fun phi => (cos (_theta self + phi),
                              sin (_theta self + phi)))).
Qed.

(** What the loops of [get_pos_tof] and [get_far_tof] write into slot [k]:
    the point at distance [g t_k] in the direction of sensor [k]. *)
Lemma mount_loop (cls : RobotClass) (self : Robot) (g : R -> R)
    (v_face slots : list point) :
  (length (_phi_tof cls) <= length (_t_tof cls))%nat ->
  (length (_phi_tof cls) <= length slots)%nat ->
  (exists rest, v_face = facings self (_phi_tof cls) ++ rest) ->
  for_range (length (_phi_tof cls)) 0
    (fun i slot =>
       f <- getitem v_face i ;;
       t <- getitem (_t_tof cls) i ;;
       setitem slot i (fst (_coords self) + fst f * g t,
                       snd (_coords self) + snd f * g t))
    slots
  = Ok (imap (fun k _ => mount self (nth k (_phi_tof cls) 0)
                           (g (nth k (_t_tof cls) 0)))
          0 (firstn (length (_phi_tof cls)) slots)
        ++ skipn (length (_phi_tof cls)) slots).
Proof.
  intros Ht Hs [rest Hvf].
  apply for_range_first_slots; [|exact Hs].
  intros k pre old post Hk Hpre.
  rewrite (getitem_nth v_face k (0, 0))
    by (rewrite Hvf, length_app; unfold facings; rewrite length_map; lia).
  rewrite Hvf, (facings_nth self _ (_phi_tof cls)) by exact Hk.
  cbn [bind]. rewrite (getitem_nth (_t_tof cls) k 0) by lia.
  cbn [bind fst snd]. subst k. rewrite setitem_app. reflexivity.
Qed.

Lemma get_pos_tof_value (cls : RobotClass) (self : Robot) :
  ring_ready cls ->
  let vf := facings self (_phi_tof cls)
            ++ skipn (length (_phi_tof cls)) (_v_face cls) in
  let l := mounts cls self (fun t => t) (_pos_tof cls) in
  get_pos_tof cls self
  = Ok (mkRobotClass (_phi_tof cls) (_t_tof cls) vf l (_far_tof cls), l).
Proof.
  intros (Ht & Hv & Hp & Hf). cbv zeta. unfold get_pos_tof.
  rewrite (get_facing_tof_value cls self Hv). cbn [bind].
  unfold with_v_face, with_pos_tof.
  cbn [_phi_tof _t_tof _v_face _pos_tof _far_tof].
  rewrite (mount_loop cls self (fun t => t)) by (eauto; assumption).
  reflexivity.
Qed.

Lemma get_far_tof_value (cls : RobotClass) (self : Robot) :
  ring_ready cls ->
  let vf := facings self (_phi_tof cls)
            ++ skipn (length (_phi_tof cls)) (_v_face cls) in
  let l := mounts cls self (fun t => t + _rng_tof) (_far_tof cls) in
  get_far_tof cls self
  = Ok (mkRobotClass (_phi_tof cls) (_t_tof cls) vf (_pos_tof cls) l, l).
Proof.
  intros (Ht & Hv & Hp & Hf). cbv zeta. unfold get_far_tof.
  rewrite (get_facing_tof_value cls self Hv). cbn [bind].
  unfold with_v_face, with_far_tof.
  cbn [_phi_tof _t_tof _v_face _pos_tof _far_tof].
  rewrite (mount_loop cls self (fun t => t + _rng_tof))
    by (eauto; assumption).
  reflexivity.
Qed.

Lemma mounts_length (cls : RobotClass) (self : Robot) (g : R -> R)
    (slots : list point) :
  (length (_phi_tof cls) <= length slots)%nat ->
  length (mounts cls self g slots) = length slots.
Proof.
  intros Hn. unfold mounts.
  rewrite length_app, imap_length, length_firstn, length_skipn. lia.
Qed.

Lemma mounts_nth_error (cls : RobotClass) (self : Robot) (g : R -> R)
    (slots : list point) (i : nat) (phi t : R) :
  (length (_phi_tof cls) <= length slots)%nat ->
  nth_error (_phi_tof cls) i = Some phi ->
  nth_error (_t_tof cls) i = Some t ->
  nth_error (mounts cls self g slots) i = Some (mount self phi (g t)).
Proof.
  intros Hn Hphi Ht. unfold mounts.
  assert (Hi : (i < length (_phi_tof cls))%nat)
    by (apply nth_error_Some; congruence).
  rewrite nth_error_app1
    by (rewrite imap_length, length_firstn; lia).
  rewrite imap_nth_error. cbn [Nat.add].
  rewrite nth_error_firstn.
  destruct (Nat.ltb_spec i (length (_phi_tof cls))) as [_ | Hge]; [|lia].
  destruct (nth_error slots i) as [old|] eqn:Hold.
  - cbn [option_map].
    rewrite (nth_error_nth _ _ 0 Hphi), (nth_error_nth _ _ 0 Ht).
    reflexivity.
  - apply nth_error_None in Hold. lia.
Qed.

Lemma mounts_beyond (cls : RobotClass) (self : Robot) (g : R -> R)
    (slots : list point) (i : nat) :
  (length (_phi_tof cls) <= length slots)%nat ->
  (length (_phi_tof cls) <= i)%nat ->
  nth_error (mounts cls self g slots) i = nth_error slots i.
Proof.
  intros Hn Hi. unfold mounts.
  rewrite nth_error_app2
    by (rewrite imap_length, length_firstn; lia).
  rewrite imap_length, length_firstn, Nat.min_l by exact Hn.
  rewrite nth_error_skipn. f_equal. lia.
Qed.

Lemma line_hit_ok (a b p f : point) :
  line_line_intersection a b p f = Ok (line_hit a b p f).
Proof.
  unfold line_hit.
  destruct (line_line_intersection_total a b p f) as (d & -> & _).
  reflexivity.
Qed.

Lemma circle_hit_ok (c : point) (r : R) (p f : point) :
  circle_line_intersection c r p f = Ok (circle_hit c r p f).
Proof.
  unfold circle_hit.
  destruct (circle_line_intersection_total c r p f) as (d & -> & _).
  reflexivity.
Qed.

Lemma pad_distances_length (cls : RobotClass) (dists : list R) :
  (length (_phi_tof cls) <= length (pad_distances cls dists))%nat.
Proof.
  unfold pad_distances.
  destruct (Nat.eqb_spec (length dists) (length (_phi_tof cls))) as [E | E].
  - lia.
  - rewrite length_app, repeat_length. lia.
Qed.

(** The loop of a query: slot [k] keeps the nearer of what it holds and
    what the probe of sensor [k] gives. *)
Lemma query_loop (n : nat) (probe : nat -> R) (dists : list R)
    (body : nat -> list R -> py (list R)) :
  (forall (k : nat) (s : list R) (old : R),
     (k < n)%nat -> getitem s k = Ok old ->
     body k s = (if Rltb (probe k) old && Rltb 0 (probe k)
                 then setitem s k (probe k) else Ok s)) ->
  (n <= length dists)%nat ->
  for_range n 0 body dists
  = Ok (imap (fun k old => keep_nearer (probe k) old) 0 (firstn n dists)
        ++ skipn n dists).
Proof.
  intros Hbody Hn. apply for_range_first_slots; [|exact Hn].
  intros k pre old post Hk Hpre.
  rewrite (Hbody k _ old Hk) by (subst k; apply getitem_middle).
  unfold keep_nearer.
  destruct (Rltb (probe k) old && Rltb 0 (probe k)).
  - subst k. apply setitem_app.
  - reflexivity.
Qed.

Lemma ring_ready_after (cls : RobotClass) (vf pos far : list point) :
  ring_ready cls ->
  length vf = length (_v_face cls) ->
  length pos = length (_pos_tof cls) ->
  length far = length (_far_tof cls) ->
  ring_ready (mkRobotClass (_phi_tof cls) (_t_tof cls) vf pos far).
Proof.
  intros (Ht & Hv & Hp & Hf) Ev Ep Ef. unfold ring_ready.
  cbn [_phi_tof _t_tof _v_face _pos_tof _far_tof]. lia.
Qed.

Lemma facings_length (cls : RobotClass) (self : Robot) :
  (length (_phi_tof cls) <= length (_v_face cls))%nat ->
  length (facings self (_phi_tof cls)
          ++ skipn (length (_phi_tof cls)) (_v_face cls))
  = length (_v_face cls).
Proof.
  intros H. unfold facings. rewrite length_app, length_map, length_skipn.
  lia.
Qed.

(** The class and the two lists of points that a query works on. *)
Lemma query_getters (cls : RobotClass) (self : Robot) :
  ring_ready cls ->
  let vf := facings self (_phi_tof cls)
            ++ skipn (length (_phi_tof cls)) (_v_face cls) in
  let pos := mounts cls self (fun t => t) (_pos_tof cls) in
  let far := mounts cls self (fun t => t + _rng_tof) (_far_tof cls) in
  ('(cls1, pos_tof) <- get_pos_tof cls self ;;
   '(cls2, far_tof) <- get_far_tof cls1 self ;;
   Ok (cls2, pos_tof, far_tof))
  = Ok (mkRobotClass (_phi_tof cls) (_t_tof cls) vf pos far, pos, far).
Proof.
  intros Hready. cbv zeta.
  rewrite (get_pos_tof_value cls self Hready). cbn [bind].
  destruct Hready as (Ht & Hv & Hp & Hf).
  rewrite get_far_tof_value.
  - cbn [bind _phi_tof _t_tof _v_face _pos_tof _far_tof].
    assert (El : length (facings self (_phi_tof cls))
                 = length (_phi_tof cls)) by apply length_map.
    rewrite skipn_app, El, Nat.sub_diag, skipn_all2 by lia.
    cbn [skipn app]. reflexivity.
  - apply ring_ready_after; [repeat split; assumption | | | reflexivity].
    + apply facings_length, Hv.
    + apply mounts_length, Hp.
Qed.

Lemma get_distance_to_line_obstacle_value (cls : RobotClass) (self : Robot)
    (start_line end_line : point) (dist_to_obstacles : list R) :
  ring_ready cls ->
  let n := length (_phi_tof cls) in
  let vf := facings self (_phi_tof cls) ++ skipn n (_v_face cls) in
  let pos := mounts cls self (fun t => t) (_pos_tof cls) in
  let far := mounts cls self (fun t => t + _rng_tof) (_far_tof cls) in
  let padded := pad_distances cls dist_to_obstacles in
  get_distance_to_line_obstacle cls self start_line end_line
    dist_to_obstacles
  = Ok (mkRobotClass (_phi_tof cls) (_t_tof cls) vf pos far,
        imap (fun k old =>
                keep_nearer
                  (line_hit start_line end_line
                     (nth k pos (0, 0)) (nth k far (0, 0))
                   + nth k (_t_tof cls) 0) old)
          0 (firstn n padded)
        ++ skipn n padded).
Proof.
  intros Hready. cbv zeta.
  pose proof (query_getters cls self Hready) as Hg. cbv zeta in Hg.
  unfold get_distance_to_line_obstacle.
  destruct (get_pos_tof cls self) as [[cls1 pos_tof] | |];
    cbn [bind] in Hg |- *; try discriminate.
  destruct (get_far_tof cls1 self) as [[cls2 far_tof] | |];
    cbn [bind] in Hg |- *; try discriminate.
  injection Hg as -> -> ->.
  cbn [_phi_tof _t_tof].
  destruct Hready as (Ht & Hv & Hp & Hf).
  rewrite (query_loop (length (_phi_tof cls))
             (fun k => line_hit start_line end_line
                         (nth k (mounts cls self (fun t => t)
                                   (_pos_tof cls)) (0, 0))
                         (nth k (mounts cls self (fun t => t + _rng_tof)
                                   (_far_tof cls)) (0, 0))
                       + nth k (_t_tof cls) 0)).
  - reflexivity.
  - intros k s old Hk Hold.
    rewrite (getitem_nth _ k (0, 0)) by (rewrite mounts_length; lia).
    cbn [bind].
    rewrite (getitem_nth _ k (0, 0)) by (rewrite mounts_length; lia).
    cbn [bind]. rewrite line_hit_ok. cbn [bind].
    rewrite (getitem_nth _ k 0) by lia. cbn [bind].
    rewrite Hold. reflexivity.
  - apply pad_distances_length.
Qed.

Lemma get_distance_to_circular_obstacle_value (cls : RobotClass)
    (self : Robot) (pos_obstacle : point) (obstacle_radius : R)
    (dist_to_obstacles : list R) :
  ring_ready cls ->
  let n := length (_phi_tof cls) in
  let vf := facings self (_phi_tof cls) ++ skipn n (_v_face cls) in
  let pos := mounts cls self (fun t => t) (_pos_tof cls) in
  let far := mounts cls self (fun t => t + _rng_tof) (_far_tof cls) in
  let padded := pad_distances cls dist_to_obstacles in
  get_distance_to_circular_obstacle cls self pos_obstacle obstacle_radius
    dist_to_obstacles
  = Ok (mkRobotClass (_phi_tof cls) (_t_tof cls) vf pos far,
        imap (fun k old =>
                keep_nearer
                  (circle_hit pos_obstacle obstacle_radius
                     (nth k pos (0, 0)) (nth k far (0, 0))) old)
          0 (firstn n padded)
        ++ skipn n padded).
Proof.
  intros Hready. cbv zeta.
  pose proof (query_getters cls self Hready) as Hg. cbv zeta in Hg.
  unfold get_distance_to_circular_obstacle.
  destruct (get_pos_tof cls self) as [[cls1 pos_tof] | |];
    cbn [bind] in Hg |- *; try discriminate.
  destruct (get_far_tof cls1 self) as [[cls2 far_tof] | |];
    cbn [bind] in Hg |- *; try discriminate.
  injection Hg as -> -> ->.
  cbn [_phi_tof _t_tof].
  destruct Hready as (Ht & Hv & Hp & Hf).
  rewrite (query_loop (length (_phi_tof cls))
             (fun k => circle_hit pos_obstacle obstacle_radius
                         (nth k (mounts cls self (fun t => t)
                                   (_pos_tof cls)) (0, 0))
                         (nth k (mounts cls self (fun t => t + _rng_tof)
                                   (_far_tof cls)) (0, 0)))).
  - reflexivity.
  - intros k s old Hk Hold.
    rewrite (getitem_nth _ k (0, 0)) by (rewrite mounts_length; lia).
    cbn [bind].
    rewrite (getitem_nth _ k (0, 0)) by (rewrite mounts_length; lia).
    cbn [bind]. rewrite circle_hit_ok. cbn [bind].
    rewrite Hold. reflexivity.
  - apply pad_distances_length.
Qed.

Lemma unit_facing (a t : R) :
  (cos a * t) * (cos a * t) + (sin a * t) * (sin a * t) = t * t.
Proof.
  pose proof (sin2_cos2 a) as H. unfold Rsqr in H.
  transitivity ((sin a * sin a + cos a * cos a) * (t * t)); [ring|].
  rewrite H. ring.
Qed.

(** X12. On a class whose lists have a slot for every sensor,
    [get_pos_tof] followed by [get_far_tof] returns: sensor [i] sits at its
    mount offset [t] from the robot centre, in the direction
    [_theta + phi] of its bearing; the far point lies [_rng_tof] further
    out in the same direction.  So the sensor is [t] away from the centre
    and every ray is exactly [_rng_tof] long, whatever the pose. *)
Theorem tof_ray_of_sensor (cls : RobotClass) (self : Robot) (i : nat)
    (phi t : R) :
  ring_ready cls ->
  nth_error (_phi_tof cls) i = Some phi ->
  nth_error (_t_tof cls) i = Some t ->
  exists (cls1 cls2 : RobotClass) (pos_tof far_tof : list point)
         (p f : point),
    get_pos_tof cls self = Ok (cls1, pos_tof) /\
    get_far_tof cls1 self = Ok (cls2, far_tof) /\
    nth_error pos_tof i = Some p /\
    nth_error far_tof i = Some f /\
    p = (fst (_coords self) + cos (_theta self + phi) * t,
         snd (_coords self) + sin (_theta self + phi) * t) /\
    f = (fst p + cos (_theta self + phi) * _rng_tof,
         snd p + sin (_theta self + phi) * _rng_tof) /\
    dist2 p (_coords self) = t * t /\
    dist2 f p = _rng_tof * _rng_tof.
Proof.
  intros Hready Hphi Ht.
  pose proof (get_pos_tof_value cls self Hready) as Hp. cbv zeta in Hp.
  destruct Hready as (Hlt & Hlv & Hlp & Hlf).
  eexists _, _, _, _, _, _.
  split; [exact Hp|].
  split.
  { apply get_far_tof_value. apply ring_ready_after;
      [repeat split; assumption | | | reflexivity].
    - apply facings_length, Hlv.
    - apply mounts_length, Hlp. }
  cbv zeta. cbn [_phi_tof _t_tof _v_face _pos_tof _far_tof].
  split; [apply (mounts_nth_error cls self (fun t => t)); eassumption|].
  split.
  { apply (mounts_nth_error
             (mkRobotClass (_phi_tof cls) (_t_tof cls)
                (facings self (_phi_tof cls)
                 ++ skipn (length (_phi_tof cls)) (_v_face cls))
                (mounts cls self (fun t => t) (_pos_tof cls))
                (_far_tof cls))
             self (fun t => t + _rng_tof) (_far_tof cls) i phi t);
      cbn [_phi_tof _t_tof]; assumption. }
  unfold mount, dist2. cbn [fst snd].
  split; [reflexivity|].
  split; [f_equal; ring|].
  split.
  - rewrite <- (unit_facing (_theta self + phi) t). ring.
  - rewrite <- (unit_facing (_theta self + phi) _rng_tof). ring.
Qed.

Lemma tof_ray_of_sensor_witness :
  let cls := mkRobotClass [PI / 2] [0.2] [(0, 0)] [(0, 0)] [(0, 0)] in
  let self := snd (__init__ class_body 2 3 0 "robot" 0) in
  exists (cls1 cls2 : RobotClass) (pos_tof far_tof : list point)
         (p f : point),
    get_pos_tof cls self = Ok (cls1, pos_tof) /\
    get_far_tof cls1 self = Ok (cls2, far_tof) /\
    nth_error pos_tof 0 = Some p /\
    nth_error far_tof 0 = Some f /\
    p = (fst (_coords self) + cos (_theta self + PI / 2) * 0.2,
         snd (_coords self) + sin (_theta self + PI / 2) * 0.2) /\
    f = (fst p + cos (_theta self + PI / 2) * _rng_tof,
         snd p + sin (_theta self + PI / 2) * _rng_tof) /\
    dist2 p (_coords self) = 0.2 * 0.2 /\
    dist2 f p = _rng_tof * _rng_tof.
Proof.
  cbv zeta.
  apply (tof_ray_of_sensor
           (mkRobotClass [PI / 2] [0.2] [(0, 0)] [(0, 0)] [(0, 0)])
           (snd (__init__ class_body 2 3 0 "robot" 0)) 0 (PI / 2) 0.2).
  - unfold ring_ready. cbn [_phi_tof _t_tof _v_face _pos_tof _far_tof length].
    lia.
  - reflexivity.
  - reflexivity.
Defined.

(** X13. What the getter leaves alone.  [get_pos_tof] rewrites the facing
    vectors and the sensor positions of the sensors only: the bearings, the
    mount offsets and the far points stay, no list changes its length, and
    a slot past the last sensor keeps what it held.  The facing vector it
    leaves for sensor [i] is the unit vector of [_theta + phi]. *)
Theorem get_pos_tof_frame (cls : RobotClass) (self : Robot) :
  ring_ready cls ->
  exists (cls1 : RobotClass) (pos_tof : list point),
    get_pos_tof cls self = Ok (cls1, pos_tof) /\
    _pos_tof cls1 = pos_tof /\
    _phi_tof cls1 = _phi_tof cls /\
    _t_tof cls1 = _t_tof cls /\
    _far_tof cls1 = _far_tof cls /\
    length pos_tof = length (_pos_tof cls) /\
    length (_v_face cls1) = length (_v_face cls) /\
    (forall j : nat, (length (_phi_tof cls) <= j)%nat ->
       nth_error pos_tof j = nth_error (_pos_tof cls) j /\
       nth_error (_v_face cls1) j = nth_error (_v_face cls) j) /\
    (forall (i : nat) (phi : R), nth_error (_phi_tof cls) i = Some phi ->
       nth_error (_v_face cls1) i
       = Some (cos (_theta self + phi), sin (_theta self + phi))) /\
    ring_ready cls1.
Proof.
  intros Hready.
  pose proof (get_pos_tof_value cls self Hready) as Hp. cbv zeta in Hp.
  destruct Hready as (Hlt & Hlv & Hlp & Hlf).
  eexists _, _. split; [exact Hp|].
  cbn [_phi_tof _t_tof _v_face _pos_tof _far_tof].
  assert (El : length (facings self (_phi_tof cls))
               = length (_phi_tof cls)) by apply length_map.
  repeat (split; [reflexivity|]).
  split; [apply mounts_length, Hlp|].
  split; [apply facings_length, Hlv|].
  split; [|split].
  - intros j Hj. split; [apply mounts_beyond; assumption|].
    rewrite nth_error_app2 by lia. rewrite El.
    rewrite nth_error_skipn. f_equal. lia.
  - intros i phi Hi.
    assert (Hlt' : (i < length (_phi_tof cls))%nat)
      by (apply nth_error_Some; congruence).
    rewrite nth_error_app1 by lia.
    unfold facings. rewrite nth_error_map, Hi. reflexivity.
  - apply ring_ready_after;
      [repeat split; assumption | | | reflexivity].
    + apply facings_length, Hlv.
    + apply mounts_length, Hlp.
Qed.

Lemma get_pos_tof_frame_witness :
  let cls := mkRobotClass [0] [0.2] [(0, 0); (5, 5)] [(0, 0); (6, 6)]
               [(0, 0)] in
  let self := snd (__init__ class_body 2 3 0 "robot" 0) in
  exists (cls1 : RobotClass) (pos_tof : list point),
    get_pos_tof cls self = Ok (cls1, pos_tof) /\
    _pos_tof cls1 = pos_tof /\
    _phi_tof cls1 = _phi_tof cls /\
    _t_tof cls1 = _t_tof cls /\
    _far_tof cls1 = _far_tof cls /\
    length pos_tof = length (_pos_tof cls) /\
    length (_v_face cls1) = length (_v_face cls) /\
    (forall j : nat, (length (_phi_tof cls) <= j)%nat ->
       nth_error pos_tof j = nth_error (_pos_tof cls) j /\
       nth_error (_v_face cls1) j = nth_error (_v_face cls) j) /\
    (forall (i : nat) (phi : R), nth_error (_phi_tof cls) i = Some phi ->
       nth_error (_v_face cls1) i
       = Some (cos (_theta self + phi), sin (_theta self + phi))) /\
    ring_ready cls1.
Proof.
  cbv zeta.
  apply (get_pos_tof_frame
           (mkRobotClass [0] [0.2] [(0, 0); (5, 5)] [(0, 0); (6, 6)]
              [(0, 0)])
           (snd (__init__ class_body 2 3 0 "robot" 0))).
  unfold ring_ready. cbn [_phi_tof _t_tof _v_face _pos_tof _far_tof length].
  lia.
Defined.

(** ** The shared lists after constructions *)

Lemma append_beams_lists (n : nat) :
  forall (i : nat) (phi t : list R),
    append_beams n i phi t
    = (phi ++ map (fun k => INR k * _angle_inc + _angle_min) (seq i n),
       t ++ repeat _offset_tof n).
Proof.
  induction n as [|n IH]; intros i phi t; cbn [append_beams seq map repeat].
  - now rewrite !app_nil_r.
  - rewrite IH, <- !app_assoc. reflexivity.
Qed.

Lemma append_slots_length (n : nat) :
  forall l : list point, length (append_slots n l) = (length l + n)%nat.
Proof.
  induction n as [|n IH]; intros l; cbn [append_slots].
  - lia.
  - rewrite IH, length_app. cbn [length]. lia.
Qed.

Lemma init_keeps_lists (j : nat) (cls : RobotClass) (x y theta : R)
    (name : string) (now : R) :
  lists_after j cls ->
  lists_after (S j) (fst (__init__ cls x y theta name now)).
Proof.
  unfold lists_after. intros (Hphi & Ht & Hv & Hp & Hf & Hoff & Hbear).
  unfold __init__. cbv zeta. rewrite append_beams_lists.
  cbn [fst snd _phi_tof _t_tof _v_face _pos_tof _far_tof].
  rewrite !append_slots_length, !length_app, length_map, length_seq,
    repeat_length.
  generalize dependent _laserbeams. intros n Hphi Ht Hv Hp Hf Hbear.
  repeat split; try nia.
  - apply Forall_app. split; [exact Hoff|].
    apply Forall_forall. intros t Hin. now apply repeat_spec in Hin.
  - intros r i Hr Hi.
    destruct (Nat.eq_dec r j) as [-> | Hne].
    + rewrite nth_error_app2 by lia.
      replace (n * j + i - length (_phi_tof cls))%nat with i by lia.
      rewrite nth_error_map.
      rewrite (nth_error_nth' (seq 0 n) 0%nat)
        by (rewrite length_seq; exact Hi).
      rewrite seq_nth by exact Hi. reflexivity.
    + rewrite nth_error_app1 by nia. apply Hbear; [lia | exact Hi].
Qed.

Lemma construct_all_lists (args : list (R * R * R * string * R)) :
  forall (j : nat) (cls : RobotClass),
    lists_after j cls ->
    lists_after (j + length args) (fst (construct_all cls args)).
Proof.
  induction args as [|[[[[x y] theta] name] now] args IH];
    intros j cls Hinv; cbn [construct_all fst length].
  - rewrite Nat.add_0_r. exact Hinv.
  - replace (j + S (length args))%nat with (S j + length args)%nat by lia.
    apply IH. apply (init_keeps_lists j cls x y theta name now Hinv).
Qed.

Lemma class_body_lists : lists_after 0 class_body.
Proof.
  unfold lists_after, class_body.
  cbn [_phi_tof _t_tof _v_face _pos_tof _far_tof length].
  rewrite Nat.mul_0_r. repeat split; try reflexivity.
  - constructor.
  - intros r i Hr. lia.
Qed.

Lemma lists_after_ready (j : nat) (cls : RobotClass) :
  lists_after j cls -> ring_ready cls.
Proof.
  unfold lists_after, ring_ready.
  intros (Hphi & Ht & Hv & Hp & Hf & _).
  generalize dependent _laserbeams. intros n Hphi Ht Hv Hp Hf.
  repeat split; try nia; destruct j; nia.
Qed.

(** X14. The shared lists after the robots of a simulation have been
    constructed, one after the other, on the class as the class body leaves
    it.  With [k] robots, the bearings and the mount offsets are [271 * k]
    long: the beams of robot [r] are the entries [271 * r .. 271 * r + 270],
    beam [i] of every robot at the bearing [i * _angle_inc + _angle_min],
    and every mount offset is [_offset_tof].  Each construction appends a
    slot for every beam of the list so far, its own and those of the robots
    before it, so the three lists of slots are [271 * k * (k + 1) / 2] long:
    there is a slot for every sensor, and the getters find what they
    index. *)
Theorem shared_lists_after_constructions
    (args : list (R * R * R * string * R)) :
  let cls := fst (construct_all class_body args) in
  let k := length args in
  length (_t_tof cls) = (271 * k)%nat /\
  (2 * length (_v_face cls) = 271 * k * (k + 1))%nat /\
  (2 * length (_pos_tof cls) = 271 * k * (k + 1))%nat /\
  (2 * length (_far_tof cls) = 271 * k * (k + 1))%nat /\
  Forall (fun t => t = _offset_tof) (_t_tof cls) /\
  (forall r i : nat, (r < k)%nat -> (i < 271)%nat ->
     nth_error (_phi_tof cls) (271 * r + i)
     = Some (INR i * _angle_inc + _angle_min)) /\
  ring_ready cls.
Proof.
  cbv zeta.
  pose proof (construct_all_lists args 0 class_body class_body_lists) as H.
  cbn [Nat.add] in H.
  pose proof (lists_after_ready _ _ H) as Hready.
  destruct H as (Hphi & Ht & Hv & Hp & Hf & Hoff & Hbear).
  change _laserbeams with 271%nat in *.
  repeat (split; [assumption|]). exact Hready.
Qed.

(** C10. The five ToF lists are containers of the class, shared by every
    instance, and every construction appends to each of them.  After [k]
    robots have been constructed one after the other, on the class as the
    class body leaves it, [get_tof_count] returns [k * 271] on every one of
    them, the first as well as the last; the bearings and the mount offsets
    are [271 * k] long and the facing vectors, the positions and the far
    points [271 * k * (k + 1) / 2].  One more construction makes the
    bearings and the mount offsets longer by 271 and the three lists of
    slots by [271 * (k + 1)], and [get_tof_count] then returns
    [(k + 1) * 271] on every robot that was there before it. *)
Theorem tof_count_after_constructions
    (args : list (R * R * R * string * R)) :
  let world := construct_all class_body args in
  let cls := fst world in
  let k := length args in
  length (snd world) = k /\
  Forall (fun self => get_tof_count cls self = (k * 271)%nat) (snd world) /\
  length (_phi_tof cls) = (271 * k)%nat /\
  length (_t_tof cls) = (271 * k)%nat /\
  (2 * length (_v_face cls) = 271 * k * (k + 1))%nat /\
  (2 * length (_pos_tof cls) = 271 * k * (k + 1))%nat /\
  (2 * length (_far_tof cls) = 271 * k * (k + 1))%nat /\
  forall (x y theta : R) (name : string) (now : R),
    let cls' := fst (__init__ cls x y theta name now) in
    length (_phi_tof cls') = (length (_phi_tof cls) + 271)%nat /\
    length (_t_tof cls') = (length (_t_tof cls) + 271)%nat /\
    length (_v_face cls') = (length (_v_face cls) + 271 * (k + 1))%nat /\
    length (_pos_tof cls') = (length (_pos_tof cls) + 271 * (k + 1))%nat /\
    length (_far_tof cls') = (length (_far_tof cls) + 271 * (k + 1))%nat /\
    Forall (fun self => get_tof_count cls' self = ((k + 1) * 271)%nat)
      (snd world).
Proof.
  cbv zeta.
  destruct (construct_all_count args class_body) as [_ Hrobots].
  pose proof (construct_all_lists args 0 class_body class_body_lists) as H.
  cbn [Nat.add] in H.
  set (cls := fst (construct_all class_body args)) in *.
  assert (Hnext : forall (x y theta : R) (name : string) (now : R),
            lists_after (S (length args))
              (fst (__init__ cls x y theta name now)))
    by (intros; apply init_keeps_lists, H).
  unfold lists_after in H, Hnext.
  change _laserbeams with 271%nat in *.
  destruct H as (Hphi & Ht & Hv & Hp & Hf & _).
  split; [exact Hrobots|].
  split.
  { apply Forall_forall. intros self _. unfold get_tof_count. lia. }
  repeat (split; [assumption|]).
  intros x y theta name now.
  destruct (Hnext x y theta name now) as (Hphi' & Ht' & Hv' & Hp' & Hf' & _).
  split; [lia|]. split; [lia|].
  split; [nia|]. split; [nia|]. split; [nia|].
  apply Forall_forall. intros self _. unfold get_tof_count. lia.
Qed.

(** ** The two queries over the ring *)

Lemma imap_ext {A B : Type} (f g : nat -> A -> B) (l : list A) :
  forall i : nat,
    (forall k x, (i <= k < i + length l)%nat -> f k x = g k x) ->
    imap f i l = imap g i l.
Proof.
  induction l as [|x l IH]; intros i H; cbn [imap]; [reflexivity|].
  cbn [length] in H. rewrite (H i x) by lia.
  rewrite (IH (S i)); [reflexivity|].
  intros k y Hk. apply H. lia.
Qed.

Lemma mounts_nth (cls : RobotClass) (self : Robot) (g : R -> R)
    (slots : list point) (k : nat) :
  ring_ready cls ->
  (length (_phi_tof cls) <= length slots)%nat ->
  (k < length (_phi_tof cls))%nat ->
  nth k (mounts cls self g slots) (0, 0)
  = mount self (nth k (_phi_tof cls) 0) (g (nth k (_t_tof cls) 0)).
Proof.
  intros (Ht & _) Hs Hk.
  apply nth_error_nth.
  apply mounts_nth_error; [exact Hs | |];
    apply nth_error_nth'; lia.
Qed.

Lemma sweep_nth_error (n : nat) (probe : nat -> R) (l : list R) (i : nat) :
  (n <= length l)%nat ->
  nth_error (sweep n probe l) i
  = if Nat.ltb i n
    then option_map (keep_nearer (probe i)) (nth_error l i)
    else nth_error l i.
Proof.
  intros Hn. unfold sweep.
  destruct (Nat.ltb_spec i n) as [Hi | Hi].
  - rewrite nth_error_app1 by (rewrite imap_length, length_firstn; lia).
    rewrite imap_nth_error. cbn [Nat.add].
    rewrite nth_error_firstn.
    destruct (Nat.ltb_spec i n); [reflexivity | lia].
  - rewrite nth_error_app2 by (rewrite imap_length, length_firstn; lia).
    rewrite imap_length, length_firstn, nth_error_skipn.
    f_equal. lia.
Qed.

Lemma sweep_length (n : nat) (probe : nat -> R) (l : list R) :
  (n <= length l)%nat -> length (sweep n probe l) = length l.
Proof.
  intros Hn. unfold sweep.
  rewrite length_app, imap_length, length_firstn, length_skipn. lia.
Qed.

Lemma sweep_app (n : nat) (probe : nat -> R) (l r : list R) :
  (n <= length l)%nat -> sweep n probe (l ++ r) = sweep n probe l ++ r.
Proof.
  intros Hn. unfold sweep.
  rewrite firstn_app, skipn_app.
  replace (n - length l)%nat with 0%nat by lia.
  cbn [firstn skipn]. rewrite app_nil_r, <- app_assoc. reflexivity.
Qed.

Lemma keep_nearer_comm (a b old : R) :
  keep_nearer a (keep_nearer b old) = keep_nearer b (keep_nearer a old).
Proof.
  unfold keep_nearer, Rltb.
  destruct (Rlt_dec b old), (Rlt_dec 0 b), (Rlt_dec a old), (Rlt_dec 0 a);
    cbn [andb];
    repeat match goal with
           | |- context [Rlt_dec ?x ?y] => destruct (Rlt_dec x y)
           end; cbn [andb]; try reflexivity; lra.
Qed.

Lemma keep_nearer_bounds (d old : R) :
  keep_nearer d old <= old /\
  (keep_nearer d old = old \/ (keep_nearer d old = d /\ 0 < d < old)).
Proof.
  unfold keep_nearer, Rltb.
  destruct (Rlt_dec d old), (Rlt_dec 0 d); cbn [andb]; lra.
Qed.

Lemma sweep_comm (n : nat) (p q : nat -> R) (l : list R) :
  (n <= length l)%nat ->
  sweep n p (sweep n q l) = sweep n q (sweep n p l).
Proof.
  intros Hn. apply nth_error_ext. intros i.
  rewrite !sweep_nth_error by (rewrite ?sweep_length; lia).
  destruct (Nat.ltb i n); [|reflexivity].
  destruct (nth_error l i) as [old|]; cbn [option_map]; [|reflexivity].
  now rewrite keep_nearer_comm.
Qed.

(** The class that a query leaves: the facing vectors, the sensor
    positions and the far points of the current pose. *)
Lemma line_query_sweep (cls : RobotClass) (self : Robot)
    (start_line end_line : point) (dist_to_obstacles : list R) :
  ring_ready cls ->
  let n := length (_phi_tof cls) in
  get_distance_to_line_obstacle cls self start_line end_line
    dist_to_obstacles
  = Ok (mkRobotClass (_phi_tof cls) (_t_tof cls)
          (facings self (_phi_tof cls) ++ skipn n (_v_face cls))
          (mounts cls self (fun t => t) (_pos_tof cls))
          (mounts cls self (fun t => t + _rng_tof) (_far_tof cls)),
        sweep n (line_probe cls self start_line end_line)
          (pad_distances cls dist_to_obstacles)).
Proof.
  intros Hready. cbv zeta.
  rewrite (get_distance_to_line_obstacle_value cls self _ _ _ Hready).
  cbv zeta. unfold sweep. do 3 f_equal.
  apply imap_ext. intros k old Hk.
  rewrite length_firstn in Hk.
  pose proof Hready as (Ht & Hv & Hp & Hf).
  unfold line_probe. cbv zeta.
  rewrite !mounts_nth by (assumption || lia). reflexivity.
Qed.

Lemma circle_query_sweep (cls : RobotClass) (self : Robot)
    (pos_obstacle : point) (obstacle_radius : R)
    (dist_to_obstacles : list R) :
  ring_ready cls ->
  let n := length (_phi_tof cls) in
  get_distance_to_circular_obstacle cls self pos_obstacle obstacle_radius
    dist_to_obstacles
  = Ok (mkRobotClass (_phi_tof cls) (_t_tof cls)
          (facings self (_phi_tof cls) ++ skipn n (_v_face cls))
          (mounts cls self (fun t => t) (_pos_tof cls))
          (mounts cls self (fun t => t + _rng_tof) (_far_tof cls)),
        sweep n (circle_probe cls self pos_obstacle obstacle_radius)
          (pad_distances cls dist_to_obstacles)).
Proof.
  intros Hready. cbv zeta.
  rewrite (get_distance_to_circular_obstacle_value cls self _ _ _ Hready).
  cbv zeta. unfold sweep. do 3 f_equal.
  apply imap_ext. intros k old Hk.
  rewrite length_firstn in Hk.
  pose proof Hready as (Ht & Hv & Hp & Hf).
  unfold circle_probe. cbv zeta.
  rewrite !mounts_nth by (assumption || lia). reflexivity.
Qed.

Lemma refreshed_ready (cls : RobotClass) (self : Robot) :
  ring_ready cls -> ring_ready (refreshed cls self).
Proof.
  intros Hready. pose proof Hready as (Ht & Hv & Hp & Hf).
  apply ring_ready_after; [exact Hready | | |].
  - apply facings_length, Hv.
  - apply mounts_length, Hp.
  - apply mounts_length, Hf.
Qed.

Lemma mounts_again (cls cls' : RobotClass) (self : Robot) (g : R -> R)
    (slots : list point) :
  ring_ready cls ->
  _phi_tof cls' = _phi_tof cls -> _t_tof cls' = _t_tof cls ->
  (length (_phi_tof cls) <= length slots)%nat ->
  mounts cls' self g (mounts cls self g slots) = mounts cls self g slots.
Proof.
  intros Hready Ephi Et Hs. pose proof Hready as (Ht & _).
  apply nth_error_ext. intros i.
  destruct (Nat.lt_ge_cases i (length (_phi_tof cls))) as [Hi | Hi].
  - rewrite (mounts_nth_error cls' self g _ i
               (nth i (_phi_tof cls) 0) (nth i (_t_tof cls) 0)).
    + symmetry. apply mounts_nth_error; [exact Hs | |];
        apply nth_error_nth'; lia.
    + rewrite Ephi, mounts_length; assumption.
    + rewrite Ephi. apply nth_error_nth'; lia.
    + rewrite Et. apply nth_error_nth'; lia.
  - rewrite (mounts_beyond cls'); rewrite ?Ephi, ?mounts_length;
      try assumption. reflexivity.
Qed.

Lemma refreshed_again (cls : RobotClass) (self : Robot) :
  ring_ready cls ->
  refreshed (refreshed cls self) self = refreshed cls self.
Proof.
  intros Hready. pose proof Hready as (Ht & Hv & Hp & Hf).
  unfold refreshed at 1. unfold refreshed at 1 2 3 4 5 6 7.
  cbn [_phi_tof _t_tof _v_face _pos_tof _far_tof].
  unfold refreshed. f_equal.
  - assert (El : length (facings self (_phi_tof cls))
                 = length (_phi_tof cls)) by apply length_map.
    rewrite skipn_app, El, Nat.sub_diag, skipn_all2 by lia.
    reflexivity.
  - apply mounts_again; (assumption || reflexivity).
  - apply mounts_again; (assumption || reflexivity).
Qed.

Lemma pad_distances_sweep (cls cls' : RobotClass) (probe : nat -> R)
    (dists : list R) :
  _phi_tof cls' = _phi_tof cls ->
  let n := length (_phi_tof cls) in
  pad_distances cls' (sweep n probe (pad_distances cls dists))
  = if Nat.eqb (length (pad_distances cls dists)) n
    then sweep n probe (pad_distances cls dists)
    else sweep n probe (pad_distances cls dists) ++ repeat _rng_tof n.
Proof.
  intros E. cbv zeta. unfold pad_distances at 1.
  rewrite E, sweep_length by apply pad_distances_length. reflexivity.
Qed.

(** X15. One line query, sensor by sensor.  On a class with a slot for
    every sensor the query returns.  With [h] what [line_line_intersection]
    gives for the ray of sensor [i], from its mount point to its far point,
    the reading of the sensor becomes [h + t], the mount offset added, when
    that is positive and below the reading so far, and stays otherwise.  The
    list keeps the length it has after padding, the entries past the
    sensors stay, and no entry ever grows. *)
Theorem line_query_reading (cls : RobotClass) (self : Robot)
    (start_line end_line : point) (dist_to_obstacles : list R)
    (i : nat) (phi t old : R) :
  ring_ready cls ->
  nth_error (_phi_tof cls) i = Some phi ->
  nth_error (_t_tof cls) i = Some t ->
  nth_error (pad_distances cls dist_to_obstacles) i = Some old ->
  exists (cls' : RobotClass) (result : list R) (h : R),
    get_distance_to_line_obstacle cls self start_line end_line
      dist_to_obstacles = Ok (cls', result) /\
    line_line_intersection start_line end_line
      (mount self phi t) (mount self phi (t + _rng_tof)) = Ok h /\
    nth_error result i
    = Some (if Rltb (h + t) old && Rltb 0 (h + t) then h + t else old) /\
    length result = length (pad_distances cls dist_to_obstacles) /\
    (forall j : nat, (length (_phi_tof cls) <= j)%nat ->
       nth_error result j
       = nth_error (pad_distances cls dist_to_obstacles) j) /\
    (forall (j : nat) (x : R), nth_error result j = Some x ->
       exists y : R,
         nth_error (pad_distances cls dist_to_obstacles) j = Some y /\
         x <= y).
Proof.
  intros Hready Hphi Ht Hold.
  pose proof (pad_distances_length cls dist_to_obstacles) as Hpad.
  eexists _, _, _.
  split; [apply line_query_sweep, Hready|]. cbv zeta.
  split; [apply line_hit_ok|].
  assert (Hi : (i < length (_phi_tof cls))%nat)
    by (apply nth_error_Some; congruence).
  split; [|split; [|split]].
  - rewrite sweep_nth_error by exact Hpad.
    destruct (Nat.ltb_spec i (length (_phi_tof cls))); [|lia].
    rewrite Hold. cbn [option_map]. unfold keep_nearer, line_probe.
    cbv zeta.
    rewrite (nth_error_nth _ _ 0 Hphi), (nth_error_nth _ _ 0 Ht).
    reflexivity.
  - apply sweep_length, Hpad.
  - intros j Hj. rewrite sweep_nth_error by exact Hpad.
    destruct (Nat.ltb_spec j (length (_phi_tof cls))); [lia | reflexivity].
  - intros j x. rewrite sweep_nth_error by exact Hpad.
    destruct (Nat.ltb j (length (_phi_tof cls))).
    + destruct (nth_error (pad_distances cls dist_to_obstacles) j)
        as [y|]; cbn [option_map]; [|discriminate].
      intros [= <-]. exists y. split; [reflexivity|].
      apply keep_nearer_bounds.
    + intros ->. exists x. split; [reflexivity | lra].
Qed.

Lemma line_query_reading_witness :
  let cls := mkRobotClass [0] [0.2] [(0, 0)] [(0, 0)] [(0, 0)] in
  let self := snd (__init__ class_body 2 3 0 "robot" 0) in
  exists (cls' : RobotClass) (result : list R) (h : R),
    get_distance_to_line_obstacle cls self (3, 1) (3, 4) [5]
      = Ok (cls', result) /\
    line_line_intersection (3, 1) (3, 4)
      (mount self 0 0.2) (mount self 0 (0.2 + _rng_tof)) = Ok h /\
    nth_error result 0
    = Some (if Rltb (h + 0.2) 5 && Rltb 0 (h + 0.2) then h + 0.2 else 5) /\
    length result = length (pad_distances cls [5]) /\
    (forall j : nat, (length (_phi_tof cls) <= j)%nat ->
       nth_error result j = nth_error (pad_distances cls [5]) j) /\
    (forall (j : nat) (x : R), nth_error result j = Some x ->
       exists y : R,
         nth_error (pad_distances cls [5]) j = Some y /\ x <= y).
Proof.
  cbv zeta.
  apply (line_query_reading
           (mkRobotClass [0] [0.2] [(0, 0)] [(0, 0)] [(0, 0)])
           (snd (__init__ class_body 2 3 0 "robot" 0))
           (3, 1) (3, 4) [5] 0 0 0.2 5).
  - unfold ring_ready. cbn [_phi_tof _t_tof _v_face _pos_tof _far_tof length].
    lia.
  - reflexivity.
  - reflexivity.
  - reflexivity.
Defined.

(** X16. One circle query, sensor by sensor.  As for a segment, but the
    mount offset is not added: with [h] what [circle_line_intersection]
    gives for the ray of sensor [i], the reading becomes [h] itself when
    that is positive and below the reading so far.  A reading taken from a
    circle is a distance from the sensor, one taken from a segment a
    distance from the robot centre. *)
Theorem circle_query_reading (cls : RobotClass) (self : Robot)
    (pos_obstacle : point) (obstacle_radius : R)
    (dist_to_obstacles : list R) (i : nat) (phi t old : R) :
  ring_ready cls ->
  nth_error (_phi_tof cls) i = Some phi ->
  nth_error (_t_tof cls) i = Some t ->
  nth_error (pad_distances cls dist_to_obstacles) i = Some old ->
  exists (cls' : RobotClass) (result : list R) (h : R),
    get_distance_to_circular_obstacle cls self pos_obstacle
      obstacle_radius dist_to_obstacles = Ok (cls', result) /\
    circle_line_intersection pos_obstacle obstacle_radius
      (mount self phi t) (mount self phi (t + _rng_tof)) = Ok h /\
    nth_error result i
    = Some (if Rltb h old && Rltb 0 h then h else old) /\
    length result = length (pad_distances cls dist_to_obstacles) /\
    (forall j : nat, (length (_phi_tof cls) <= j)%nat ->
       nth_error result j
       = nth_error (pad_distances cls dist_to_obstacles) j) /\
    (forall (j : nat) (x : R), nth_error result j = Some x ->
       exists y : R,
         nth_error (pad_distances cls dist_to_obstacles) j = Some y /\
         x <= y).
Proof.
  intros Hready Hphi Ht Hold.
  pose proof (pad_distances_length cls dist_to_obstacles) as Hpad.
  eexists _, _, _.
  split; [apply circle_query_sweep, Hready|]. cbv zeta.
  split; [apply circle_hit_ok|].
  assert (Hi : (i < length (_phi_tof cls))%nat)
    by (apply nth_error_Some; congruence).
  split; [|split; [|split]].
  - rewrite sweep_nth_error by exact Hpad.
    destruct (Nat.ltb_spec i (length (_phi_tof cls))); [|lia].
    rewrite Hold. cbn [option_map]. unfold keep_nearer, circle_probe.
    cbv zeta.
    rewrite (nth_error_nth _ _ 0 Hphi), (nth_error_nth _ _ 0 Ht).
    reflexivity.
  - apply sweep_length, Hpad.
  - intros j Hj. rewrite sweep_nth_error by exact Hpad.
    destruct (Nat.ltb_spec j (length (_phi_tof cls))); [lia | reflexivity].
  - intros j x. rewrite sweep_nth_error by exact Hpad.
    destruct (Nat.ltb j (length (_phi_tof cls))).
    + destruct (nth_error (pad_distances cls dist_to_obstacles) j)
        as [y|]; cbn [option_map]; [|discriminate].
      intros [= <-]. exists y. split; [reflexivity|].
      apply keep_nearer_bounds.
    + intros ->. exists x. split; [reflexivity | lra].
Qed.

Lemma circle_query_reading_witness :
  let cls := mkRobotClass [0] [0.2] [(0, 0)] [(0, 0)] [(0, 0)] in
  let self := snd (__init__ class_body 2 3 0 "robot" 0) in
  exists (cls' : RobotClass) (result : list R) (h : R),
    get_distance_to_circular_obstacle cls self (5, 3) 1 [5]
      = Ok (cls', result) /\
    circle_line_intersection (5, 3) 1
      (mount self 0 0.2) (mount self 0 (0.2 + _rng_tof)) = Ok h /\
    nth_error result 0
    = Some (if Rltb h 5 && Rltb 0 h then h else 5) /\
    length result = length (pad_distances cls [5]) /\
    (forall j : nat, (length (_phi_tof cls) <= j)%nat ->
       nth_error result j = nth_error (pad_distances cls [5]) j) /\
    (forall (j : nat) (x : R), nth_error result j = Some x ->
       exists y : R,
         nth_error (pad_distances cls [5]) j = Some y /\ x <= y).
Proof.
  cbv zeta.
  apply (circle_query_reading
           (mkRobotClass [0] [0.2] [(0, 0)] [(0, 0)] [(0, 0)])
           (snd (__init__ class_body 2 3 0 "robot" 0))
           (5, 3) 1 [5] 0 0 0.2 5).
  - unfold ring_ready. cbn [_phi_tof _t_tof _v_face _pos_tof _far_tof length].
    lia.
  - reflexivity.
  - reflexivity.
  - reflexivity.
Defined.

(** X17. The order of the obstacles does not matter.  A line query
    followed by a circle query on the list that the first one returns
    leaves the same readings, and the same shared lists, as the circle
    query followed by the line query: each reading is the running minimum
    of the positive distances. *)
Theorem obstacle_order_is_irrelevant (cls : RobotClass) (self : Robot)
    (start_line end_line pos_obstacle : point) (obstacle_radius : R)
    (dist_to_obstacles : list R) :
  ring_ready cls ->
  exists (cls' : RobotClass) (readings : list R),
    ('(cls1, d1) <- get_distance_to_line_obstacle cls self
                      start_line end_line dist_to_obstacles ;;
     get_distance_to_circular_obstacle cls1 self
       pos_obstacle obstacle_radius d1)
    = Ok (cls', readings) /\
    ('(cls1, d1) <- get_distance_to_circular_obstacle cls self
                      pos_obstacle obstacle_radius dist_to_obstacles ;;
     get_distance_to_line_obstacle cls1 self start_line end_line d1)
    = Ok (cls', readings).
Proof.
  intros Hready.
  pose proof (refreshed_ready cls self Hready) as Hready'.
  pose proof (pad_distances_length cls dist_to_obstacles) as Hpad.
  rewrite (line_query_sweep cls self _ _ _ Hready).
  rewrite (circle_query_sweep cls self _ _ _ Hready).
  cbv zeta. cbn [bind]. fold (refreshed cls self).
  rewrite (line_query_sweep _ self _ _ _ Hready').
  rewrite (circle_query_sweep _ self _ _ _ Hready').
  cbv zeta. fold (refreshed (refreshed cls self) self).
  rewrite (refreshed_again cls self Hready).
  change (_phi_tof (refreshed cls self)) with (_phi_tof cls).
  change (line_probe (refreshed cls self)) with (line_probe cls).
  change (circle_probe (refreshed cls self)) with (circle_probe cls).
  rewrite !(pad_distances_sweep cls (refreshed cls self)) by reflexivity.
  eexists _, _. split; [reflexivity|]. do 2 f_equal.
  destruct (Nat.eqb _ _).
  - apply sweep_comm, Hpad.
  - rewrite !sweep_app by (rewrite sweep_length; exact Hpad).
    f_equal. apply sweep_comm, Hpad.
Qed.

Lemma obstacle_order_is_irrelevant_witness :
  let cls := mkRobotClass [0] [0.2] [(0, 0)] [(0, 0)] [(0, 0)] in
  let self := snd (__init__ class_body 2 3 0 "robot" 0) in
  exists (cls' : RobotClass) (readings : list R),
    ('(cls1, d1) <- get_distance_to_line_obstacle cls self
                      (3, 1) (3, 4) [] ;;
     get_distance_to_circular_obstacle cls1 self (5, 3) 1 d1)
    = Ok (cls', readings) /\
    ('(cls1, d1) <- get_distance_to_circular_obstacle cls self
                      (5, 3) 1 [] ;;
     get_distance_to_line_obstacle cls1 self (3, 1) (3, 4) d1)
    = Ok (cls', readings).
Proof.
  cbv zeta.
  apply (obstacle_order_is_irrelevant
           (mkRobotClass [0] [0.2] [(0, 0)] [(0, 0)] [(0, 0)])
           (snd (__init__ class_body 2 3 0 "robot" 0))
           (3, 1) (3, 4) (5, 3) 1 []).
  unfold ring_ready. cbn [_phi_tof _t_tof _v_face _pos_tof _far_tof length].
  lia.
Defined.

Lemma keep_nearer_hit (h t old : R) :
  0 <= t < 1 -> h = -1 \/ 0 < h ->
  keep_nearer (h + t) old = if Reqb h (-1) then old else Rmin (h + t) old.
Proof.
  intros Ht Hh. unfold keep_nearer, Rltb, Reqb, Rmin.
  destruct (Req_dec_T h (-1)) as [-> | Hne].
  - destruct (Rlt_dec (-1 + t) old), (Rlt_dec 0 (-1 + t)); cbn [andb];
      try reflexivity; lra.
  - destruct Hh as [Hh | Hh]; [contradiction|].
    destruct (Rlt_dec (h + t) old), (Rlt_dec 0 (h + t)),
      (Rle_dec (h + t) old); cbn [andb]; try reflexivity; lra.
Qed.

(** X18. The readings of the robots of a simulation.  After any number of
    constructions on the class body, beam [i] of robot [r] looks along
    [_theta + i * _angle_inc + _angle_min] from the point [_offset_tof] in
    front of the centre of the querying robot.  A ray that misses, the
    sentinel [-1], leaves the reading as it is; a hit at [h] leaves the
    smaller of the reading and [h + _offset_tof] for a segment, and the
    smaller of the reading and [h] for a circle. *)
Theorem constructed_ring_readings
    (args : list (R * R * R * string * R)) (self : Robot)
    (start_line end_line pos_obstacle : point) (obstacle_radius : R)
    (dist_to_obstacles : list R) (r i : nat) (old : R) :
  let cls := fst (construct_all class_body args) in
  let phi := INR i * _angle_inc + _angle_min in
  let p := mount self phi _offset_tof in
  let f := mount self phi (_offset_tof + _rng_tof) in
  (r < length args)%nat -> (i < 271)%nat ->
  nth_error (pad_distances cls dist_to_obstacles) (271 * r + i) = Some old ->
  exists (cls1 cls2 : RobotClass) (res1 res2 : list R) (h1 h2 : R),
    line_line_intersection start_line end_line p f = Ok h1 /\
    get_distance_to_line_obstacle cls self start_line end_line
      dist_to_obstacles = Ok (cls1, res1) /\
    nth_error res1 (271 * r + i)
    = Some (if Reqb h1 (-1) then old else Rmin (h1 + _offset_tof) old) /\
    circle_line_intersection pos_obstacle obstacle_radius p f = Ok h2 /\
    get_distance_to_circular_obstacle cls self pos_obstacle
      obstacle_radius dist_to_obstacles = Ok (cls2, res2) /\
    nth_error res2 (271 * r + i)
    = Some (if Reqb h2 (-1) then old else Rmin h2 old).
Proof.
  cbv zeta. intros Hr Hi Hold.
  pose proof (construct_all_lists args 0 class_body class_body_lists) as H.
  cbn [Nat.add] in H.
  pose proof (lists_after_ready _ _ H) as Hready.
  pose proof (pad_distances_length (fst (construct_all class_body args))
                dist_to_obstacles) as Hpad.
  destruct H as (Hphi & Ht & _ & _ & _ & Hoff & Hbear).
  change _laserbeams with 271%nat in *.
  specialize (Hbear r i Hr Hi).
  set (cls := fst (construct_all class_body args)) in *.
  assert (Hlt : (271 * r + i < length (_phi_tof cls))%nat) by nia.
  assert (Htv : nth_error (_t_tof cls) (271 * r + i) = Some _offset_tof).
  { rewrite (nth_error_nth' _ 0) by lia. f_equal.
    rewrite Forall_forall in Hoff. apply Hoff, nth_In. lia. }
  destruct (line_line_intersection_total start_line end_line
              (mount self (INR i * _angle_inc + _angle_min) _offset_tof)
              (mount self (INR i * _angle_inc + _angle_min)
                 (_offset_tof + _rng_tof))) as (h1 & Hh1 & Hs1).
  destruct (circle_line_intersection_total pos_obstacle obstacle_radius
              (mount self (INR i * _angle_inc + _angle_min) _offset_tof)
              (mount self (INR i * _angle_inc + _angle_min)
                 (_offset_tof + _rng_tof))) as (h2 & Hh2 & Hs2).
  eexists _, _, _, _, h1, h2.
  split; [exact Hh1|].
  split; [apply line_query_sweep, Hready|].
  split.
  { cbv zeta. rewrite sweep_nth_error by exact Hpad.
    destruct (Nat.ltb_spec (271 * r + i) (length (_phi_tof cls))); [|lia].
    rewrite Hold. cbn [option_map]. unfold line_probe. cbv zeta.
    rewrite (nth_error_nth _ _ 0 Hbear), (nth_error_nth _ _ 0 Htv).
    unfold line_hit. rewrite Hh1.
    rewrite keep_nearer_hit; [reflexivity | unfold _offset_tof; lra | exact Hs1]. }
  split; [exact Hh2|].
  split; [apply circle_query_sweep, Hready|].
  cbv zeta. rewrite sweep_nth_error by exact Hpad.
  destruct (Nat.ltb_spec (271 * r + i) (length (_phi_tof cls))); [|lia].
  rewrite Hold. cbn [option_map]. unfold circle_probe. cbv zeta.
  rewrite (nth_error_nth _ _ 0 Hbear), (nth_error_nth _ _ 0 Htv).
  unfold circle_hit. rewrite Hh2.
  replace h2 with (h2 + 0) at 1 by ring.
  rewrite keep_nearer_hit; [|lra | exact Hs2].
  rewrite Rplus_0_r. reflexivity.
Qed.

Lemma constructed_ring_readings_witness :
  let args := [(2, 3, 0, "robot"%string, 0)] in
  let cls := fst (construct_all class_body args) in
  let self := snd (__init__ class_body 2 3 0 "robot" 0) in
  let phi := INR 0 * _angle_inc + _angle_min in
  let p := mount self phi _offset_tof in
  let f := mount self phi (_offset_tof + _rng_tof) in
  exists (cls1 cls2 : RobotClass) (res1 res2 : list R) (h1 h2 : R),
    line_line_intersection (3, 1) (3, 4) p f = Ok h1 /\
    get_distance_to_line_obstacle cls self (3, 1) (3, 4) []
      = Ok (cls1, res1) /\
    nth_error res1 (271 * 0 + 0)
    = Some (if Reqb h1 (-1) then _rng_tof
            else Rmin (h1 + _offset_tof) _rng_tof) /\
    circle_line_intersection (5, 3) 1 p f = Ok h2 /\
    get_distance_to_circular_obstacle cls self (5, 3) 1 []
      = Ok (cls2, res2) /\
    nth_error res2 (271 * 0 + 0)
    = Some (if Reqb h2 (-1) then _rng_tof else Rmin h2 _rng_tof).
Proof.
  cbv zeta.
  apply (constructed_ring_readings [(2, 3, 0, "robot"%string, 0)]
           (snd (__init__ class_body 2 3 0 "robot" 0))
           (3, 1) (3, 4) (5, 3) 1 [] 0 0 _rng_tof).
  - cbn [length]. lia.
  - lia.
  - reflexivity.
Defined.

(** ** Lists that are too short *)

Lemma setitem_length {A : Type} (l : list A) :
  forall (i : nat) (v : A),
    (i < length l)%nat ->
    exists l' : list A, setitem l i v = Ok l' /\ length l' = length l.
Proof.
  induction l as [|h t IH]; intros i v Hi; cbn [length] in Hi; [lia|].
  destruct i as [|i]; cbn [setitem].
  - eexists. split; reflexivity.
  - destruct (IH i v) as (t' & -> & Hlen); [lia|].
    cbn [bind]. eexists. split; [reflexivity|]. cbn [length]. lia.
Qed.

(** A loop whose body returns up to pass [m] and raises there. *)
Lemma for_range_stops {A : Type} (body : nat -> list A -> py (list A))
    (n m : nat) (l : list A) :
  (m < n)%nat ->
  (forall (k : nat) (s : list A),
     (k < m)%nat -> length s = length l ->
     exists s' : list A, body k s = Ok s' /\ length s' = length l) ->
  (forall s : list A, length s = length l -> body m s = Raise IndexError) ->
  for_range n 0 body l = Raise IndexError.
Proof.
  intros Hm Hgo Hstop.
  assert (H : forall (j i : nat) (s : list A),
            (i + j = m)%nat -> length s = length l ->
            for_range (n - i) i body s = Raise IndexError).
  { induction j as [|j IH]; intros i s Hij Hs.
    - replace (n - i)%nat with (S (n - S i)) by lia. cbn [for_range].
      replace i with m by lia. rewrite Hstop by exact Hs. reflexivity.
    - replace (n - i)%nat with (S (n - S i)) by lia. cbn [for_range].
      destruct (Hgo i s) as (s' & -> & Hs'); [lia | exact Hs|].
      cbn [bind]. apply IH; [lia | exact Hs']. }
  specialize (H m 0%nat l). rewrite Nat.sub_0_r in H.
  apply H; [lia | reflexivity].
Qed.

(** The loop of [get_pos_tof] and [get_far_tof] when a mount offset or a
    slot is missing. *)
Lemma mount_loop_short (cls : RobotClass) (self : Robot) (g : R -> R)
    (v_face slots : list point) :
  (length (_phi_tof cls) <= length v_face)%nat ->
  (length (_t_tof cls) < length (_phi_tof cls))%nat
  \/ (length slots < length (_phi_tof cls))%nat ->
  for_range (length (_phi_tof cls)) 0
    (fun i slot =>
       f <- getitem v_face i ;;
       t <- getitem (_t_tof cls) i ;;
       setitem slot i (fst (_coords self) + fst f * g t,
                       snd (_coords self) + snd f * g t))
    slots
  = Raise IndexError.
Proof.
  intros Hv Hshort.
  apply (for_range_stops _ _
           (Nat.min (length (_t_tof cls)) (length slots))); [lia | |].
  - intros k s Hk Hs.
    rewrite (getitem_nth v_face k (0, 0)) by lia. cbn [bind].
    rewrite (getitem_nth (_t_tof cls) k 0) by lia. cbn [bind].
    match goal with
    | |- exists _, setitem s k ?v = _ /\ _ =>
        destruct (setitem_length s k v) as (s' & -> & Hs');
          [rewrite Hs; eapply Nat.lt_le_trans;
             [exact Hk | apply Nat.le_min_r]|]
    end.
    exists s'. split; [reflexivity | congruence].
  - intros s Hs.
    rewrite (getitem_nth v_face _ (0, 0)) by lia. cbn [bind].
    destruct (Nat.le_gt_cases (length (_t_tof cls)) (length slots))
      as [Hle | Hgt].
    + rewrite Nat.min_l by exact Hle.
      rewrite (getitem_short (_t_tof cls)) by lia. reflexivity.
    + rewrite Nat.min_r by lia.
      rewrite (getitem_nth (_t_tof cls) _ 0) by lia. cbn [bind].
      apply setitem_short, Nat.eq_le_incl, Hs.
Qed.

Lemma get_facing_tof_short (cls : RobotClass) (self : Robot) :
  (length (_v_face cls) < length (_phi_tof cls))%nat ->
  get_facing_tof cls self = Raise IndexError.
Proof.
  intros H. unfold get_facing_tof.
  pose proof (facing_loop_short (_theta self) (_phi_tof cls) []
                (_v_face cls) H) as E.
  cbn [length app] in E. rewrite E. reflexivity.
Qed.

Lemma getters_short (cls : RobotClass) (self : Robot) :
  ~ ring_ready cls ->
  ('(cls1, pos_tof) <- get_pos_tof cls self ;;
   '(cls2, far_tof) <- get_far_tof cls1 self ;;
   Ok (cls2, pos_tof, far_tof))
  = Raise IndexError.
Proof.
  intros Hnot.
  destruct (Nat.le_gt_cases (length (_phi_tof cls)) (length (_v_face cls)))
    as [Hv | Hv].
  2:{ unfold get_pos_tof. rewrite get_facing_tof_short by exact Hv.
      reflexivity. }
  destruct (Nat.le_gt_cases (length (_phi_tof cls)) (length (_t_tof cls)))
    as [Ht | Ht].
  2:{ unfold get_pos_tof. rewrite (get_facing_tof_value cls self Hv).
      cbn [bind]. unfold with_v_face. cbn [_phi_tof _t_tof _pos_tof].
      rewrite (mount_loop_short cls self (fun t => t)).
      - reflexivity.
      - rewrite facings_length; assumption.
      - left. exact Ht. }
  destruct (Nat.le_gt_cases (length (_phi_tof cls)) (length (_pos_tof cls)))
    as [Hp | Hp].
  2:{ unfold get_pos_tof. rewrite (get_facing_tof_value cls self Hv).
      cbn [bind]. unfold with_v_face. cbn [_phi_tof _t_tof _pos_tof].
      rewrite (mount_loop_short cls self (fun t => t)).
      - reflexivity.
      - rewrite facings_length; assumption.
      - right. exact Hp. }
  assert (Hf : (length (_far_tof cls) < length (_phi_tof cls))%nat).
  { apply Nat.lt_nge. intros Hf. apply Hnot. repeat split; assumption. }
  unfold get_pos_tof. rewrite (get_facing_tof_value cls self Hv).
  cbn [bind]. unfold with_v_face, with_pos_tof.
  cbn [_phi_tof _t_tof _v_face _pos_tof _far_tof].
  rewrite (mount_loop cls self (fun t => t)) by (eauto; assumption).
  cbn [bind]. unfold get_far_tof.
  rewrite get_facing_tof_value
    by (cbn [_phi_tof _v_face]; rewrite facings_length; assumption).
  cbn [bind]. unfold with_v_face.
  cbn [_phi_tof _t_tof _v_face _pos_tof _far_tof].
  rewrite (mount_loop_short cls self (fun t => t + _rng_tof)).
  - reflexivity.
  - assert (El : length (facings self (_phi_tof cls))
                 = length (_phi_tof cls)) by apply length_map.
    rewrite length_app, El. lia.
  - right. exact Hf.
Qed.

(** X19. A slot for every sensor is exactly what the two queries need.
    When each of the four lists [_t_tof], [_v_face], [_pos_tof] and
    [_far_tof] is at least as long as [_phi_tof], both queries return,
    whatever the obstacle and whatever list of readings they are given;
    when one of them is shorter, both raise [IndexError]. *)
Theorem queries_return_iff_slots (cls : RobotClass) (self : Robot)
    (start_line end_line pos_obstacle : point) (obstacle_radius : R)
    (dist_to_obstacles : list R) :
  (ring_ready cls ->
   exists (cls1 cls2 : RobotClass) (res1 res2 : list R),
     get_distance_to_line_obstacle cls self start_line end_line
       dist_to_obstacles = Ok (cls1, res1) /\
     get_distance_to_circular_obstacle cls self pos_obstacle
       obstacle_radius dist_to_obstacles = Ok (cls2, res2)) /\
  (~ ring_ready cls ->
   get_distance_to_line_obstacle cls self start_line end_line
     dist_to_obstacles = Raise IndexError /\
   get_distance_to_circular_obstacle cls self pos_obstacle
     obstacle_radius dist_to_obstacles = Raise IndexError).
Proof.
  split.
  - intros Hready. eexists _, _, _, _. split.
    + apply line_query_sweep, Hready.
    + apply circle_query_sweep, Hready.
  - intros Hnot. pose proof (getters_short cls self Hnot) as Hg.
    unfold get_distance_to_line_obstacle,
      get_distance_to_circular_obstacle.
    destruct (get_pos_tof cls self) as [[cls1 pos_tof] | e |];
      cbn [bind] in Hg |- *;
      [|injection Hg as ->; split; reflexivity | discriminate].
    destruct (get_far_tof cls1 self) as [[cls2 far_tof] | e |];
      cbn [bind] in Hg |- *;
      [discriminate | injection Hg as ->; split; reflexivity
      | discriminate].
Qed.

(** ** The hit points *)

Lemma get_hit_tof_value (cls : RobotClass) (self : Robot) (dist : list R) :
  ring_ready cls ->
  (length (_phi_tof cls) <= length dist)%nat ->
  let n := length (_phi_tof cls) in
  let l := imap (fun k _ =>
                   mount self (nth k (_phi_tof cls) 0)
                     (if Rltb (nth k dist 0) 0 then _rng_tof
                      else nth k dist 0))
             0 (firstn n (_far_tof cls))
           ++ skipn n (_far_tof cls) in
  get_hit_tof cls self dist
  = Ok (mkRobotClass (_phi_tof cls) (_t_tof cls)
          (facings self (_phi_tof cls) ++ skipn n (_v_face cls))
          (_pos_tof cls) l, l).
Proof.
  intros (Ht & Hv & Hp & Hf) Hd. cbv zeta. unfold get_hit_tof.
  rewrite (get_facing_tof_value cls self Hv). cbn [bind].
  unfold with_v_face, with_far_tof.
  cbn [_phi_tof _t_tof _v_face _pos_tof _far_tof].
  rewrite (for_range_first_slots _
             (fun k _ => mount self (nth k (_phi_tof cls) 0)
                           (if Rltb (nth k dist 0) 0 then _rng_tof
                            else nth k dist 0))); [reflexivity | | exact Hf].
  intros k pre old post Hk Hpre.
  rewrite (getitem_nth dist k 0) by lia. cbn [bind]. cbv zeta.
  rewrite (getitem_nth _ k (0, 0))
    by (rewrite facings_length; [lia | exact Hv]).
  rewrite (facings_nth self _ (_phi_tof cls)) by exact Hk.
  cbn [bind fst snd]. subst k. rewrite setitem_app. reflexivity.
Qed.

Lemma get_hit_tof_short (cls : RobotClass) (self : Robot) (dist : list R) :
  ring_ready cls ->
  (length dist < length (_phi_tof cls))%nat ->
  get_hit_tof cls self dist = Raise IndexError.
Proof.
  intros (Ht & Hv & Hp & Hf) Hd. unfold get_hit_tof.
  rewrite (get_facing_tof_value cls self Hv). cbn [bind].
  unfold with_v_face. cbn [_phi_tof _t_tof _v_face _pos_tof _far_tof].
  rewrite (for_range_stops _ _ (length dist)); [reflexivity | exact Hd | |].
  - intros k s Hk Hs.
    rewrite (getitem_nth dist k 0) by lia. cbn [bind]. cbv zeta.
    rewrite (getitem_nth _ k (0, 0))
      by (rewrite facings_length; [lia | exact Hv]).
    cbn [bind].
    match goal with
    | |- exists _, setitem s k ?v = _ /\ _ =>
        destruct (setitem_length s k v) as (s' & -> & Hs');
          [rewrite Hs; eapply Nat.lt_le_trans; [exact Hk|];
           exact (Nat.lt_le_incl _ _ (Nat.lt_le_trans _ _ _ Hd Hf))|]
    end.
    exists s'. split; [reflexivity | congruence].
  - intros s Hs. rewrite (getitem_short dist) by lia. reflexivity.
Qed.

(** The point in which a reported hit lies, as a fraction of the ray. *)
Lemma hit_fraction (start_line end_line coords_sensor coords_far : point)
    (h : R) :
  line_line_intersection start_line end_line coords_sensor coords_far
    = Ok h ->
  h <> -1 ->
  exists m : R,
    0 < m < 1 /\
    strictly_between start_line end_line
      (along coords_sensor coords_far m) /\
    h = sqrt (dist2 (along coords_sensor coords_far m) coords_sensor).
Proof.
  intros Hd Hne.
  destruct (intersection (line start_line end_line)
              (line coords_sensor coords_far)) as [[p|] | e |] eqn:Hi;
    try (unfold line_line_intersection in Hd; rewrite Hi in Hd;
         cbn [bind] in Hd; congruence).
  rewrite (line_line_intersection_at _ _ _ _ _ Hi) in Hd.
  pose proof (intersection_on_lines _ _ _ Hi) as Hon.
  unfold line in Hon. cbv zeta in Hon. destruct Hon as [Hon1 Hon2].
  unfold Rleb in Hd.
  destruct (Rle_dec 0 (dot1_of p coords_sensor coords_far)) as [H1 | H1];
    [cbn [orb] in Hd; congruence|].
  destruct (Rle_dec 0 (dot2_of p start_line end_line)) as [H2 | H2];
    [cbn [orb] in Hd; congruence|].
  cbn [orb] in Hd. injection Hd as <-.
  assert (Hb1 : strictly_between start_line end_line p)
    by (apply on_line_between; [exact Hon1 | unfold dot2_of in H2; lra]).
  assert (Hb2 : strictly_between coords_sensor coords_far p)
    by (apply on_line_between; [exact Hon2 | unfold dot1_of in H1; lra]).
  destruct Hb2 as (m & Hm & ->).
  exists m. split; [exact Hm|]. split; [exact Hb1 | reflexivity].
Qed.

(** A point of the ray of a sensor is a point in the direction of the
    sensor, seen from the robot centre. *)
Lemma along_ray_mount (self : Robot) (phi t m : R) :
  0 <= m ->
  along (mount self phi t) (mount self phi (t + _rng_tof)) m
  = mount self phi (t + _rng_tof * m) /\
  sqrt (dist2 (along (mount self phi t) (mount self phi (t + _rng_tof)) m)
          (mount self phi t))
  = _rng_tof * m.
Proof.
  intros Hm. unfold along, mount, dist2. cbn [fst snd].
  split; [f_equal; ring|].
  match goal with
  | |- sqrt ?e = _ =>
      replace e with ((cos (_theta self + phi) * (_rng_tof * m))
                      * (cos (_theta self + phi) * (_rng_tof * m))
                      + (sin (_theta self + phi) * (_rng_tof * m))
                        * (sin (_theta self + phi) * (_rng_tof * m)))
        by ring
  end.
  rewrite unit_facing. apply sqrt_square.
  unfold _rng_tof. nra.
Qed.

(** X20. A hit on a segment is drawn on the segment.  When the ray of
    sensor [i] meets the segment at [h] from the sensor, nearer than the
    reading so far, the line query stores [h + t], and [get_hit_tof] on the
    list that the query returns puts slot [i] of [_far_tof] on the point of
    the segment that the ray meets: it lies strictly between the ends of the
    segment, at [h + t] from the robot centre. *)
Theorem line_hit_is_drawn_on_the_segment (cls : RobotClass) (self : Robot)
    (start_line end_line : point) (dist_to_obstacles : list R)
    (i : nat) (phi t old h : R) :
  ring_ready cls ->
  nth_error (_phi_tof cls) i = Some phi ->
  nth_error (_t_tof cls) i = Some t ->
  nth_error (pad_distances cls dist_to_obstacles) i = Some old ->
  0 <= t ->
  line_line_intersection start_line end_line
    (mount self phi t) (mount self phi (t + _rng_tof)) = Ok h ->
  h <> -1 ->
  h + t < old ->
  exists (cls1 cls2 : RobotClass) (readings : list R)
         (hits : list point) (q : point),
    get_distance_to_line_obstacle cls self start_line end_line
      dist_to_obstacles = Ok (cls1, readings) /\
    nth_error readings i = Some (h + t) /\
    get_hit_tof cls1 self readings = Ok (cls2, hits) /\
    _far_tof cls2 = hits /\
    nth_error hits i = Some q /\
    strictly_between start_line end_line q /\
    dist2 q (_coords self) = (h + t) * (h + t).
Proof.
  intros Hready Hphi Ht Hold Ht0 Hh Hne Hlt.
  pose proof (pad_distances_length cls dist_to_obstacles) as Hpad.
  pose proof (refreshed_ready cls self Hready) as Hready'.
  assert (Hi : (i < length (_phi_tof cls))%nat)
    by (apply nth_error_Some; congruence).
  destruct (hit_fraction _ _ _ _ _ Hh Hne) as (m & Hm & Hbetween & Hdist).
  destruct (along_ray_mount self phi t m) as [Ealong Esqrt]; [lra|].
  rewrite Ealong in Hbetween. rewrite Esqrt in Hdist.
  assert (Hh0 : 0 < h) by (rewrite Hdist; unfold _rng_tof; nra).
  assert (Hres : nth_error
                   (sweep (length (_phi_tof cls))
                      (line_probe cls self start_line end_line)
                      (pad_distances cls dist_to_obstacles)) i
                 = Some (h + t)).
  { rewrite sweep_nth_error by exact Hpad.
    destruct (Nat.ltb_spec i (length (_phi_tof cls))); [|lia].
    rewrite Hold. cbn [option_map]. f_equal.
    unfold line_probe. cbv zeta.
    rewrite (nth_error_nth _ _ 0 Hphi), (nth_error_nth _ _ 0 Ht).
    unfold line_hit. rewrite Hh. unfold keep_nearer.
    rewrite Rltb_true by exact Hlt. rewrite Rltb_true by lra.
    reflexivity. }
  eexists _, _, _, _, _.
  split; [apply line_query_sweep, Hready|]. cbv zeta.
  split; [exact Hres|].
  fold (refreshed cls self).
  split.
  { apply (get_hit_tof_value (refreshed cls self) self); [exact Hready'|].
    rewrite sweep_length by exact Hpad. exact Hpad. }
  cbv zeta. cbn [_far_tof].
  split; [reflexivity|].
  change (_phi_tof (refreshed cls self)) with (_phi_tof cls).
  split.
  { rewrite nth_error_app1
      by (rewrite imap_length, length_firstn;
          destruct Hready' as (_ & _ & _ & Hf');
          change (_phi_tof (refreshed cls self)) with (_phi_tof cls) in Hf';
          lia).
    rewrite imap_nth_error. cbn [Nat.add].
    rewrite nth_error_firstn.
    destruct (Nat.ltb_spec i (length (_phi_tof cls))); [|lia].
    destruct Hready' as (_ & _ & _ & Hf').
    change (_phi_tof (refreshed cls self)) with (_phi_tof cls) in Hf'.
    rewrite (nth_error_nth' (_far_tof (refreshed cls self)) (0, 0)
               (Nat.lt_le_trans _ _ _ Hi Hf')).
    cbn [option_map].
    rewrite (nth_error_nth _ _ 0 Hres), (nth_error_nth _ _ 0 Hphi).
    rewrite Rltb_false by lra. reflexivity. }
  split.
  - replace (h + t) with (t + _rng_tof * m) by lra. exact Hbetween.
  - unfold mount, dist2. cbn [fst snd].
    rewrite <- (unit_facing (_theta self + phi) (h + t)). ring.
Qed.

Lemma line_hit_is_drawn_on_the_segment_witness :
  let cls := mkRobotClass [0] [0.2] [(0, 0)] [(0, 0)] [(0, 0)] in
  let self := snd (__init__ class_body 2 3 0 "robot" 0) in
  exists (cls1 cls2 : RobotClass) (readings : list R)
         (hits : list point) (q : point),
    get_distance_to_line_obstacle cls self (2 + 1, 1) (2 + 1, 4) []
      = Ok (cls1, readings) /\
    nth_error readings 0 = Some (2 + 1 - (2 + 0.2) + 0.2) /\
    get_hit_tof cls1 self readings = Ok (cls2, hits) /\
    _far_tof cls2 = hits /\
    nth_error hits 0 = Some q /\
    strictly_between (2 + 1, 1) (2 + 1, 4) q /\
    dist2 q (_coords self) = (2 + 1 - (2 + 0.2) + 0.2) * (2 + 1 - (2 + 0.2) + 0.2).
Proof.
  cbv zeta.
  apply (line_hit_is_drawn_on_the_segment
           (mkRobotClass [0] [0.2] [(0, 0)] [(0, 0)] [(0, 0)])
           (snd (__init__ class_body 2 3 0 "robot" 0))
           (2 + 1, 1) (2 + 1, 4) [] 0 0 0.2 _rng_tof (2 + 1 - (2 + 0.2))).
  - unfold ring_ready. cbn [_phi_tof _t_tof _v_face _pos_tof _far_tof length].
    lia.
  - reflexivity.
  - reflexivity.
  - reflexivity.
  - lra.
  - unfold mount, __init__. cbn [snd fst _coords _theta].
    rewrite Rplus_0_l, cos_0, sin_0.
    replace (2 + 1 * 0.2) with (2 + 0.2) by ring.
    replace (3 + 0 * 0.2) with 3 by ring.
    replace (2 + 1 * (0.2 + _rng_tof)) with (2 + 0.2 + _rng_tof) by ring.
    replace (3 + 0 * (0.2 + _rng_tof)) with 3 by ring.
    apply vertical_segment_hit; unfold _rng_tof; lra.
  - lra.
  - unfold _rng_tof. lra.
Defined.

(** X21. [get_hit_tof], sensor by sensor.  It overwrites the slots of
    [_far_tof], the list that [get_far_tof] fills: a reading [d] that is
    not negative puts the slot of the sensor at [d] from the robot centre
    in the direction of the sensor, a negative one at [_rng_tof].  The
    sensor positions stay.  A list with fewer readings than sensors makes
    it raise [IndexError]. *)
Theorem get_hit_tof_points (cls : RobotClass) (self : Robot)
    (dist : list R) :
  ring_ready cls ->
  ((length dist < length (_phi_tof cls))%nat ->
   get_hit_tof cls self dist = Raise IndexError) /\
  ((length (_phi_tof cls) <= length dist)%nat ->
   exists (cls' : RobotClass) (hits : list point),
     get_hit_tof cls self dist = Ok (cls', hits) /\
     _far_tof cls' = hits /\
     _pos_tof cls' = _pos_tof cls /\
     length hits = length (_far_tof cls) /\
     forall (i : nat) (phi d : R),
       nth_error (_phi_tof cls) i = Some phi ->
       nth_error dist i = Some d ->
       nth_error hits i
       = Some (mount self phi (if Rltb d 0 then _rng_tof else d))).
Proof.
  intros Hready. split; [apply get_hit_tof_short, Hready|].
  intros Hd. eexists _, _.
  split; [apply get_hit_tof_value; assumption|].
  cbv zeta. cbn [_far_tof _pos_tof].
  destruct Hready as (Ht & Hv & Hp & Hf).
  split; [reflexivity|]. split; [reflexivity|].
  split.
  - rewrite length_app, imap_length, length_firstn, length_skipn. lia.
  - intros i phi d Hphi Hdi.
    assert (Hi : (i < length (_phi_tof cls))%nat)
      by (apply nth_error_Some; congruence).
    rewrite nth_error_app1
      by (rewrite imap_length, length_firstn;
          apply Nat.min_glb_lt;
          [exact Hi | exact (Nat.lt_le_trans _ _ _ Hi Hf)]).
    rewrite imap_nth_error. cbn [Nat.add].
    rewrite nth_error_firstn.
    destruct (Nat.ltb_spec i (length (_phi_tof cls))); [|lia].
    rewrite (nth_error_nth' (_far_tof cls) (0, 0)
               (Nat.lt_le_trans _ _ _ Hi Hf)).
    cbn [option_map].
    rewrite (nth_error_nth _ _ 0 Hphi), (nth_error_nth _ _ 0 Hdi).
    reflexivity.
Qed.

Lemma get_hit_tof_points_witness :
  let cls := mkRobotClass [0] [0.2] [(0, 0)] [(0, 0)] [(0, 0)] in
  let self := snd (__init__ class_body 2 3 0 "robot" 0) in
  let dist : list R := [1; -1] in
  ((length dist < length (_phi_tof cls))%nat ->
   get_hit_tof cls self dist = Raise IndexError) /\
  ((length (_phi_tof cls) <= length dist)%nat ->
   exists (cls' : RobotClass) (hits : list point),
     get_hit_tof cls self dist = Ok (cls', hits) /\
     _far_tof cls' = hits /\
     _pos_tof cls' = _pos_tof cls /\
     length hits = length (_far_tof cls) /\
     forall (i : nat) (phi d : R),
       nth_error (_phi_tof cls) i = Some phi ->
       nth_error dist i = Some d ->
       nth_error hits i
       = Some (mount self phi (if Rltb d 0 then _rng_tof else d))).
Proof.
  cbv zeta.
  apply (get_hit_tof_points
           (mkRobotClass [0] [0.2] [(0, 0)] [(0, 0)] [(0, 0)])
           (snd (__init__ class_body 2 3 0 "robot" 0)) [1; -1]).
  unfold ring_ready. cbn [_phi_tof _t_tof _v_face _pos_tof _far_tof length].
  lia.
Defined.

(** ** The cells of a beam *)

Lemma last_nonempty {A : Type} (l : list A) :
  forall q d d' : A, last (q :: l) d = last (q :: l) d'.
Proof.
  induction l as [|x l IH]; intros q d d'; [reflexivity|].
  change (last (x :: l) d = last (x :: l) d'). apply IH.
Qed.

(** One pass of the loop of [bresenham_line]. *)
Lemma bresenham_loop_pass (fuel : nat)
    (x1 y1 dx dy sx sy step x0 y0 err count : Z) (points : list (Z * Z)) :
  step <> 0%Z ->
  bresenham_loop (S fuel) x1 y1 dx dy sx sy step x0 y0 err count points
  = if ((x0 =? x1) && (y0 =? y1))%Z
    then Ok (if (count mod step =? 0)%Z then points ++ [(x0, y0)]
             else points)
    else bresenham_loop fuel x1 y1 dx dy sx sy step
           (if (err * 2 >? - dy)%Z then x0 + sx else x0)%Z
           (if (err * 2 <? dx)%Z then y0 + sy else y0)%Z
           ((if (err * 2 >? - dy)%Z then err - dy else err)
            + (if (err * 2 <? dx)%Z then dx else 0))%Z
           (count + 1)%Z
           (if (count mod step =? 0)%Z then points ++ [(x0, y0)]
            else points).
Proof.
  intros Hstep. cbn [bresenham_loop]. unfold pymod.
  destruct (Z.eqb_spec step 0) as [|_]; [contradiction|].
  cbn [bind]. cbv zeta.
  destruct ((x0 =? x1) && (y0 =? y1))%Z; [reflexivity|].
  destruct (err * 2 >? - dy)%Z; destruct (err * 2 <? dx)%Z;
    f_equal; lia.
Qed.

(** The loop of [bresenham_line] walks one way whatever [step] and
    [count] are; they only choose which cells of the way are kept. *)
Lemma bresenham_loop_way (fuel : nat) :
  forall (x1 y1 dx dy sx sy x0 y0 err rx ry : Z),
    (sx = 1 \/ sx = -1)%Z -> (sy = 1 \/ sy = -1)%Z ->
    (0 <= rx <= dx)%Z -> (0 <= ry <= dy)%Z ->
    (x0 = x1 - sx * rx)%Z -> (y0 = y1 - sy * ry)%Z ->
    (err = dx - dy + rx * dy - ry * dx)%Z ->
    (Z.to_nat (rx + ry) < fuel)%nat ->
    exists rest : list (Z * Z),
      (forall (step count : Z) (points : list (Z * Z)),
         step <> 0%Z ->
         bresenham_loop fuel x1 y1 dx dy sx sy step x0 y0 err count points
         = Ok (points ++ every step count ((x0, y0) :: rest))) /\
      last ((x0, y0) :: rest) (x0, y0) = (x1, y1) /\
      way sx sy (x0, y0) rest /\
      Forall (fun p => exists rx' ry' : Z,
                (0 <= rx' <= rx)%Z /\ (0 <= ry' <= ry)%Z /\
                p = (x1 - sx * rx', y1 - sy * ry')%Z) rest.
Proof.
  induction fuel as [|fuel IH];
    intros x1 y1 dx dy sx sy x0 y0 err rx ry
           Hsx Hsy Hrx Hry Hx0 Hy0 Herr Hfuel; [lia|].
  destruct ((x0 =? x1) && (y0 =? y1))%Z eqn:Hthere.
  { (* arrived *)
    apply andb_prop in Hthere. destruct Hthere as [Ex Ey].
    apply Z.eqb_eq in Ex. apply Z.eqb_eq in Ey.
    exists []. split; [|split; [|split]].
    - intros step count points Hstep.
      rewrite bresenham_loop_pass by exact Hstep.
      rewrite Ex, Ey, !Z.eqb_refl. cbn [andb every].
      destruct (count mod step =? 0)%Z; cbn [app];
        rewrite ?app_nil_r; reflexivity.
    - cbn [last]. congruence.
    - exact I.
    - constructor. }
  assert (Hgo : forall (bx by_ : bool) (rx' ry' : Z),
            (err * 2 >? - dy)%Z = bx -> (err * 2 <? dx)%Z = by_ ->
            (rx' = if bx then rx - 1 else rx)%Z ->
            (ry' = if by_ then ry - 1 else ry)%Z ->
            (0 <= rx')%Z -> (0 <= ry')%Z -> (rx' + ry' < rx + ry)%Z ->
            exists rest : list (Z * Z),
              (forall (step count : Z) (points : list (Z * Z)),
                 step <> 0%Z ->
                 bresenham_loop (S fuel) x1 y1 dx dy sx sy step x0 y0 err
                   count points
                 = Ok (points ++ every step count ((x0, y0) :: rest))) /\
              last ((x0, y0) :: rest) (x0, y0) = (x1, y1) /\
              way sx sy (x0, y0) rest /\
              Forall (fun p => exists rx' ry' : Z,
                        (0 <= rx' <= rx)%Z /\ (0 <= ry' <= ry)%Z /\
                        p = (x1 - sx * rx', y1 - sy * ry')%Z) rest).
  { intros bx by_ rx' ry' Ebx Eby Erx Ery Hrx' Hry' Hless.
    destruct (IH x1 y1 dx dy sx sy
                (if bx then x0 + sx else x0)%Z
                (if by_ then y0 + sy else y0)%Z
                ((if bx then err - dy else err)
                 + (if by_ then dx else 0))%Z rx' ry')
      as (rest & Hloop & Hlast & Hway & Hbox); try assumption.
    - destruct bx; lia.
    - destruct by_; lia.
    - destruct bx; subst rx'; nia.
    - destruct by_; subst ry'; nia.
    - destruct bx, by_; subst rx' ry'; nia.
    - lia.
    - exists ((if bx then x0 + sx else x0,
               if by_ then y0 + sy else y0)%Z :: rest).
      split; [|split; [|split]].
      + intros step count points Hstep.
        rewrite bresenham_loop_pass by exact Hstep.
        rewrite Hthere, Ebx, Eby, Hloop by exact Hstep.
        cbn [every]. destruct (count mod step =? 0)%Z;
          rewrite <- ?app_assoc; reflexivity.
      + match goal with
        | |- last (_ :: ?q :: rest) _ = _ =>
            change (last ((x0, y0) :: q :: rest) (x0, y0))
              with (last (q :: rest) (x0, y0))
        end.
        rewrite <- Hlast. apply last_nonempty.
      + cbn [way]. split; [|exact Hway].
        unfold next_cell. cbn [fst snd].
        split; [destruct bx; auto|]. split; [destruct by_; auto|].
        intros E. injection E as E1 E2.
        destruct bx, by_; subst rx' ry'; lia.
      + constructor.
        * exists rx', ry'.
          split; [destruct bx; lia|]. split; [destruct by_; lia|].
          f_equal; [destruct bx | destruct by_]; subst rx' ry'; nia.
        * eapply Forall_impl; [|exact Hbox].
          intros p (a & b & Ha & Hb & ->). exists a, b.
          split; [destruct bx; lia|]. split; [destruct by_; lia|].
          reflexivity. }
  apply andb_false_iff in Hthere.
  destruct (Z.eqb_spec x0 x1) as [Ex | Ex];
    destruct (Z.eqb_spec y0 y1) as [Ey | Ey];
    try (destruct Hthere; discriminate).
  - (* x has arrived, y has not *)
    assert (rx = 0)%Z by nia. assert (0 < ry)%Z by nia. subst rx.
    apply (Hgo false true 0%Z (ry - 1)%Z); try reflexivity; try lia.
    + destruct (Z.gtb_spec (err * 2) (- dy)); [nia | reflexivity].
    + destruct (Z.ltb_spec (err * 2) dx); [reflexivity | nia].
  - (* y has arrived, x has not *)
    assert (ry = 0)%Z by nia. assert (0 < rx)%Z by nia. subst ry.
    apply (Hgo true false (rx - 1)%Z 0%Z); try reflexivity; try lia.
    + destruct (Z.gtb_spec (err * 2) (- dy)); [reflexivity | nia].
    + destruct (Z.ltb_spec (err * 2) dx); [nia | reflexivity].
  - (* neither has arrived *)
    assert (0 < rx)%Z by nia. assert (0 < ry)%Z by nia.
    destruct (err * 2 >? - dy)%Z eqn:Ebx; destruct (err * 2 <? dx)%Z eqn:Eby.
    + apply (Hgo true true (rx - 1)%Z (ry - 1)%Z); try reflexivity; lia.
    + apply (Hgo true false (rx - 1)%Z ry); try reflexivity; lia.
    + apply (Hgo false true rx (ry - 1)%Z); try reflexivity; lia.
    + exfalso.
      destruct (Z.gtb_spec (err * 2) (- dy)); [discriminate|].
      destruct (Z.ltb_spec (err * 2) dx); [discriminate|]. nia.
Qed.

Lemma every_one (cells : list (Z * Z)) :
  forall count : Z, every 1 count cells = cells.
Proof.
  induction cells as [|p rest IH]; intros count; cbn [every];
    [reflexivity|].
  rewrite Z.mod_1_r, IH. reflexivity.
Qed.

Lemma bresenham_line_cells (x0 y0 x1 y1 : Z) :
  let sx := if (x0 <? x1)%Z then 1%Z else (-1)%Z in
  let sy := if (y0 <? y1)%Z then 1%Z else (-1)%Z in
  exists rest : list (Z * Z),
    (forall step : Z,
       step <> 0%Z ->
       bresenham_line x0 y0 x1 y1 step
       = Ok (every step 0 ((x0, y0) :: rest))) /\
    last ((x0, y0) :: rest) (x0, y0) = (x1, y1) /\
    way sx sy (x0, y0) rest /\
    Forall (fun p =>
              (Z.min x0 x1 <= fst p <= Z.max x0 x1)%Z /\
              (Z.min y0 y1 <= snd p <= Z.max y0 y1)%Z) rest.
Proof.
  cbv zeta.
  destruct (bresenham_loop_way (S (Z.to_nat (Z.abs (x1 - x0)
                                              + Z.abs (y1 - y0))))
              x1 y1 (Z.abs (x1 - x0)) (Z.abs (y1 - y0))
              (if (x0 <? x1)%Z then 1%Z else (-1)%Z)
              (if (y0 <? y1)%Z then 1%Z else (-1)%Z)
              x0 y0 (Z.abs (x1 - x0) - Z.abs (y1 - y0))%Z
              (Z.abs (x1 - x0)) (Z.abs (y1 - y0)))
    as (rest & Hloop & Hlast & Hway & Hbox).
  - destruct (x0 <? x1)%Z; auto.
  - destruct (y0 <? y1)%Z; auto.
  - lia.
  - lia.
  - destruct (Z.ltb_spec x0 x1); lia.
  - destruct (Z.ltb_spec y0 y1); lia.
  - ring.
  - lia.
  - exists rest. split; [|split; [|split]]; try assumption.
    + intros step Hstep. unfold bresenham_line. cbv zeta.
      rewrite Hloop by exact Hstep. reflexivity.
    + eapply Forall_impl; [|exact Hbox].
      intros p (a & b & Ha & Hb & ->). cbn [fst snd].
      destruct (Z.ltb_spec x0 x1); destruct (Z.ltb_spec y0 y1); lia.
Qed.

(** X22. The cells of [bresenham_line] with [step = 1]: the list starts
    with the start cell and ends with the end cell; each cell is followed
    by a different cell that is the same or one nearer to the end in [x],
    and the same or one nearer in [y]; no cell leaves the rectangle spanned
    by the two ends.  The loop always leaves. *)
Theorem bresenham_line_way (x0 y0 x1 y1 : Z) :
  let sx := if (x0 <? x1)%Z then 1%Z else (-1)%Z in
  let sy := if (y0 <? y1)%Z then 1%Z else (-1)%Z in
  exists rest : list (Z * Z),
    bresenham_line x0 y0 x1 y1 1 = Ok ((x0, y0) :: rest) /\
    last ((x0, y0) :: rest) (x0, y0) = (x1, y1) /\
    way sx sy (x0, y0) rest /\
    Forall (fun p =>
              (Z.min x0 x1 <= fst p <= Z.max x0 x1)%Z /\
              (Z.min y0 y1 <= snd p <= Z.max y0 y1)%Z) rest.
Proof.
  cbv zeta.
  destruct (bresenham_line_cells x0 y0 x1 y1)
    as (rest & Hline & Hlast & Hway & Hbox).
  exists rest. split; [|split; [|split]]; try assumption.
  rewrite Hline by discriminate. rewrite every_one. reflexivity.
Qed.

(** X23. What [step] does: [bresenham_line] with a step that is not zero
    returns every [step]-th cell of the way that it returns with
    [step = 1], the start cell first, so the start cell is always there and
    the end cell only when its position is a multiple of [step].  With
    [step = 0] it raises [ZeroDivisionError]. *)
Theorem bresenham_line_samples (x0 y0 x1 y1 step : Z) :
  (step <> 0%Z ->
   exists cells kept : list (Z * Z),
     bresenham_line x0 y0 x1 y1 1 = Ok cells /\
     bresenham_line x0 y0 x1 y1 step = Ok (every step 0 cells) /\
     every step 0 cells = (x0, y0) :: kept) /\
  bresenham_line x0 y0 x1 y1 0 = Raise ZeroDivisionError.
Proof.
  split.
  - intros Hstep.
    destruct (bresenham_line_cells x0 y0 x1 y1)
      as (rest & Hline & _).
    exists ((x0, y0) :: rest), (every step (0 + 1) rest).
    split; [rewrite Hline by discriminate; f_equal; apply every_one|].
    split; [apply Hline, Hstep|].
    cbn [every]. rewrite Z.mod_0_l by exact Hstep. reflexivity.
  - reflexivity.
Qed.

(** ** What a beam reads and what it writes *)

Lemma tested_inside (m : Surface) (x y : Z) :
  tested m x y = true -> inside m x y = true.
Proof.
  unfold tested, inside. intros H.
  repeat (apply andb_prop in H; destruct H as [H ?]).
  repeat match goal with
         | E : (_ <? _)%Z = true |- _ => apply Z.ltb_lt in E
         end.
  repeat (apply andb_true_intro; split);
    (apply Z.leb_le || apply Z.ltb_lt); lia.
Qed.

Lemma set_at_pixel (m : Surface) (x y : Z) (c : color) (a b : Z) :
  tested m x y = true ->
  get_width (set_at m x y c) = get_width m /\
  get_height (set_at m x y c) = get_height m /\
  pixel (set_at m x y c) a b
  = if ((a =? x) && (b =? y))%Z then c else pixel m a b.
Proof.
  intros H. unfold set_at. rewrite (tested_inside m x y H).
  cbn [get_width get_height pixel]. auto.
Qed.

(** The cells up to the first obstacle: the beam walks over them, tints
    those that pass its test and reads on. *)
Lemma beam_walk_clear (r_x r_y meter_to_pixel distance : R)
    (rest : list (Z * Z)) (pre : list (Z * Z)) :
  forall m : Surface,
    Forall (fun p => tested m (fst p) (snd p) = false
                     \/ is_obstacle (pixel m (fst p) (snd p)) = false)
      pre ->
    exists m' : Surface,
      beam_walk (pre ++ rest) r_x r_y m meter_to_pixel distance
      = beam_walk rest r_x r_y m' meter_to_pixel distance /\
      get_width m' = get_width m /\
      get_height m' = get_height m /\
      (forall a b : Z, In (a, b) pre -> tested m a b = true ->
         pixel m' a b = tint) /\
      (forall a b : Z, ~ In (a, b) pre \/ tested m a b = false ->
         pixel m' a b = pixel m a b).
Proof.
  induction pre as [|[x y] pre IH]; intros m Hclear.
  - exists m. cbn [app]. repeat split; try reflexivity.
    intros a b [].
  - inversion Hclear as [|p l Hhead Htail]; subst. cbn [fst snd] in Hhead.
    cbn [app beam_walk]. fold (tested m x y).
    destruct (tested m x y) eqn:Htest.
    + destruct Hhead as [Hhead | Hhead]; [discriminate|].
      rewrite (get_at_tested m x y Htest). cbn [bind]. rewrite Hhead.
      assert (Hsize : get_width (set_at m x y tint) = get_width m /\
                      get_height (set_at m x y tint) = get_height m)
        by (split; apply (set_at_pixel m x y tint 0 0 Htest)).
      destruct Hsize as [Hw Hh].
      assert (Hsame : forall a b : Z,
                tested (set_at m x y tint) a b = tested m a b)
        by (intros a b; unfold tested; rewrite Hw, Hh; reflexivity).
      destruct (IH (set_at m x y tint)) as (m' & E & Hw' & Hh' & Hin & Hout).
      { eapply Forall_impl; [|exact Htail].
        intros [a b] Hp. cbn [fst snd] in *. rewrite Hsame.
        destruct Hp as [Hp | Hp]; [left; exact Hp|]. right.
        destruct (set_at_pixel m x y tint a b Htest) as (_ & _ & ->).
        destruct ((a =? x) && (b =? y))%Z;
          [apply tint_is_no_obstacle | exact Hp]. }
      exists m'. split; [exact E|].
      split; [congruence|]. split; [congruence|].
      split.
      * intros a b Hab Ht.
        destruct (in_dec (fun p q : Z * Z =>
                            ltac:(decide equality; apply Z.eq_dec))
                    (a, b) pre) as [Hpre | Hpre].
        -- apply Hin; [exact Hpre | rewrite Hsame; exact Ht].
        -- destruct Hab as [Hab | Hab]; [|contradiction].
           injection Hab as <- <-.
           rewrite Hout by (left; exact Hpre).
           destruct (set_at_pixel m x y tint x y Htest) as (_ & _ & ->).
           rewrite !Z.eqb_refl. reflexivity.
      * intros a b Hab.
        assert (Hcell : ((a =? x) && (b =? y))%Z = false).
        { destruct Hab as [Hab | Hab].
          - apply andb_false_iff.
            destruct (Z.eqb_spec a x) as [-> |]; [|auto].
            destruct (Z.eqb_spec b y) as [-> |]; [|auto].
            exfalso. apply Hab. left. reflexivity.
          - apply andb_false_iff.
            destruct (Z.eqb_spec a x) as [-> |]; [|auto].
            destruct (Z.eqb_spec b y) as [-> |]; [|auto].
            congruence. }
        rewrite Hout.
        -- destruct (set_at_pixel m x y tint a b Htest) as (_ & _ & ->).
           rewrite Hcell. reflexivity.
        -- destruct Hab as [Hab | Hab].
           ++ left. intros Hpre. apply Hab. right. exact Hpre.
           ++ right. rewrite Hsame. exact Hab.
    + destruct (IH m Htail) as (m' & E & Hw' & Hh' & Hin & Hout).
      exists m'. split; [exact E|].
      split; [exact Hw'|]. split; [exact Hh'|].
      split.
      * intros a b [Hab | Hab] Ht; [|apply Hin; assumption].
        injection Hab as <- <-. congruence.
      * intros a b Hab. apply Hout.
        destruct Hab as [Hab | Hab]; [|right; exact Hab].
        left. intros Hpre. apply Hab. right. exact Hpre.
Qed.

(** X24. A beam stops at the first obstacle.  When the cells of the beam
    are [pre], then [(x, y)], then [post], no cell of [pre] that passes the
    test holds an obstacle, and [(x, y)] passes the test and holds one, the
    walk returns the distance from the robot to [(x, y)] divided by
    [meter_to_pixel]; the cells of [post] are not looked at.  It leaves the
    tint on the cells of [pre] that pass the test and every other cell as
    it was.  With [meter_to_pixel = 0] it raises [ZeroDivisionError]. *)
Theorem beam_stops_at_first_obstacle (pre post : list (Z * Z)) (x y : Z)
    (r_x r_y meter_to_pixel distance : R) (surface : Surface) :
  Forall (fun p => tested surface (fst p) (snd p) = false
                   \/ is_obstacle (pixel surface (fst p) (snd p)) = false)
    pre ->
  tested surface x y = true ->
  is_obstacle (pixel surface x y) = true ->
  exists surface' : Surface,
    (meter_to_pixel <> 0 ->
     beam_walk (pre ++ (x, y) :: post) r_x r_y surface meter_to_pixel
       distance
     = Ok (sqrt ((IZR x - r_x) ^ 2 + (IZR y - r_y) ^ 2) / meter_to_pixel,
           surface')) /\
    (meter_to_pixel = 0 ->
     beam_walk (pre ++ (x, y) :: post) r_x r_y surface meter_to_pixel
       distance
     = Raise ZeroDivisionError) /\
    get_width surface' = get_width surface /\
    get_height surface' = get_height surface /\
    (forall a b : Z, In (a, b) pre -> tested surface a b = true ->
       pixel surface' a b = tint) /\
    (forall a b : Z, ~ In (a, b) pre \/ tested surface a b = false ->
       pixel surface' a b = pixel surface a b).
Proof.
  intros Hclear Htest Hobs.
  destruct (beam_walk_clear r_x r_y meter_to_pixel distance
              ((x, y) :: post) pre surface Hclear)
    as (m' & E & Hw & Hh & Hin & Hout).
  assert (Hnot : ~ In (x, y) pre).
  { intros Hpre. rewrite Forall_forall in Hclear.
    destruct (Hclear (x, y) Hpre) as [H | H]; cbn [fst snd] in H;
      congruence. }
  assert (Htest' : tested m' x y = true)
    by (unfold tested; rewrite Hw, Hh; exact Htest).
  assert (Hobs' : is_obstacle (pixel m' x y) = true)
    by (rewrite Hout by (left; exact Hnot); exact Hobs).
  assert (Hwalk : beam_walk ((x, y) :: post) r_x r_y m' meter_to_pixel
                    distance
                  = d <- pydiv (sqrt ((IZR x - r_x) ^ 2 + (IZR y - r_y) ^ 2))
                           meter_to_pixel ;;
                    Ok (d, m')).
  { cbn [beam_walk]. fold (tested m' x y). rewrite Htest'.
    rewrite (get_at_tested m' x y Htest'). cbn [bind]. rewrite Hobs'.
    rewrite pysqrt_ok by (apply Rplus_le_le_0_compat; apply pow2_ge_0).
    reflexivity. }
  exists m'. rewrite E, Hwalk.
  split; [|split].
  - intros Hm. rewrite pydiv_ok by exact Hm. reflexivity.
  - intros ->. unfold pydiv.
    destruct (Req_dec_T 0 0) as [_ | Hne]; [reflexivity | contradiction].
  - repeat split; assumption.
Qed.

Lemma beam_stops_at_first_obstacle_witness :
  let surface :=
    mkSurface 10 10
      (fun x y => if ((x =? 5) && (y =? 2))%Z then black
                  else (255, 255, 255)%Z) in
  exists surface' : Surface,
    (100 <> 0 ->
     beam_walk ([(0, 2); (2, 2)] ++ (5, 2) :: [(8, 2)])%Z 1 2 surface 100
       _laser_range
     = Ok (sqrt ((IZR 5 - 1) ^ 2 + (IZR 2 - 2) ^ 2) / 100, surface')) /\
    (100 = 0 ->
     beam_walk ([(0, 2); (2, 2)] ++ (5, 2) :: [(8, 2)])%Z 1 2 surface 100
       _laser_range
     = Raise ZeroDivisionError) /\
    get_width surface' = get_width surface /\
    get_height surface' = get_height surface /\
    (forall a b : Z, In (a, b) [(0, 2); (2, 2)]%Z ->
       tested surface a b = true -> pixel surface' a b = tint) /\
    (forall a b : Z,
       ~ In (a, b) [(0, 2); (2, 2)]%Z \/ tested surface a b = false ->
       pixel surface' a b = pixel surface a b).
Proof.
  cbv zeta.
  apply (beam_stops_at_first_obstacle [(0, 2); (2, 2)]%Z [(8, 2)]%Z 5 2
           1 2 100 _laser_range).
  - constructor; [left; reflexivity|].
    constructor; [right; reflexivity|]. constructor.
  - reflexivity.
  - reflexivity.
Defined.

Lemma calculate_lidar_angle_free (self : Robot) (index : nat) (angle : R)
    (robot_pose : R * R * R) (surface : Surface) :
  (forall x y : Z, tested surface x y = true ->
     is_obstacle (pixel surface x y) = false) ->
  exists surface' : Surface,
    calculate_lidar_angle self index angle robot_pose surface 100
    = Ok (index, _laser_range, surface').
Proof.
  intros Hfree. destruct robot_pose as [[r_x r_y] heading].
  unfold calculate_lidar_angle.
  match goal with
  | |- context [bresenham_line ?a ?b ?c ?e 3] =>
      destruct (bresenham_line_returns a b c e 3) as [pts ->]; [lia|]
  end.
  cbn [bind].
  destruct (beam_walk_clear r_x r_y 100 _laser_range [] pts surface)
    as (m' & E & _).
  { apply Forall_forall. intros [x y] _. cbn [fst snd].
    destruct (tested surface x y) eqn:Ht; [right; apply Hfree, Ht | left].
    reflexivity. }
  rewrite app_nil_r in E. rewrite E. cbn [beam_walk bind].
  exists m'. reflexivity.
Qed.

(** X25. A scan of a map without obstacles.  When no cell that passes the
    test of the beam, [0 < x < width] and [0 < y < height], holds an
    obstacle, [LiDAR_sensing] returns [_laser_range] for every beam,
    whatever the pose: what lies on column [0], on row [0] or outside the
    map is never seen. *)
Theorem free_map_reads_max_range (self : Robot) (robot_pose : R * R * R)
    (surface : Surface) :
  (forall x y : Z, tested surface x y = true ->
     is_obstacle (pixel surface x y) = false) ->
  exists (distances : list R) (surface' : Surface),
    LiDAR_sensing self robot_pose surface = Ok (distances, surface') /\
    Forall (fun d => d = _laser_range) distances.
Proof.
  intros Hfree. unfold LiDAR_sensing, arange.
  assert (Hinc : - _angle_inc <> 0).
  { unfold _angle_inc. pose proof PI_RGT_0. lra. }
  rewrite (Reqb_false _ _ Hinc). cbn [bind].
  set (angles := map _ _).
  destruct (submit_beams_same self robot_pose angles 0 surface surface)
    as (res & s1 & s1' & E1 & _ & _ & _ & Hidx); [auto with surfaces|].
  destruct (submit_beams_each self robot_pose surface angles 0 surface)
    as (res' & s1'' & E1' & Heach); [auto with surfaces|].
  rewrite E1 in E1'. injection E1' as <- <-.
  assert (Hlen : length res = length angles).
  { rewrite <- (length_map fst res), Hidx. apply length_seq. }
  assert (Hd : collect res (repeat 0 (length angles)) = Ok (map snd res)).
  { apply (collect_in_order res [] (repeat 0 (length angles))).
    - cbn [length]. rewrite Hlen. exact Hidx.
    - rewrite repeat_length. symmetry. exact Hlen. }
  exists (map snd res), s1.
  rewrite E1. cbn [bind]. rewrite Hd. cbn [bind].
  split; [reflexivity|].
  apply Forall_forall. intros d Hin.
  destruct (In_nth _ _ 0 Hin) as (k & Hk & <-).
  rewrite length_map, Hlen in Hk.
  destruct (nth_error angles k) as [angle|] eqn:Hangle;
    [|apply nth_error_None in Hangle; lia].
  destruct (Heach k angle Hangle) as (m1 & Hbeam).
  destruct (calculate_lidar_angle_free self (0 + k) angle robot_pose
              surface Hfree) as (m2 & Hfreebeam).
  rewrite Hbeam in Hfreebeam. injection Hfreebeam as Hdist _.
  exact Hdist.
Qed.

Lemma free_map_reads_max_range_witness :
  let self := snd (__init__ class_body 2 3 0 "robot" 0) in
  let surface :=
    mkSurface 10 10
      (fun x y => if (x =? 0)%Z then black else (255, 255, 255)%Z) in
  exists (distances : list R) (surface' : Surface),
    LiDAR_sensing self (2, 3, 0) surface = Ok (distances, surface') /\
    Forall (fun d => d = _laser_range) distances.
Proof.
  cbv zeta.
  apply (free_map_reads_max_range
           (snd (__init__ class_body 2 3 0 "robot" 0)) (2, 3, 0)).
  intros x y Ht. cbn [pixel].
  destruct (Z.eqb_spec x 0) as [-> | _]; [discriminate Ht | reflexivity].
Defined.

(** ** From wheel rates to motion *)

Lemma command_check_fresh (self : Robot) (timestamp : R) :
  timestamp - _last_command self <= 0.5 ->
  command_check self timestamp = (_v self, _omega self).
Proof.
  intros H. unfold command_check. cbv zeta.
  rewrite Rltb_false by lra. reflexivity.
Qed.

Lemma tick_after_wheel_command (self : Robot)
    (w0 w1 w2 w3 now timestamp : R) :
  _T self = kinematic_matrix -> is_pinv (_T self) (_Tinv self) ->
  _reset self = false ->
  timestamp - now <= 0.5 ->
  let elapsed := timestamp - _timestamp self in
  let vx := _wheel_radius / 4 * (w0 - w1 + w2 - w3) in
  let vy := _wheel_radius / 4 * (- w0 - w1 + w2 + w3) in
  let omega := - (_wheel_radius / (4 * (_wheel_base / 2 + _track / 2)))
               * (w0 + w1 + w2 + w3) in
  let theta := _theta self + omega * elapsed in
  exists self' : Robot,
    callback_wheel_speed self w0 w1 w2 w3 now = Ok self' /\
    _theta (trigger self' timestamp) = theta /\
    _coords (trigger self' timestamp)
    = (fst (_coords self) + (cos theta * vx - sin theta * vy) * elapsed,
       snd (_coords self) + (sin theta * vx + cos theta * vy) * elapsed).
Proof.
  intros HT HX Hreset Hfresh. cbv zeta.
  unfold callback_wheel_speed. cbv zeta.
  rewrite (set_wheel_speed_values self w0 w1 w2 w3 [] HT HX). cbn [bind].
  eexists. split; [reflexivity|].
  match goal with
  | |- context [trigger ?s timestamp] => set (s1 := s)
  end.
  destruct (trigger_pose s1 timestamp) as [Hc Hth].
  destruct (integrate_pose s1 timestamp) as (Hth' & Hc' & _).
  cbv zeta in Hth', Hc'.
  rewrite Hc, Hth, Hth', Hc'.
  replace (_reset s1) with false by (symmetry; exact Hreset).
  rewrite (command_check_fresh s1 timestamp) by exact Hfresh.
  subst s1. unfold received, set_velocity.
  cbn [_v _omega _theta _coords _timestamp fst snd].
  assert (Evx : 1 / 80 * w0 + (- (1 / 80) * w1 + (1 / 80 * w2
                  + (- (1 / 80) * w3 + 0)))
                = _wheel_radius / 4 * (w0 - w1 + w2 - w3))
    by (unfold _wheel_radius; lra).
  assert (Evy : - (1 / 80) * w0 + (- (1 / 80) * w1 + (1 / 80 * w2
                  + (1 / 80 * w3 + 0)))
                = _wheel_radius / 4 * (- w0 - w1 + w2 + w3))
    by (unfold _wheel_radius; lra).
  assert (Eom : - (1 / 20) * w0 + (- (1 / 20) * w1 + (- (1 / 20) * w2
                  + (- (1 / 20) * w3 + 0)))
                = - (_wheel_radius / (4 * (_wheel_base / 2 + _track / 2)))
                  * (w0 + w1 + w2 + w3))
    by (unfold _wheel_radius, _wheel_base, _track; lra).
  rewrite Evx, Evy, Eom. split; reflexivity.
Qed.

(** X26. Three wheel patterns, from the wheel command to the pose after
    the next pass (no reset pending, the pass within half a second of the
    command).  With [d = _wheel_radius * w * elapsed]: the rates
    [(w, -w, w, -w)] move the robot by [d] along its heading and leave the
    heading; the rates [(-w, -w, w, w)] move it by [d] sideways, in the
    direction [theta + pi / 2], and leave the heading; equal rates
    [(w, w, w, w)] leave the position and turn the robot by
    [- d / (_wheel_base / 2 + _track / 2)]. *)
Theorem wheel_patterns_drive (self : Robot) (w now timestamp : R) :
  _T self = kinematic_matrix -> is_pinv (_T self) (_Tinv self) ->
  _reset self = false ->
  timestamp - now <= 0.5 ->
  let d := _wheel_radius * w * (timestamp - _timestamp self) in
  let x := fst (_coords self) in
  let y := snd (_coords self) in
  let theta := _theta self in
  (exists s : Robot,
     callback_wheel_speed self w (- w) w (- w) now = Ok s /\
     _theta (trigger s timestamp) = theta /\
     _coords (trigger s timestamp)
     = (x + cos theta * d, y + sin theta * d)) /\
  (exists s : Robot,
     callback_wheel_speed self (- w) (- w) w w now = Ok s /\
     _theta (trigger s timestamp) = theta /\
     _coords (trigger s timestamp)
     = (x - sin theta * d, y + cos theta * d)) /\
  (exists s : Robot,
     callback_wheel_speed self w w w w now = Ok s /\
     _theta (trigger s timestamp)
     = theta - d / (_wheel_base / 2 + _track / 2) /\
     _coords (trigger s timestamp) = (x, y)).
Proof.
  intros HT HX Hreset Hfresh. cbv zeta.
  split; [|split].
  - destruct (tick_after_wheel_command self w (- w) w (- w) now timestamp
                HT HX Hreset Hfresh) as (s & Es & Eth & Ec).
    exists s. split; [exact Es|]. rewrite Eth, Ec.
    replace (w + - w + w + - w) with 0 by ring.
    rewrite Rmult_0_r, Rmult_0_l, Rplus_0_r.
    split; [reflexivity|].
    unfold _wheel_radius. f_equal; field.
  - destruct (tick_after_wheel_command self (- w) (- w) w w now timestamp
                HT HX Hreset Hfresh) as (s & Es & Eth & Ec).
    exists s. split; [exact Es|]. rewrite Eth, Ec.
    replace (- w + - w + w + w) with 0 by ring.
    rewrite Rmult_0_r, Rmult_0_l, Rplus_0_r.
    split; [reflexivity|].
    unfold _wheel_radius. f_equal; field.
  - destruct (tick_after_wheel_command self w w w w now timestamp
                HT HX Hreset Hfresh) as (s & Es & Eth & Ec).
    exists s. split; [exact Es|]. rewrite Eth, Ec.
    split.
    + unfold _wheel_radius, _wheel_base, _track. field; lra.
    + replace (w - w + w - w) with 0 by ring.
      replace (- w - w + w + w) with 0 by ring.
      rewrite !Rmult_0_r, Rminus_0_r, Rplus_0_r, !Rmult_0_l, !Rplus_0_r.
      destruct (_coords self). reflexivity.
Qed.

Lemma wheel_patterns_drive_witness :
  let self := snd (__init__ class_body 2 3 0 "robot" 0) in
  let d := _wheel_radius * 4 * (0.25 - _timestamp self) in
  let x := fst (_coords self) in
  let y := snd (_coords self) in
  let theta := _theta self in
  (exists s : Robot,
     callback_wheel_speed self 4 (- 4) 4 (- 4) 0.125 = Ok s /\
     _theta (trigger s 0.25) = theta /\
     _coords (trigger s 0.25)
     = (x + cos theta * d, y + sin theta * d)) /\
  (exists s : Robot,
     callback_wheel_speed self (- 4) (- 4) 4 4 0.125 = Ok s /\
     _theta (trigger s 0.25) = theta /\
     _coords (trigger s 0.25)
     = (x - sin theta * d, y + cos theta * d)) /\
  (exists s : Robot,
     callback_wheel_speed self 4 4 4 4 0.125 = Ok s /\
     _theta (trigger s 0.25)
     = theta - d / (_wheel_base / 2 + _track / 2) /\
     _coords (trigger s 0.25) = (x, y)).
Proof.
  cbv zeta.
  apply (wheel_patterns_drive (snd (__init__ class_body 2 3 0 "robot" 0))
           4 0.125 0.25).
  - reflexivity.
  - exact pinv_is_pinv.
  - reflexivity.
  - lra.
Defined.

Lemma tick_at_rest (self : Robot) (timestamp : R) :
  _reset self = false -> _v self = (0, 0) -> _omega self = 0 ->
  let self' := trigger self timestamp in
  _coords self' = _coords self /\ _theta self' = _theta self /\
  _reset self' = false /\ _v self' = (0, 0) /\ _omega self' = 0 /\
  _run self' = _run self.
Proof.
  intros Hreset Hv Ho. cbv zeta.
  unfold trigger, consume_reset, integrate, command_check. cbv zeta.
  rewrite Hv, Ho.
  destruct (Rltb 0.5 (timestamp - _last_command self));
    cbn [_reset _coords _theta _v _omega _run fst snd]; rewrite Hreset;
    cbn [_reset _coords _theta _v _omega _run fst snd];
    (split; [destruct (_coords self) as [x y]; cbn [fst snd];
             f_equal; ring|]);
    (split; [ring|]); repeat split; reflexivity.
Qed.

(** X27. [stop] freezes the pose.  After [stop], with no reset pending,
    any number of passes at any times leave the position and the heading
    where they were, and [_run] stays false: the velocity it stores is zero
    and nothing but a command changes it. *)
Theorem stop_freezes_pose (self : Robot) (times : list R) :
  _reset self = false ->
  let self' := fold_left trigger times (stop self) in
  _coords self' = _coords self /\ _theta self' = _theta self /\
  _v self' = (0, 0) /\ _omega self' = 0 /\ _run self' = false.
Proof.
  intros Hreset. cbv zeta.
  assert (H : forall (times : list R) (s : Robot),
            _reset s = false -> _v s = (0, 0) -> _omega s = 0 ->
            _coords (fold_left trigger times s) = _coords s /\
            _theta (fold_left trigger times s) = _theta s /\
            _v (fold_left trigger times s) = (0, 0) /\
            _omega (fold_left trigger times s) = 0 /\
            _run (fold_left trigger times s) = _run s).
  { clear. induction times as [|t times IH]; intros s Hr Hv Ho;
      cbn [fold_left]; [auto|].
    destruct (tick_at_rest s t Hr Hv Ho) as (Ec & Eth & Er & Ev & Eo & Erun).
    destruct (IH (trigger s t) Er Ev Eo) as (Ec' & Eth' & Ev' & Eo' & Erun').
    repeat split; congruence. }
  destruct (H times (stop self)) as (Ec & Eth & Ev & Eo & Erun);
    try reflexivity; [exact Hreset|].
  repeat split; assumption.
Qed.

Lemma stop_freezes_pose_witness :
  let self := snd (__init__ class_body 2 3 0 "robot" 0) in
  let self' := fold_left trigger [0.1; 0.2; 1]
                 (stop (callback_twist self 1 1 1 0)) in
  _coords self' = (2, 3) /\ _theta self' = 0 /\
  _v self' = (0, 0) /\ _omega self' = 0 /\ _run self' = false.
Proof.
  cbv zeta.
  apply (stop_freezes_pose
           (callback_twist (snd (__init__ class_body 2 3 0 "robot" 0))
              1 1 1 0) [0.1; 0.2; 1]).
  reflexivity.
Defined.
